(** * HaskPy: the auto-currying engine of [haskpy/utils.py]

    A shallow embedding of [count_required_arguments], [update_argspec],
    [Wrapped], [wraps], [curry] and [curry_new], together with the part of
    the Python runtime they run on: the call protocol of [def] functions,
    [functools.partial], and [inspect.getfullargspec] (through
    [Signature.bind_partial] and the signature of a partial object).  The
    decorators of the same module ([class_function], [class_property],
    [abstract_function], [abstract_property], [nonexisting_function]) and
    the class [memoize] of [haskpy/testing.py] follow.

    Scope of the runtime model.  The invocables are [def] functions and
    lambdas, methods bound to an object, partial objects, the closures and
    [Wrapped] objects of this module, and opaque callables given by their
    behaviour and signature; classes and callable instances, which bind
    their first argument as methods do, are not modelled apart.  Parameters
    have the four kinds a [FullArgSpec] tells apart (positional-or-keyword,
    var-positional, keyword-only, var-keyword); positional-only parameters
    (PEP 570) are not modelled.  Function bodies are total and
    deterministic: a body maps its bound arguments to a returned value or a
    raised exception.  Exceptions are compared by class and arguments.
    Every call yields, next to its outcome, the trace of the bodies it ran
    and of the [getfullargspec] calls made. *)

From Stdlib Require Import List String ZArith Bool Arith Lia Permutation.
Import ListNotations.
Local Open Scope string_scope.
Local Open Scope list_scope.
Local Open Scope nat_scope.
Set Warnings "-register-all".

(** ** Values *)

(** [inspect.FullArgSpec], a named tuple; it is parameterised by the type of
    values because default values are stored in it. *)
Record FullArgSpecOf (V : Type) : Type := mkFullArgSpec {
  spec_args : list string;
  spec_varargs : option string;
  spec_varkw : option string;
  spec_defaults : option (list V);
  spec_kwonlyargs : list string;
  spec_kwonlydefaults : option (list (string * V));
  spec_annotations : list (string * V)
}.

Arguments mkFullArgSpec {V}.
Arguments spec_args {V}.
Arguments spec_varargs {V}.
Arguments spec_varkw {V}.
Arguments spec_defaults {V}.
Arguments spec_kwonlyargs {V}.
Arguments spec_kwonlydefaults {V}.
Arguments spec_annotations {V}.

Inductive value : Type :=
| VNone
| VInt (z : Z)
| VStr (s : string)
| VTuple (items : list value)
| VDict (items : list (string * value))
| VArgSpec (spec : FullArgSpecOf value)
    (* a [def] function or lambda, described by the function table *)
| VFunction (f : nat)
    (* any other callable without a bound first argument, opaque *)
| VBuiltin (b : nat)
    (* bound method object: [__self__], [__func__] *)
| VMethod (self : value) (func : value)
    (* [functools.partial] object: [func], [args], [keywords] *)
| VPartial (func : value) (pargs : list value) (keywords : list (string * value))
    (* the closure [wrapped] made by [curry(f, wrap)] *)
| VCurryWrapped (f : value) (wrap : bool)
    (* the closure [wrapped] made by [curry_new(f, argspec)] *)
| VCurryNewWrapped (f : value) (argspec : option (FullArgSpecOf value))
    (* instance of class [Wrapped]: [__unwrapped], [__wrapped] *)
| VWrapped (unwrapped : value) (wrapped : value).

Definition FullArgSpec : Type := FullArgSpecOf value.

(** A Python [dict] with string keys, in insertion order. *)
Definition dict : Type := list (string * value).

Fixpoint dict_get (k : string) (d : dict) : option value :=
  match d with
  | [] => None
  | (k', v) :: d' => if String.eqb k k' then Some v else dict_get k d'
  end.

Definition dict_mem (k : string) (d : dict) : bool :=
  match dict_get k d with Some _ => true | None => false end.

(** [d[k] = v]: replaces in place, or appends a new key. *)
Fixpoint dict_set (d : dict) (k : string) (v : value) : dict :=
  match d with
  | [] => [(k, v)]
  | (k', v') :: d' =>
      if String.eqb k k' then (k', v) :: d' else (k', v') :: dict_set d' k v
  end.

(** [d.pop(k)] (the dictionary that is left). *)
Definition dict_pop (k : string) (d : dict) : dict :=
  filter (fun kv => negb (String.eqb k (fst kv))) d.

Definition dict_keys (d : dict) : list string := map fst d.

(** [{**d1, **d2}] *)
Definition dict_update (d1 d2 : dict) : dict :=
  fold_left (fun d kv => dict_set d (fst kv) (snd kv)) d2 d1.

Definition mem_string (k : string) (l : list string) : bool :=
  existsb (String.eqb k) l.

(** ** Exceptions and outcomes *)

Inductive exc_class : Type :=
| TypeError
| ValueError
| NameError
| AttributeError
| ZeroDivisionError
    (* a class defined by the program; the flag tells whether it derives
       from [TypeError] *)
| UserError (name : string) (derives_TypeError : bool).

(** The arguments of an exception.  The messages the interpreter builds for a
    call that does not fit a signature are kept structured. *)
Inductive exc_args : Type :=
| Msg (s : string)
| TooManyPositional (fname : string) (takes given : nat)
| MultipleValues (fname : string) (arg : string)
| UnexpectedKeyword (fname : string) (arg : string)
| MissingPositional (fname : string) (names : list string)
| MissingKwOnly (fname : string) (names : list string).

Record exn : Type := mkExn { exc_type : exc_class; exc_value : exc_args }.

(** [isinstance(e, TypeError)]: what [except TypeError] catches. *)
Definition is_TypeError (e : exn) : bool :=
  match exc_type e with
  | TypeError => true
  | UserError _ b => b
  | _ => false
  end.

Inductive outcome (A : Type) : Type :=
| Return (x : A)
| Raise (e : exn).

Arguments Return {A}.
Arguments Raise {A}.

Definition obind {A B : Type} (o : outcome A) (k : A -> outcome B) : outcome B :=
  match o with
  | Return x => k x
  | Raise e => Raise e
  end.

Notation "x <- c ;; k" := (obind c (fun x => k))
  (at level 61, c at next level, right associativity).
Notation "' pat <- c ;; k" := (obind c (fun x => match x with pat => k end))
  (at level 61, pat pattern, c at next level, right associativity).

(** ** Observable events of a call *)

Inductive event : Type :=
| EvBody (f : nat) (env : dict)
| EvBuiltin (b : nat) (args : list value) (kwargs : dict)
| EvInspect (target : value).

Definition trace : Type := list event.

Definition is_invocation (ev : event) : bool :=
  match ev with EvInspect _ => false | _ => true end.

(** ** Signatures ([inspect.Signature]) *)

Inductive param_kind : Type :=
| POSITIONAL_OR_KEYWORD
| VAR_POSITIONAL
| KEYWORD_ONLY
| VAR_KEYWORD.

Record Param : Type := mkParam {
  p_name : string;
  p_kind : param_kind;
  p_default : option value
}.

Definition Signature : Type := list Param.

Definition has_default (p : Param) : bool :=
  match p_default p with Some _ => true | None => false end.

Definition is_var (p : Param) : bool :=
  match p_kind p with
  | VAR_POSITIONAL | VAR_KEYWORD => true
  | _ => false
  end.

(** ** [def] functions *)

(** What the interpreter keeps of a [def] or lambda: [__name__], [__doc__],
    [__module__], and the parameter lists of its code object with
    [__defaults__] and [__kwdefaults__]. *)
Record fundef : Type := mkFundef {
  fn_name : string;
  fn_doc : option string;
  fn_module : string;
  fn_args : list string;
  fn_defaults : list value;
  fn_varargs : option string;
  fn_kwonlyargs : list string;
  fn_kwdefaults : dict;
  fn_varkw : option string
}.

(** Number of positional parameters that have no default. *)
Definition fn_nrequired (fd : fundef) : nat :=
  List.length (fn_args fd) - List.length (fn_defaults fd).

(** The default of the [i]-th positional parameter. *)
Definition fn_default_at (fd : fundef) (i : nat) : option value :=
  if i <? fn_nrequired fd then None
  else nth_error (fn_defaults fd) (i - fn_nrequired fd).

(** [inspect._signature_from_function] *)
Fixpoint positional_parameters (fd : fundef) (i : nat) (names : list string)
  : Signature :=
  match names with
  | [] => []
  | n :: names' =>
      mkParam n POSITIONAL_OR_KEYWORD (fn_default_at fd i)
        :: positional_parameters fd (S i) names'
  end.

Definition option_parameter (k : param_kind) (o : option string) : Signature :=
  match o with
  | Some n => [mkParam n k None]
  | None => []
  end.

Definition signature_from_function (fd : fundef) : Signature :=
  positional_parameters fd 0 (fn_args fd)
  ++ option_parameter VAR_POSITIONAL (fn_varargs fd)
  ++ map (fun n => mkParam n KEYWORD_ONLY (dict_get n (fn_kwdefaults fd)))
         (fn_kwonlyargs fd)
  ++ option_parameter VAR_KEYWORD (fn_varkw fd).

(** The parameters that follow the positional ones. *)
Definition signature_tail (fd : fundef) : Signature :=
  option_parameter VAR_POSITIONAL (fn_varargs fd)
  ++ map (fun n => mkParam n KEYWORD_ONLY (dict_get n (fn_kwdefaults fd)))
         (fn_kwonlyargs fd)
  ++ option_parameter VAR_KEYWORD (fn_varkw fd).

(** *** The call protocol of a [def] function

    The interpreter fills the positional slots, then places each keyword
    (raising at the first keyword it cannot place), then rejects surplus
    positional arguments, then reports the positional parameters left
    without a value, then the keyword-only ones. *)

Definition type_error (a : exc_args) : exn := mkExn TypeError a.

(** The first keyword that cannot be placed, with its error. *)
Fixpoint check_keywords (fd : fundef) (npos : nat) (kwargs : dict)
  : option exn :=
  match kwargs with
  | [] => None
  | (k, _) :: rest =>
      if mem_string k (fn_args fd ++ fn_kwonlyargs fd) then
        if mem_string k (firstn npos (fn_args fd))
        then Some (type_error (MultipleValues (fn_name fd) k))
        else check_keywords fd npos rest
      else
        match fn_varkw fd with
        | Some _ => check_keywords fd npos rest
        | None => Some (type_error (UnexpectedKeyword (fn_name fd) k))
        end
  end.

(** Positional parameters from index [i] on that are given neither by
    position nor by keyword and have no default. *)
Fixpoint missing_positional (fd : fundef) (npos : nat) (kwargs : dict)
    (i : nat) (names : list string) : list string :=
  match names with
  | [] => []
  | n :: names' =>
      let rest := missing_positional fd npos kwargs (S i) names' in
      if (i <? npos) || dict_mem n kwargs || (fn_nrequired fd <=? i)
      then rest else n :: rest
  end.

Definition missing_kwonly (fd : fundef) (kwargs : dict) : list string :=
  filter (fun n => negb (dict_mem n kwargs || dict_mem n (fn_kwdefaults fd)))
         (fn_kwonlyargs fd).

(** The local variables of the frame, one entry per parameter, in the order
    of the code object: positional, keyword-only, var-positional,
    var-keyword. *)
Fixpoint positional_locals (fd : fundef) (args : list value) (kwargs : dict)
    (i : nat) (names : list string) : dict :=
  match names with
  | [] => []
  | n :: names' =>
      let v :=
        match nth_error args i with
        | Some a => a
        | None =>
            match dict_get n kwargs with
            | Some a => a
            | None =>
                match fn_default_at fd i with Some a => a | None => VNone end
            end
        end in
      (n, v) :: positional_locals fd args kwargs (S i) names'
  end.

Definition kwonly_locals (fd : fundef) (kwargs : dict) : dict :=
  map (fun n =>
         (n, match dict_get n kwargs with
             | Some a => a
             | None =>
                 match dict_get n (fn_kwdefaults fd) with
                 | Some a => a
                 | None => VNone
                 end
             end))
      (fn_kwonlyargs fd).

Definition surplus_keywords (fd : fundef) (kwargs : dict) : dict :=
  filter (fun kv => negb (mem_string (fst kv) (fn_args fd ++ fn_kwonlyargs fd)))
         kwargs.

Definition py_bind (fd : fundef) (args : list value) (kwargs : dict)
  : outcome dict :=
  let ntakes := List.length (fn_args fd) in
  match check_keywords fd (List.length args) kwargs with
  | Some e => Raise e
  | None =>
      if (ntakes <? List.length args)
         && match fn_varargs fd with None => true | Some _ => false end
      then Raise (type_error
                    (TooManyPositional (fn_name fd) ntakes (List.length args)))
      else
        match missing_positional fd (List.length args) kwargs 0 (fn_args fd) with
        | (_ :: _) as names =>
            Raise (type_error (MissingPositional (fn_name fd) names))
        | [] =>
            match missing_kwonly fd kwargs with
            | (_ :: _) as names =>
                Raise (type_error (MissingKwOnly (fn_name fd) names))
            | [] =>
                Return
                  (positional_locals fd args kwargs 0 (fn_args fd)
                   ++ kwonly_locals fd kwargs
                   ++ match fn_varargs fd with
                      | Some n => [(n, VTuple (skipn ntakes args))]
                      | None => []
                      end
                   ++ match fn_varkw fd with
                      | Some n => [(n, VDict (surplus_keywords fd kwargs))]
                      | None => []
                      end)
            end
        end
  end.

(** ** [inspect.Signature.bind] and [bind_partial]

    [Signature._bind(args, kwargs, partial)].  The first loop pairs the
    positional arguments with the parameters in order; it hands over the
    parameters it has not consumed.  The second loop places the keywords. *)

Definition bind_error (s : string) : exn := mkExn TypeError (Msg s).

Fixpoint bind_positional (partial : bool) (parameters : Signature)
    (args : list value) (kwargs : dict) (arguments : dict)
  : outcome (dict * Signature) :=
  match args with
  | [] =>
      match parameters with
      | [] => Return (arguments, [])
      | param :: rest =>
          match p_kind param with
          | VAR_POSITIONAL => Return (arguments, rest)
          | k =>
              if dict_mem (p_name param) kwargs
              then Return (arguments, param :: rest)
              else if match k with VAR_KEYWORD => true | _ => false end
                      || has_default param
              then Return (arguments, param :: rest)
              else if partial
              then Return (arguments, param :: rest)
              else Raise (bind_error "missing a required argument")
          end
      end
  | arg_val :: arg_vals =>
      match parameters with
      | [] => Raise (bind_error "too many positional arguments")
      | param :: rest =>
          match p_kind param with
          | VAR_KEYWORD | KEYWORD_ONLY =>
              Raise (bind_error "too many positional arguments")
          | VAR_POSITIONAL =>
              Return (dict_set arguments (p_name param)
                        (VTuple (arg_val :: arg_vals)), rest)
          | POSITIONAL_OR_KEYWORD =>
              if dict_mem (p_name param) kwargs
              then Raise (bind_error "multiple values for argument")
              else bind_positional partial rest arg_vals kwargs
                     (dict_set arguments (p_name param) arg_val)
          end
      end
  end.

Fixpoint bind_keywords (partial : bool) (parameters : Signature)
    (kwargs : dict) (arguments : dict) (kwargs_param : option Param)
  : outcome (dict * dict * option Param) :=
  match parameters with
  | [] => Return (arguments, kwargs, kwargs_param)
  | param :: rest =>
      match p_kind param with
      | VAR_KEYWORD => bind_keywords partial rest kwargs arguments (Some param)
      | VAR_POSITIONAL =>
          bind_keywords partial rest kwargs arguments kwargs_param
      | _ =>
          match dict_get (p_name param) kwargs with
          | None =>
              if negb partial && negb (has_default param)
              then Raise (bind_error "missing a required argument")
              else bind_keywords partial rest kwargs arguments kwargs_param
          | Some arg_val =>
              bind_keywords partial rest (dict_pop (p_name param) kwargs)
                (dict_set arguments (p_name param) arg_val) kwargs_param
          end
      end
  end.

(** The [arguments] mapping of the resulting [BoundArguments]. *)
Definition sig_bind (partial : bool) (sig : Signature) (args : list value)
    (kwargs : dict) : outcome dict :=
  '(arguments, rest) <- bind_positional partial sig args kwargs [] ;;
  '(arguments, remaining, kwargs_param) <-
     bind_keywords partial rest kwargs arguments None ;;
  match remaining with
  | [] => Return arguments
  | (k, _) :: _ =>
      match kwargs_param with
      | Some p => Return (dict_set arguments (p_name p) (VDict remaining))
      | None => Raise (bind_error "got an unexpected keyword argument")
      end
  end.

(** ** The signature of a partial object ([inspect._signature_get_partial])

    [new_params] is an ordered mapping from names to parameters. *)

Definition params_pop (name : string) (ps : Signature) : Signature :=
  filter (fun q => negb (String.eqb name (p_name q))) ps.

(** [new_params[name] = f(new_params[name])], the entry keeps its place. *)
Definition params_update (name : string) (f : Param -> Param)
    (ps : Signature) : Signature :=
  map (fun q => if String.eqb name (p_name q) then f q else q) ps.

Definition params_move_to_end (name : string) (ps : Signature) : Signature :=
  filter (fun q => negb (String.eqb name (p_name q))) ps
  ++ filter (fun q => String.eqb name (p_name q)) ps.

Definition replace_default (v : value) (p : Param) : Param :=
  mkParam (p_name p) (p_kind p) (Some v).

Definition replace_kind (k : param_kind) (p : Param) : Param :=
  mkParam (p_name p) k (p_default p).

(** The tail of the loop body, reached unless the parameter was dropped. *)
Definition transform_step (transform_to_kwonly : bool) (param : Param)
    (new_params : Signature) : Signature :=
  if transform_to_kwonly then
    match p_kind param with
    | POSITIONAL_OR_KEYWORD =>
        params_move_to_end (p_name param)
          (params_update (p_name param) (replace_kind KEYWORD_ONLY) new_params)
    | KEYWORD_ONLY | VAR_KEYWORD => params_move_to_end (p_name param) new_params
    | VAR_POSITIONAL => params_pop (p_name param) new_params
    end
  else new_params.

Definition partial_step (arguments partial_keywords : dict)
    (st : Signature * bool) (param : Param) : Signature * bool :=
  let '(new_params, transform_to_kwonly) := st in
  match dict_get (p_name param) arguments with
  | None => (transform_step transform_to_kwonly param new_params,
             transform_to_kwonly)
  | Some arg_value =>
      match p_kind param with
      | POSITIONAL_OR_KEYWORD =>
          if dict_mem (p_name param) partial_keywords
          then (transform_step true param
                  (params_update (p_name param)
                     (fun _ => replace_default arg_value param) new_params),
                true)
          else (params_pop (p_name param) new_params, transform_to_kwonly)
      | KEYWORD_ONLY =>
          (transform_step transform_to_kwonly param
             (params_update (p_name param)
                (fun _ => replace_default arg_value param) new_params),
           transform_to_kwonly)
      | _ => (transform_step transform_to_kwonly param new_params,
              transform_to_kwonly)
      end
  end.

Definition value_error (s : string) : exn := mkExn ValueError (Msg s).

(** The failure of [inspect.getfullargspec] itself. *)
Definition unsupported_callable : exn :=
  type_error (Msg "unsupported callable").

Definition signature_get_partial (wrapped_sig : Signature)
    (partial_args : list value) (partial_keywords : dict)
  : outcome Signature :=
  match sig_bind true wrapped_sig partial_args partial_keywords with
  | Raise _ => Raise (value_error "partial object has incorrect arguments")
  | Return arguments =>
      Return (fst (fold_left (partial_step arguments partial_keywords)
                     wrapped_sig (wrapped_sig, false)))
  end.

(** ** From a signature to a [FullArgSpec] (the loop of
    [inspect.getfullargspec]) *)

Record argspec_acc : Type := mkAcc {
  acc_args : list string;
  acc_varargs : option string;
  acc_varkw : option string;
  acc_defaults : list value;
  acc_kwonlyargs : list string;
  acc_kwdefaults : dict
}.

Definition argspec_step (a : argspec_acc) (param : Param) : argspec_acc :=
  match p_kind param with
  | POSITIONAL_OR_KEYWORD =>
      mkAcc (acc_args a ++ [p_name param]) (acc_varargs a) (acc_varkw a)
        (match p_default param with
         | Some d => acc_defaults a ++ [d]
         | None => acc_defaults a
         end)
        (acc_kwonlyargs a) (acc_kwdefaults a)
  | VAR_POSITIONAL =>
      mkAcc (acc_args a) (Some (p_name param)) (acc_varkw a) (acc_defaults a)
        (acc_kwonlyargs a) (acc_kwdefaults a)
  | KEYWORD_ONLY =>
      mkAcc (acc_args a) (acc_varargs a) (acc_varkw a) (acc_defaults a)
        (acc_kwonlyargs a ++ [p_name param])
        (match p_default param with
         | Some d => dict_set (acc_kwdefaults a) (p_name param) d
         | None => acc_kwdefaults a
         end)
  | VAR_KEYWORD =>
      mkAcc (acc_args a) (acc_varargs a) (Some (p_name param)) (acc_defaults a)
        (acc_kwonlyargs a) (acc_kwdefaults a)
  end.

Definition argspec_of_acc (a : argspec_acc) : FullArgSpec :=
  mkFullArgSpec (acc_args a) (acc_varargs a) (acc_varkw a)
    (match acc_defaults a with [] => None | d => Some d end)
    (acc_kwonlyargs a)
    (match acc_kwdefaults a with [] => None | d => Some d end)
    [].

Definition fullargspec_of_signature (sig : Signature) : FullArgSpec :=
  argspec_of_acc (fold_left argspec_step sig (mkAcc [] None None [] [] [])).

(** * The module [haskpy.utils] *)

(** ** [count_required_arguments]

    Python integers are unbounded and the subtraction may go below zero, so
    the count is an integer.  A [set] is kept as a list without duplicates. *)

Definition py_set (l : list string) : list string := nodup string_dec l.

Definition set_difference (a b : list string) : list string :=
  filter (fun k => negb (mem_string k b)) a.

Definition count_required_arguments (argspec : FullArgSpec) : Z :=
  let n_args :=
    (Z.of_nat (List.length (spec_args argspec))
     - match spec_defaults argspec with
       | None => 0
       | Some d => Z.of_nat (List.length d)
       end)%Z in
  let defaults :=
    match spec_kwonlydefaults argspec with
    | None => py_set []
    | Some d => py_set (dict_keys d)
    end in
  let kws := py_set (spec_kwonlyargs argspec) in
  let n_kw := Z.of_nat (List.length (set_difference kws defaults)) in
  (n_args + n_kw)%Z.

(** ** [update_argspec]

    The message of the [TypeError] is formatted with [name=name], and no
    [name] is in scope: evaluating the argument raises [NameError]. *)

Definition update_argspec (spec : FullArgSpec) (args : list value)
    (kwargs : dict) : outcome FullArgSpec :=
  let no_varargs :=
    match spec_varargs spec with None => true | Some _ => false end in
  let nargs_takes := Z.of_nat (List.length (spec_args spec)) in
  let nargs_given := Z.of_nat (List.length args) in
  let nargs_remain := (nargs_takes - nargs_given)%Z in
  if no_varargs && (nargs_remain <? 0)%Z
  then Raise (mkExn NameError (Msg "name 'name' is not defined"))
  else
    let new_args := skipn (List.length args) (spec_args spec) in
    new_defaults <-
      (if (0 <? nargs_remain)%Z then
         match spec_defaults spec with
         | None =>
             Raise (type_error (Msg "'NoneType' object is not subscriptable"))
         | Some d =>
             Return (Some (skipn (List.length d - Z.to_nat nargs_remain) d))
         end
       else Return None) ;;
    let new_kwonlyargs := spec_kwonlyargs spec in
    let new_kwonlydefaults := spec_kwonlydefaults spec in
    Return (mkFullArgSpec new_args (spec_varargs spec) (spec_varkw spec)
              new_defaults new_kwonlyargs new_kwonlydefaults
              (spec_annotations spec)).

(** [update_argspec] as the function object a caller applies: three
    positional-or-keyword parameters. *)
Definition update_argspec_def : fundef :=
  mkFundef "update_argspec" None "haskpy.utils"
    ["spec"; "args"; "kwargs"] [] None [] [] None.

Definition call_update_argspec (args : list value) (kwargs : dict)
  : outcome FullArgSpec :=
  env <- py_bind update_argspec_def args kwargs ;;
  match dict_get "spec" env, dict_get "args" env, dict_get "kwargs" env with
  | Some (VArgSpec spec), Some (VTuple a), Some (VDict k) =>
      update_argspec spec a k
  | _, _, _ =>
      Raise (mkExn AttributeError (Msg "object has no attribute 'varargs'"))
  end.

(** ** [callable], [type(f).__name__], [functools.partial] *)

Definition callable (v : value) : bool :=
  match v with
  | VFunction _ | VBuiltin _ | VMethod _ _ | VPartial _ _ _
  | VCurryWrapped _ _ | VCurryNewWrapped _ _ | VWrapped _ _ => true
  | _ => false
  end.

Definition type_name (v : value) : string :=
  match v with
  | VNone => "NoneType"
  | VInt _ => "int"
  | VStr _ => "str"
  | VTuple _ => "tuple"
  | VDict _ => "dict"
  | VArgSpec _ => "FullArgSpec"
  | VFunction _ => "function"
  | VBuiltin _ => "builtin_function_or_method"
  | VMethod _ _ => "method"
  | VPartial _ _ _ => "partial"
  | VCurryWrapped _ _ => "function"
  | VCurryNewWrapped _ _ => "function"
  | VWrapped _ _ => "Wrapped"
  end.

Definition not_callable (v : value) : exn :=
  type_error (Msg (String.append "'"
                     (String.append (type_name v) "' object is not callable"))).

(** [functools.partial(f, *args, **kwargs)] binds the arguments to [f]; a
    partial of a partial object is flattened: the accumulated arguments are
    bound to the function under it. *)
Definition accumulated (f : value) (args : list value) (kwargs : dict)
  : value :=
  match f with
  | VPartial func pargs keywords =>
      VPartial func (pargs ++ args) (dict_update keywords kwargs)
  | _ => VPartial f args kwargs
  end.

Definition functools_partial (f : value) (args : list value) (kwargs : dict)
  : outcome value :=
  if callable f then Return (accumulated f args kwargs)
  else Raise (type_error (Msg "the first argument must be callable")).

(** ** [Wrapped], [wraps], [curry], [curry_new] *)

Definition wraps (f : value) (g : value) : value := VWrapped f g.

Definition curry (f : value) (wrap : bool) : outcome value :=
  if negb (callable f) then Raise (not_callable f)
  else Return (if wrap then wraps f (VCurryWrapped f wrap)
               else VCurryWrapped f wrap).

Definition curry_new (f : value) (argspec : option FullArgSpec)
  : outcome value :=
  if negb (callable f) then Raise (not_callable f)
  else Return (wraps f (VCurryNewWrapped f argspec)).

(** [inspect._signature_bound_method]: the signature a bound method shows
    to its callers. *)
Definition signature_bound_method (sig : Signature) : outcome Signature :=
  match sig with
  | [] => Raise (value_error "invalid method signature")
  | p :: rest =>
      match p_kind p with
      | POSITIONAL_OR_KEYWORD => Return rest
      | VAR_POSITIONAL => Return sig
      | KEYWORD_ONLY | VAR_KEYWORD =>
          Raise (value_error "invalid method signature")
      end
  end.

(** The signature of the closures [wrapped( *args, **kwargs)]. *)
Definition wrapped_signature : Signature :=
  [mkParam "args" VAR_POSITIONAL None; mkParam "kwargs" VAR_KEYWORD None].

(** What is known of a callable that is not a [def] function. *)
Record builtin : Type := mkBuiltin {
  bi_name : option string;
  bi_doc : option string;
  bi_module : option string;
  bi_signature : option Signature
}.

Section Program.

(** The function table, the bodies, the opaque callables, and the
    docstrings of the classes of the other objects. *)
Variable defs : nat -> fundef.
Variable body : nat -> dict -> outcome value.
Variable builtins : nat -> builtin.
Variable builtin_call : nat -> list value -> dict -> outcome value.
Variable class_doc : string -> option string.

(** [inspect._signature_from_callable(obj, skip_bound_arg=...)].  A bound
    method answers with the signature of its function, without the first
    parameter when [skip_bound_arg] is set; a partial object answers through
    the signature of its function; a [Wrapped] object answers through its
    [__signature__] property, which calls [inspect.signature]. *)
Fixpoint signature (skip_bound_arg : bool) (obj : value)
  : outcome Signature :=
  match obj with
  | VFunction f => Return (signature_from_function (defs f))
  | VBuiltin b =>
      match bi_signature (builtins b) with
      | Some sig => Return sig
      | None => Raise (value_error "no signature found")
      end
  | VMethod _ func =>
      sig <- signature skip_bound_arg func ;;
      if skip_bound_arg then signature_bound_method sig else Return sig
  | VPartial func pargs keywords =>
      wrapped_sig <- signature skip_bound_arg func ;;
      signature_get_partial wrapped_sig pargs keywords
  | VCurryWrapped _ _ => Return wrapped_signature
  | VCurryNewWrapped _ _ => Return wrapped_signature
  | VWrapped unwrapped _ => signature true unwrapped
  | _ => Raise (type_error (Msg "is not a callable object"))
  end.

(** [inspect.signature(obj)] skips the bound argument. *)
Definition inspect_signature (obj : value) : outcome Signature :=
  signature true obj.

(** [inspect.getfullargspec]: the signature is taken with
    [skip_bound_arg=False], so the first parameter of a bound method is
    reported; any failure becomes a [TypeError]. *)
Definition getfullargspec (func : value) : outcome FullArgSpec :=
  match signature false func with
  | Raise _ => Raise unsupported_callable
  | Return sig => Return (fullargspec_of_signature sig)
  end.

(** Calling a value: [v( *args, **kwargs)]. *)
Fixpoint call (v : value) (args : list value) (kwargs : dict)
  : trace * outcome value :=
  match v with
  | VFunction f =>
      match py_bind (defs f) args kwargs with
      | Raise e => ([], Raise e)
      | Return env => ([EvBody f env], body f env)
      end
  | VBuiltin b => ([EvBuiltin b args kwargs], builtin_call b args kwargs)
  | VMethod self func => call func (self :: args) kwargs
  | VPartial func pargs keywords =>
      call func (pargs ++ args) (dict_update keywords kwargs)
  | VWrapped _ wrapped => call wrapped args kwargs
  | VCurryWrapped f wrap =>
      let '(t, r) := call f args kwargs in
      match r with
      | Return x => (t, Return x)
      | Raise e =>
          if is_TypeError e then
            match functools_partial f args kwargs with
            | Raise e' => (t, Raise e')
            | Return fp =>
                match getfullargspec fp with
                | Raise _ => (t ++ [EvInspect fp], Raise e)
                | Return spec =>
                    if (0 <? count_required_arguments spec)%Z
                    then (t ++ [EvInspect fp], curry fp wrap)
                    else (t ++ [EvInspect fp], Raise e)
                end
            end
          else (t, Raise e)
      end
  | VCurryNewWrapped f argspec =>
      let '(t, r) := call f args kwargs in
      match r with
      | Return x => (t, Return x)
      | Raise e =>
          if is_TypeError e then
            let '(t1, cached) :=
              match argspec with
              | None => (t ++ [EvInspect f], getfullargspec f)
              | Some spec => (t, Return spec)
              end in
            match cached with
            | Raise e' => (t1, Raise e')
            | Return argspec' =>
                match call_update_argspec
                        [VStr "foo"; VArgSpec argspec'; VTuple args;
                         VDict kwargs] [] with
                | Raise e' =>
                    if is_TypeError e' then (t1, Raise e) else (t1, Raise e')
                | Return new_argspec =>
                    if (0 <? count_required_arguments new_argspec)%Z
                    then
                      match functools_partial f args kwargs with
                      | Raise e' => (t1, Raise e')
                      | Return fp => (t1, curry_new fp (Some new_argspec))
                      end
                    else (t1, Raise e)
                end
            end
          else (t, Raise e)
      end
  | _ => ([], Raise (not_callable v))
  end.

(** Feeding argument groups one call after the other:
    [v( *g1, **k1)( *g2, **k2)...]. *)
Fixpoint feed (v : value) (calls : list (list value * dict))
  : trace * outcome value :=
  match calls with
  | [] => ([], Return v)
  | (args, kwargs) :: rest =>
      match call v args kwargs with
      | (t, Return v') => let '(t', r) := feed v' rest in (t ++ t', r)
      | (t, Raise e) => (t, Raise e)
      end
  end.

(** ** Metadata: [__name__], [__doc__], [__module__] *)

Definition no_attribute (v : value) (a : string) : exn :=
  mkExn AttributeError
    (Msg (String.append "'"
            (String.append (type_name v)
               (String.append "' object has no attribute '"
                  (String.append a "'"))))).

Fixpoint get_name (v : value) : outcome string :=
  match v with
  | VFunction f => Return (fn_name (defs f))
  | VBuiltin b =>
      match bi_name (builtins b) with
      | Some n => Return n
      | None => Raise (no_attribute v "__name__")
      end
  | VMethod _ func => get_name func
  | VCurryWrapped _ _ | VCurryNewWrapped _ _ => Return "wrapped"
  | _ => Raise (no_attribute v "__name__")
  end.

Fixpoint get_doc (v : value) : outcome (option string) :=
  match v with
  | VFunction f => Return (fn_doc (defs f))
  | VBuiltin b => Return (bi_doc (builtins b))
  | VMethod _ func => get_doc func
  | VCurryWrapped _ _ => Return None
  | VCurryNewWrapped _ _ => Return None
  | VWrapped unwrapped _ => get_doc unwrapped
  | _ => Return (class_doc (type_name v))
  end.

Fixpoint get_module (v : value) : outcome string :=
  match v with
  | VFunction f => Return (fn_module (defs f))
  | VBuiltin b =>
      match bi_module (builtins b) with
      | Some n => Return n
      | None => Raise (no_attribute v "__module__")
      end
  | VMethod _ func => get_module func
  | VPartial _ _ _ => Return "functools"
  | VCurryWrapped _ _ | VCurryNewWrapped _ _ => Return "haskpy.utils"
  | VWrapped unwrapped _ => get_module unwrapped
  | _ => Raise (no_attribute v "__module__")
  end.

End Program.

(** ** Well-formed signatures

    [inspect.Signature] refuses two parameters of the same name. *)
Fixpoint distinct (l : list string) : bool :=
  match l with
  | [] => true
  | x :: l' => negb (mem_string x l') && distinct l'
  end.

Definition wf_signature (sig : Signature) : bool :=
  distinct (map p_name sig).

Definition is_keyword_only (p : Param) : bool :=
  match p_kind p with KEYWORD_ONLY => true | _ => false end.

(** A parameter that needs no argument: a var parameter, or one with a
    default. *)
Definition is_optional (p : Param) : bool := is_var p || has_default p.

(** The two summands of [count_required_arguments] on the [FullArgSpec] of
    a signature: the positional parameters without default, and the names
    of keyword-only parameters that have no default. *)
Definition required_keywords (sig : Signature) : list string :=
  set_difference
    (py_set (map p_name (filter is_keyword_only sig)))
    (py_set (dict_keys
               (acc_kwdefaults
                  (fold_left argspec_step sig (mkAcc [] None None [] [] []))))).

(** ** What the loop of [_signature_get_partial] makes of one parameter

    [None] when the parameter is dropped from the signature. *)

Definition transform_result (transform_to_kwonly : bool) (param cur : Param)
  : option Param :=
  if transform_to_kwonly then
    match p_kind param with
    | POSITIONAL_OR_KEYWORD => Some (replace_kind KEYWORD_ONLY cur)
    | KEYWORD_ONLY | VAR_KEYWORD => Some cur
    | VAR_POSITIONAL => None
    end
  else Some cur.

Definition partial_result (arguments partial_keywords : dict)
    (transform_to_kwonly : bool) (param : Param) : option Param :=
  match dict_get (p_name param) arguments with
  | None => transform_result transform_to_kwonly param param
  | Some arg_value =>
      match p_kind param with
      | POSITIONAL_OR_KEYWORD =>
          if dict_mem (p_name param) partial_keywords
          then transform_result true param (replace_default arg_value param)
          else None
      | KEYWORD_ONLY =>
          transform_result transform_to_kwonly param
            (replace_default arg_value param)
      | _ => transform_result transform_to_kwonly param param
      end
  end.

(** ** Well-formed [def] functions

    The compiler refuses two parameters of the same name, and a function has
    no more positional defaults than positional parameters. *)
Definition option_list (o : option string) : list string :=
  match o with Some n => [n] | None => [] end.

Definition fn_names (fd : fundef) : list string :=
  fn_args fd ++ option_list (fn_varargs fd)
  ++ fn_kwonlyargs fd ++ option_list (fn_varkw fd).

Definition wf_fundef (fd : fundef) : bool :=
  distinct (fn_names fd)
  && (List.length (fn_defaults fd) <=? List.length (fn_args fd)).

(** ** Bindings a signature rejects

    The three ways a binding can be invalid: more positional arguments than
    positional parameters and no var-positional parameter; a keyword that
    names no parameter and no var-keyword parameter; a keyword naming a
    parameter that a positional argument already fills. *)

Definition is_positional (p : Param) : bool :=
  match p_kind p with POSITIONAL_OR_KEYWORD => true | _ => false end.

Definition is_var_positional (p : Param) : bool :=
  match p_kind p with VAR_POSITIONAL => true | _ => false end.

Definition is_var_keyword (p : Param) : bool :=
  match p_kind p with VAR_KEYWORD => true | _ => false end.

(** The leading positional parameters: the ones positional arguments fill. *)
Fixpoint positional_prefix (sig : Signature) : Signature :=
  match sig with
  | [] => []
  | p :: rest => if is_positional p then p :: positional_prefix rest else []
  end.

(** Some parameter can take the keyword [k]. *)
Definition accepts_keyword (sig : Signature) (k : string) : bool :=
  existsb (fun p => negb (is_var p) && String.eqb (p_name p) k) sig.

Inductive invalid_binding (sig : Signature) (args : list value)
    (kwargs : dict) : Prop :=
| too_many_positional :
    existsb is_var_positional sig = false ->
    List.length (filter is_positional sig) < List.length args ->
    invalid_binding sig args kwargs
| unexpected_keyword (k : string) :
    dict_mem k kwargs = true ->
    existsb is_var_keyword sig = false ->
    accepts_keyword sig k = false ->
    invalid_binding sig args kwargs
| duplicated_argument (p : Param) :
    In p (firstn (List.length args) (positional_prefix sig)) ->
    dict_mem (p_name p) kwargs = true ->
    invalid_binding sig args kwargs.

(** The failures the interpreter raises for a call that cannot be bound,
    whatever further arguments would be supplied. *)
Definition is_invalid_call_error (e : exn) : bool :=
  match exc_type e, exc_value e with
  | TypeError, TooManyPositional _ _ _ => true
  | TypeError, MultipleValues _ _ => true
  | TypeError, UnexpectedKeyword _ _ => true
  | _, _ => false
  end.

(** The parameters that follow the leading positional ones. *)
Fixpoint after_prefix (sig : Signature) : Signature :=
  match sig with
  | [] => []
  | p :: rest => if is_positional p then after_prefix rest else sig
  end.

(** The positional arguments fit: they are no more than the leading
    positional parameters, or a var-positional parameter takes the rest. *)
Definition positional_fit (sig : Signature) (n : nat) : Prop :=
  n <= List.length (positional_prefix sig)
  \/ exists v tl, after_prefix sig = v :: tl /\ is_var_positional v = true.

(** ** The invocables a chain of positional calls is followed on

    A [def] function, or a method bound to an object: the object fills the
    first parameter of the function, out of the caller's sight. *)
Inductive target_of (fid : nat) : value -> list value -> Prop :=
| target_function : target_of fid (VFunction fid) []
| target_method (self : value) :
    target_of fid (VMethod self (VFunction fid)) [self].

(** The target of a curried value in a chain: [b] itself, then the partial
    objects of [b] with the arguments fed so far. *)
Definition chain_target (b : value) (acc : list value) (t : value) : Prop :=
  (acc = [] /\ t = b) \/ t = VPartial b acc [].

(** Calls that pass positional arguments only, group after group. *)
Definition positional (groups : list (list value))
  : list (list value * dict) :=
  map (fun g => (g, [])) groups.

(** ** Comparing the two settings of [wrap]

    Two outcomes agree up to the [wrap] flag when they are the same outcome,
    or the curried values of one partial object [fp] made with [wrap=True]
    and with [wrap=False]. *)
Inductive same_modulo_wrap : outcome value -> outcome value -> Prop :=
| smw_same (o : outcome value) : same_modulo_wrap o o
| smw_curried (fp : value) :
    same_modulo_wrap (Return (VWrapped fp (VCurryWrapped fp true)))
                     (Return (VCurryWrapped fp false)).

(** ** What a chain of calls has gathered

    A call of a curried [def] function is settled by what the interpreter
    makes of the arguments gathered so far.  [needs_more] holds when the
    interpreter rejects them only because required arguments are missing. *)

Definition needs_more (fd : fundef) (a : list value) (k : dict) : bool :=
  match py_bind fd a k with
  | Raise e => negb (is_invalid_call_error e)
  | Return _ => false
  end.

(** The arguments bound after further calls: the positional arguments in
    order, the keywords merged as [functools.partial] merges them. *)
Fixpoint gathered (a : list value) (k : dict)
    (calls : list (list value * dict)) : list value * dict :=
  match calls with
  | [] => (a, k)
  | (args, kwargs) :: rest => gathered (a ++ args) (dict_update k kwargs) rest
  end.

Definition gathered_calls (calls : list (list value * dict))
  : list value * dict :=
  match calls with
  | [] => ([], [])
  | (args, kwargs) :: rest => gathered args kwargs rest
  end.

(** The callables whose signature is the same with and without
    [skip_bound_arg], and that [functools.partial] does not flatten. *)
Definition unbound_callable (v : value) : bool :=
  match v with
  | VFunction _ | VBuiltin _ => true
  | _ => false
  end.

(** The default values of a list of parameters, in order. *)
Definition defaults_of (l : Signature) : list value :=
  flat_map (fun p => match p_default p with Some d => [d] | None => [] end) l.

(** * The decorators of [haskpy.utils]

    [decorator] and its subclasses [class_function], [class_property],
    [abstract_function] and [abstract_property], the functions
    [abstract_class_property] and [abstract_class_function], and the class
    [nonexisting_function].  An [object] is a value of the runtime or an
    instance of one of these classes: the field of a decorator is [f], the
    fields of [nonexisting_function] are [method] and [cls].  Instances and
    classes are values; [None] is [VNone]. *)

Inductive object : Type :=
| Plain (v : value)
| class_function (f : object)
| class_property (f : object)
| abstract_function (f : object)
| abstract_property (f : object)
| nonexisting_function (method : object) (cls : value).

(** [NotImplementedError] does not derive from [TypeError]. *)
Definition NotImplementedError : exc_class :=
  UserError "NotImplementedError" false.

(** The name of the type of a value as failures of attribute lookup print
    it: the one of [type_name], but for partial objects. *)
Definition qualified_type_name (v : value) : string :=
  match v with
  | VPartial _ _ _ => "functools.partial"
  | _ => type_name v
  end.

Definition object_type_name (o : object) : string :=
  match o with
  | Plain v => type_name v
  | class_function _ => "class_function"
  | class_property _ => "class_property"
  | abstract_function _ => "abstract_function"
  | abstract_property _ => "abstract_property"
  | nonexisting_function _ _ => "nonexisting_function"
  end.

(** ["'{0}' object has no attribute '{1}'".format(type, attribute)] *)
Definition attribute_error (type attribute : string) : exn :=
  mkExn AttributeError
    (Msg (String.append "'"
            (String.append type
               (String.append "' object has no attribute '"
                  (String.append attribute "'"))))).

(** ["'{0}' function is abstract".format(name)] *)
Definition abstract_error (name : string) : exn :=
  mkExn NotImplementedError
    (Msg (String.append "'" (String.append name "' function is abstract"))).

(** The two messages of [abstract_property.__get__], chosen by
    [obj is None]. *)
Definition abstract_attribute_error (name : string) (obj : value)
    (cname : string) : exn :=
  mkExn NotImplementedError
    (Msg (String.append "'"
            (String.append name
               (String.append
                  (match obj with
                   | VNone => "' attribute of type object '"
                   | _ => "' attribute of object '"
                   end)
                  (String.append cname "' is abstract"))))).

(** [v.__get__(obj, cls)] for a value of the runtime.  A function answers
    with itself when [obj] is [None] and with the method bound to [obj]
    otherwise; a bound method passes the question to its function; the
    other values have no [__get__]. *)
Fixpoint value_get (v obj cls : value) : outcome value :=
  match v with
  | VFunction _ | VCurryWrapped _ _ | VCurryNewWrapped _ _ =>
      match obj, cls with
      | VNone, VNone =>
          Raise (type_error (Msg "__get__(None, None) is invalid"))
      | VNone, _ => Return v
      | _, _ => Return (VMethod obj v)
      end
  | VMethod _ func => value_get func obj cls
  | _ => Raise (attribute_error (qualified_type_name v) "__get__")
  end.

Section Decorators.

Variable defs : nat -> fundef.
Variable body : nat -> dict -> outcome value.
Variable builtins : nat -> builtin.
Variable builtin_call : nat -> list value -> dict -> outcome value.

(** [type(cls)]: the metaclass of a class. *)
Variable type_of : value -> value.

(** [o.__name__].  A decorator carries the name it copied from [f] when it
    was made; an instance of [nonexisting_function] has none. *)
Fixpoint object_name (o : object) : outcome string :=
  match o with
  | Plain v => get_name defs builtins v
  | class_function f | class_property f
  | abstract_function f | abstract_property f => object_name f
  | nonexisting_function _ _ =>
      Raise (attribute_error "nonexisting_function" "__name__")
  end.

(** [decorator.__init__]: stores [f] and copies [f.__doc__], which every
    object has, and [f.__name__]. *)
Definition decorator (make : object -> object) (f : object)
  : outcome object :=
  _ <- object_name f ;;
  Return (make f).

Definition abstract_class_property (f : object) : outcome object :=
  g <- decorator class_function f ;;
  decorator abstract_property g.

Definition abstract_class_function (f : object) : outcome object :=
  g <- decorator class_function f ;;
  decorator abstract_function g.

(** [o( *args, **kwargs)]: [abstract_function.__call__] and
    [nonexisting_function.__call__]; the other decorators define no
    [__call__]. *)
Definition call_object (o : object) (args : list value) (kwargs : dict)
  : trace * outcome value :=
  match o with
  | Plain v => call defs body builtins builtin_call v args kwargs
  | abstract_function f =>
      ([], name <- object_name f ;; Raise (abstract_error name))
  | nonexisting_function method cls =>
      ([], name <- object_name method ;;
           match cls with
           | VNone =>
               Raise (type_error
                        (Msg (String.append "No "
                                (String.append name " function"))))
           | _ =>
               cname <- get_name defs builtins cls ;;
               Raise (type_error
                        (Msg (String.append "Class "
                                (String.append cname
                                   (String.append " has no "
                                      (String.append name " method"))))))
           end)
  | _ =>
      ([], Raise (type_error
                    (Msg (String.append "'"
                            (String.append (object_type_name o)
                               "' object is not callable")))))
  end.

(** The failure of [class_function] and [class_property] on an instance:
    the message is formatted with [cls.__name__] and [self.f.__name__]. *)
Definition no_instance_attribute (f : object) (cls : value)
  : outcome object :=
  cname <- get_name defs builtins cls ;;
  name <- object_name f ;;
  Raise (attribute_error cname name).

(** [o.__get__(obj, cls)], what reading the attribute from the class
    ([obj] is [None]) or from an instance calls. *)
Fixpoint descr_get (o : object) (obj cls : value) : trace * outcome object :=
  match o with
  | Plain v => ([], g <- value_get v obj cls ;; Return (Plain g))
  | class_function f =>
      match obj with
      | VNone => descr_get f cls (type_of cls)
      | _ => ([], no_instance_attribute f cls)
      end
  | class_property f =>
      match obj with
      | VNone =>
          match descr_get f obj cls with
          | (t, Raise e) => (t, Raise e)
          | (t, Return g) =>
              match call_object g [cls] [] with
              | (t', Raise e) => (t ++ t', Raise e)
              | (t', Return x) => (t ++ t', Return (Plain x))
              end
          end
      | _ => ([], no_instance_attribute f cls)
      end
  | abstract_function f =>
      match descr_get f obj cls with
      | (t, Raise e) => (t, Raise e)
      | (t, Return g) => (t, decorator abstract_function g)
      end
  | abstract_property f =>
      match descr_get f obj cls with
      | (t, Raise e) => (t, Raise e)
      | (t, Return _) =>
          (t, name <- object_name f ;;
              cname <- get_name defs builtins cls ;;
              Raise (abstract_attribute_error name obj cname))
      end
  | nonexisting_function method _ =>
      ([], Return (nonexisting_function method cls))
  end.

End Decorators.

(** * [memoize] ([haskpy/testing.py])

    The memory is a list of pairs in the order of insertion.  The memoized
    function may read and write a state of its own (a sampled function
    draws from the data of the test); [py_eq key x] is the truth value of
    [key == x], taken not to raise. *)

Section Memoize.

Variable State : Type.
Variable f : value -> State -> State * outcome value.
Variable py_eq : value -> value -> bool.

(** The loop of [__call__]: the value stored with the first key equal to
    [x]. *)
Fixpoint memory_lookup (memory : list (value * value)) (x : value)
  : option value :=
  match memory with
  | [] => None
  | (key, v) :: rest => if py_eq key x then Some v else memory_lookup rest x
  end.

(** [memoize.__call__(x)]: the memory and the state after the call, and
    its outcome. *)
Definition memoize_call (memory : list (value * value)) (s : State)
    (x : value) : list (value * value) * State * outcome value :=
  match memory_lookup memory x with
  | Some v => (memory, s, Return v)
  | None =>
      match f x s with
      | (s', Return y) => (memory ++ [(x, y)], s', Return y)
      | (s', Raise e) => (memory, s', Raise e)
      end
  end.

(** Calls one after the other, whatever their outcomes. *)
Fixpoint memoize_calls (memory : list (value * value)) (s : State)
    (xs : list value) : list (value * value) * State :=
  match xs with
  | [] => (memory, s)
  | x :: rest =>
      let '(memory', s', _) := memoize_call memory s x in
      memoize_calls memory' s' rest
  end.

(** No key of the memory is equal to a key stored after it. *)
Fixpoint memory_distinct (memory : list (value * value)) : bool :=
  match memory with
  | [] => true
  | (key, _) :: rest =>
      forallb (fun kv => negb (py_eq key (fst kv))) rest
      && memory_distinct rest
  end.

End Memoize.

(** * A small program used to run the definitions *)

Module Example.

Definition unsupported_operand : exn :=
  type_error (Msg "unsupported operand type(s)").

(** [def addThree(x, y, z): return x + y + z],
    [def divide(x, y): return x // y],
    [def checked(x, scale=1, *, strict=False)], which raises [ValueError]
    on a negative [x], and the function [def add(self, x, y): return x + y]
    of a class body. *)
Definition defs (f : nat) : fundef :=
  match f with
  | 0 => mkFundef "addThree" (Some "Add three numbers") "example"
           ["x"; "y"; "z"] [] None [] [] None
  | 1 => mkFundef "divide" None "example" ["x"; "y"] [] None [] [] None
  | 2 => mkFundef "checked" None "example" ["x"; "scale"] [VInt 1] None
           ["strict"] [("strict", VInt 0)] None
  | 3 => mkFundef "add" None "example" ["self"; "x"; "y"] [] None [] [] None
  | _ => mkFundef "nothing" None "example" [] [] None [] [] None
  end.

Definition body (f : nat) (env : dict) : outcome value :=
  match f with
  | 0 =>
      match dict_get "x" env, dict_get "y" env, dict_get "z" env with
      | Some (VInt x), Some (VInt y), Some (VInt z) =>
          Return (VInt (x + y + z))
      | _, _, _ => Raise unsupported_operand
      end
  | 1 =>
      match dict_get "x" env, dict_get "y" env with
      | Some (VInt x), Some (VInt y) =>
          if (y =? 0)%Z
          then Raise (mkExn ZeroDivisionError
                        (Msg "integer division or modulo by zero"))
          else Return (VInt (x / y))
      | _, _ => Raise unsupported_operand
      end
  | 2 =>
      match dict_get "x" env, dict_get "scale" env with
      | Some (VInt x), Some (VInt s) =>
          if (x <? 0)%Z then Raise (value_error "negative input")
          else Return (VInt (x * s))
      | _, _ => Raise unsupported_operand
      end
  | 3 =>
      match dict_get "x" env, dict_get "y" env with
      | Some (VInt x), Some (VInt y) => Return (VInt (x + y))
      | _, _ => Raise unsupported_operand
      end
  | _ => Return VNone
  end.

Definition builtins (b : nat) : builtin := mkBuiltin None None None None.

Definition builtin_call (b : nat) (args : list value) (kwargs : dict)
  : outcome value := Return VNone.

Definition class_doc (n : string) : option string :=
  if String.eqb n "partial"
  then Some "partial(func, *args, **keywords) - new function with partial application of the given arguments and keywords."
  else None.

Definition addThree : value := VFunction 0.
Definition divide : value := VFunction 1.
Definition checked : value := VFunction 2.

(** The method [add] bound to an instance (which has no state of interest):
    [adder.add]. *)
Definition adder : value := VNone.
Definition adder_add : value := VMethod adder (VFunction 3).

Definition call := call defs body builtins builtin_call.
Definition feed := feed defs body builtins builtin_call.
Definition signature := inspect_signature defs builtins.
Definition getfullargspec := getfullargspec defs builtins.
Definition get_name := get_name defs builtins.
Definition get_doc := get_doc defs builtins class_doc.
Definition get_module := get_module defs builtins.

(** [curry(f)] with the default [wrap=True], and [curry_new(f)]. *)
Definition curried (f : value) : value := VWrapped f (VCurryWrapped f true).
Definition curried_new (f : value) : value :=
  VWrapped f (VCurryNewWrapped f None).

(** [inspect.getfullargspec(addThree)], and the residual one of
    [partial(addThree, 1)]. *)
Definition addThree_spec : FullArgSpec :=
  mkFullArgSpec ["x"; "y"; "z"] None None None [] None [].
Definition addThree_1_spec : FullArgSpec :=
  mkFullArgSpec ["y"; "z"] None None None [] None [].

End Example.

(** * A class with an abstract method and a class function, and a sampled
    function *)

Module Classes.

(** [def append(self, x)], whose body is only its docstring, and
    [def describe(cls): return cls]. *)
Definition defs (f : nat) : fundef :=
  match f with
  | 0 => mkFundef "append" (Some "m -> m -> m") "example" ["self"; "x"] []
           None [] [] None
  | _ => mkFundef "describe" None "example" ["cls"] [] None [] [] None
  end.

Definition body (f : nat) (env : dict) : outcome value :=
  match f with
  | 0 => Return VNone
  | _ =>
      match dict_get "cls" env with
      | Some c => Return c
      | None => Return VNone
      end
  end.

(** The class [Semigroup] and its metaclass [type], as opaque callables
    with a name. *)
Definition builtins (b : nat) : builtin :=
  match b with
  | 0 => mkBuiltin (Some "Semigroup") None (Some "example") None
  | _ => mkBuiltin (Some "type") None (Some "builtins") None
  end.

Definition builtin_call (b : nat) (args : list value) (kwargs : dict)
  : outcome value := Return VNone.

Definition Semigroup : value := VBuiltin 0.
Definition type_of (v : value) : value := VBuiltin 1.

(** An instance of the class: any value that is not [None]. *)
Definition instance : value := VStr "a value of the class".

Definition append : object := Plain (VFunction 0).
Definition describe : object := Plain (VFunction 1).

Definition call := call defs body builtins builtin_call.
Definition get_name := get_name defs builtins.
Definition object_name := object_name defs builtins.
Definition call_object := call_object defs body builtins builtin_call.
Definition descr_get := descr_get defs body builtins builtin_call type_of.

(** A function that returns the number of calls made so far, and the
    equality of integers. *)
Definition counter (x : value) (s : nat) : nat * outcome value :=
  (S s, Return (VInt (Z.of_nat s))).

Definition int_eq (a b : value) : bool :=
  match a, b with
  | VInt x, VInt y => (x =? y)%Z
  | _, _ => false
  end.

Definition memoize_call := memoize_call nat counter int_eq.
Definition memoize_calls := memoize_calls nat counter int_eq.
Definition memory_distinct := memory_distinct int_eq.

End Classes.

(** * Properties of the runtime model *)

(** ** Dictionaries *)

Lemma dict_mem_cons (k k' : string) (v : value) (d : dict) :
  dict_mem k ((k', v) :: d) = String.eqb k k' || dict_mem k d.
Proof. unfold dict_mem. simpl. destruct (String.eqb k k'); reflexivity. Qed.

Lemma dict_get_set_same (d : dict) (k : string) (v : value) :
  dict_get k (dict_set d k v) = Some v.
Proof.
  induction d as [| [k' v'] d IH]; simpl.
  - rewrite String.eqb_refl. reflexivity.
  - destruct (String.eqb k k') eqn:E; simpl; rewrite E; [reflexivity | exact IH].
Qed.

Lemma dict_get_set_other (d : dict) (k k0 : string) (v : value) :
  String.eqb k0 k = false ->
  dict_get k0 (dict_set d k v) = dict_get k0 d.
Proof.
  intros Hne. induction d as [| [k' v'] d IH]; simpl.
  - rewrite Hne. reflexivity.
  - destruct (String.eqb k k') eqn:E; simpl.
    + apply String.eqb_eq in E. subst k'. rewrite Hne. reflexivity.
    + destruct (String.eqb k0 k'); [reflexivity | exact IH].
Qed.

Lemma dict_mem_set (d : dict) (k k0 : string) (v : value) :
  dict_mem k0 (dict_set d k v) = String.eqb k0 k || dict_mem k0 d.
Proof.
  unfold dict_mem. destruct (String.eqb k0 k) eqn:E.
  - apply String.eqb_eq in E. subst. rewrite dict_get_set_same. reflexivity.
  - rewrite dict_get_set_other by exact E. reflexivity.
Qed.

Lemma dict_get_pop (d : dict) (n k : string) :
  dict_get k (dict_pop n d) = if String.eqb n k then None else dict_get k d.
Proof.
  induction d as [| [k' v'] d IH]; simpl.
  - destruct (String.eqb n k); reflexivity.
  - destruct (String.eqb n k') eqn:E; simpl.
    + apply String.eqb_eq in E. subst k'. rewrite IH.
      rewrite (String.eqb_sym k n). destruct (String.eqb n k); reflexivity.
    + rewrite IH. destruct (String.eqb k k') eqn:E'; [| reflexivity].
      apply String.eqb_eq in E'. subst k'. rewrite E. reflexivity.
Qed.

Lemma dict_mem_pop (d : dict) (n k : string) :
  dict_mem k (dict_pop n d) = negb (String.eqb n k) && dict_mem k d.
Proof.
  unfold dict_mem. rewrite dict_get_pop. destruct (String.eqb n k); reflexivity.
Qed.

(** ** Bindings that [bind_partial] rejects *)

Lemma bind_positional_too_many (partial : bool) (kwargs : dict)
    (args : list value) :
  forall (params : Signature) (arguments : dict),
    existsb is_var_positional params = false ->
    List.length (filter is_positional params) < List.length args ->
    exists e, bind_positional partial params args kwargs arguments = Raise e.
Proof.
  induction args as [| a args IH]; intros params arguments Hv Hlen.
  - simpl in Hlen. lia.
  - destruct params as [| p ps]; simpl; [eexists; reflexivity |].
    simpl in Hv, Hlen. unfold is_var_positional, is_positional in *.
    destruct (p_kind p); simpl in *; try discriminate;
      try (eexists; reflexivity).
    destruct (dict_mem (p_name p) kwargs); [eexists; reflexivity |].
    apply IH; [exact Hv | lia].
Qed.

Lemma bind_positional_duplicate (partial : bool) (kwargs : dict) (p : Param)
    (args : list value) :
  forall (params : Signature) (arguments : dict),
    In p (firstn (List.length args) (positional_prefix params)) ->
    dict_mem (p_name p) kwargs = true ->
    exists e, bind_positional partial params args kwargs arguments = Raise e.
Proof.
  induction args as [| a args IH]; intros params arguments Hin Hk.
  - simpl in Hin. contradiction.
  - destruct params as [| q ps]; simpl in *; [contradiction |].
    unfold is_positional in Hin.
    destruct (p_kind q); simpl in Hin; try contradiction.
    destruct Hin as [-> | Hin].
    + rewrite Hk. eexists; reflexivity.
    + destruct (dict_mem (p_name q) kwargs); [eexists; reflexivity |].
      apply IH; assumption.
Qed.

(** The parameters handed over to the keyword loop are a suffix of the
    signature. *)
Lemma bind_positional_rest (partial : bool) (kwargs : dict)
    (args : list value) :
  forall (params : Signature) (arguments arguments' : dict)
         (rest : Signature),
    bind_positional partial params args kwargs arguments
    = Return (arguments', rest) ->
    exists consumed, params = consumed ++ rest.
Proof.
  induction args as [| a args IH]; intros params arguments arguments' rest H.
  - destruct params as [| p ps]; simpl in H.
    + inversion H. exists []. reflexivity.
    + destruct (p_kind p) eqn:K;
        try (inversion H; exists [p]; reflexivity);
        destruct (dict_mem (p_name p) kwargs);
        try (inversion H; exists []; reflexivity);
        simpl in H; destruct (has_default p); simpl in H;
        try (inversion H; exists []; reflexivity);
        destruct partial; try discriminate;
        inversion H; exists []; reflexivity.
  - destruct params as [| p ps]; simpl in H; [discriminate |].
    destruct (p_kind p) eqn:K; try discriminate.
    + destruct (dict_mem (p_name p) kwargs); [discriminate |].
      apply IH in H. destruct H as [c ->]. exists (p :: c). reflexivity.
    + inversion H. exists [p]. reflexivity.
Qed.

Lemma bind_keywords_unplaced (partial : bool) (k : string) :
  forall (params : Signature) (kwargs arguments arguments' remaining : dict)
         (kp kp' : option Param),
    bind_keywords partial params kwargs arguments kp
    = Return (arguments', remaining, kp') ->
    dict_mem k kwargs = true ->
    accepts_keyword params k = false ->
    dict_mem k remaining = true.
Proof.
  induction params as [| p ps IH];
    intros kwargs arguments arguments' remaining kp kp' H Hk Hacc.
  - simpl in H. inversion H. subst. exact Hk.
  - simpl in H. unfold accepts_keyword in Hacc. simpl in Hacc.
    apply orb_false_iff in Hacc. destruct Hacc as [Hp Hps].
    unfold is_var in Hp.
    destruct (p_kind p) eqn:K; simpl in Hp;
      try (eapply IH; eauto; fail).
    + destruct (dict_get (p_name p) kwargs).
      * eapply IH; eauto. rewrite dict_mem_pop, Hp, Hk. reflexivity.
      * destruct (negb partial && negb (has_default p)); [discriminate |].
        eapply IH; eauto.
    + destruct (dict_get (p_name p) kwargs).
      * eapply IH; eauto. rewrite dict_mem_pop, Hp, Hk. reflexivity.
      * destruct (negb partial && negb (has_default p)); [discriminate |].
        eapply IH; eauto.
Qed.

Lemma bind_keywords_no_var_keyword (partial : bool) :
  forall (params : Signature) (kwargs arguments arguments' remaining : dict)
         (kp kp' : option Param),
    bind_keywords partial params kwargs arguments kp
    = Return (arguments', remaining, kp') ->
    existsb is_var_keyword params = false ->
    kp' = kp.
Proof.
  induction params as [| p ps IH];
    intros kwargs arguments arguments' remaining kp kp' H Hv.
  - simpl in H. inversion H. reflexivity.
  - simpl in H, Hv. unfold is_var_keyword in Hv at 1.
    destruct (p_kind p) eqn:K; simpl in Hv; try discriminate;
      try (eapply IH; eauto; fail);
      (destruct (dict_get (p_name p) kwargs);
       [eapply IH; eauto
       | destruct (negb partial && negb (has_default p));
         [discriminate | eapply IH; eauto]]).
Qed.

Lemma existsb_suffix {A : Type} (f : A -> bool) (l1 l2 : list A) :
  existsb f (l1 ++ l2) = false -> existsb f l2 = false.
Proof. rewrite existsb_app. intros H. apply orb_false_iff in H. tauto. Qed.

(** [bind_partial] raises on an invalid binding. *)
Lemma sig_bind_invalid (partial : bool) (sig : Signature) (args : list value)
    (kwargs : dict) :
  invalid_binding sig args kwargs ->
  exists e, sig_bind partial sig args kwargs = Raise e.
Proof.
  intros [Hv Hlen | k Hk Hv Hacc | p Hin Hk]; unfold sig_bind.
  - destruct (bind_positional_too_many partial kwargs args sig [] Hv Hlen)
      as [e ->]. eexists; reflexivity.
  - destruct (bind_positional partial sig args kwargs [])
      as [[arguments rest] | e] eqn:Hpos; simpl; [| eexists; reflexivity].
    destruct (bind_positional_rest _ _ _ _ _ _ _ Hpos) as [consumed ->].
    destruct (bind_keywords partial rest kwargs arguments None)
      as [[[arguments' remaining] kp'] | e] eqn:Hkw; simpl;
      [| eexists; reflexivity].
    assert (Hrem : dict_mem k remaining = true).
    { eapply bind_keywords_unplaced; eauto.
      eapply existsb_suffix. exact Hacc. }
    assert (kp' = None).
    { eapply bind_keywords_no_var_keyword; eauto.
      eapply existsb_suffix. exact Hv. }
    subst kp'. destruct remaining as [| [k0 v0] rem'];
      [discriminate Hrem | eexists; reflexivity].
  - destruct (bind_positional_duplicate partial kwargs p args sig [] Hin Hk)
      as [e ->]. eexists; reflexivity.
Qed.

(** ** The signature of a [def] function *)

Lemma positional_parameters_kind (fd : fundef) (names : list string) :
  forall i, forallb is_positional (positional_parameters fd i names) = true.
Proof. induction names as [| n names IH]; intros i; simpl; auto. Qed.

Lemma positional_parameters_names (fd : fundef) (names : list string) :
  forall i, map p_name (positional_parameters fd i names) = names.
Proof.
  induction names as [| n names IH]; intros i; simpl; [| rewrite IH];
    reflexivity.
Qed.

Lemma positional_parameters_length (fd : fundef) (names : list string) :
  forall i, List.length (positional_parameters fd i names) = List.length names.
Proof.
  intros i. rewrite <- (positional_parameters_names fd names i) at 2.
  rewrite length_map. reflexivity.
Qed.

Lemma filter_all {A : Type} (f : A -> bool) (l : list A) :
  forallb f l = true -> filter f l = l.
Proof.
  induction l as [| x l IH]; simpl; [reflexivity |].
  intros H. apply andb_true_iff in H. destruct H as [-> H].
  rewrite IH by exact H. reflexivity.
Qed.

Lemma filter_none {A : Type} (f : A -> bool) (l : list A) :
  existsb f l = false -> filter f l = [].
Proof.
  induction l as [| x l IH]; simpl; [reflexivity |].
  intros H. apply orb_false_iff in H. destruct H as [-> H]. exact (IH H).
Qed.

Lemma signature_tail_not_positional (fd : fundef) :
  existsb is_positional (signature_tail fd) = false.
Proof.
  unfold signature_tail. rewrite !existsb_app.
  destruct (fn_varargs fd), (fn_varkw fd); simpl;
    induction (fn_kwonlyargs fd); simpl; auto.
Qed.

Lemma signature_positional_count (fd : fundef) :
  List.length (filter is_positional (signature_from_function fd))
  = List.length (fn_args fd).
Proof.
  unfold signature_from_function. fold (signature_tail fd).
  rewrite filter_app, (filter_none _ _ (signature_tail_not_positional fd)).
  rewrite app_nil_r, filter_all by apply positional_parameters_kind.
  apply positional_parameters_length.
Qed.

Lemma positional_prefix_app (l1 l2 : Signature) :
  forallb is_positional l1 = true ->
  existsb is_positional l2 = false ->
  positional_prefix (l1 ++ l2) = l1.
Proof.
  intros H1 H2. induction l1 as [| p l1 IH]; simpl.
  - destruct l2 as [| q l2]; simpl; [reflexivity |].
    simpl in H2. apply orb_false_iff in H2. destruct H2 as [-> _].
    reflexivity.
  - simpl in H1. apply andb_true_iff in H1. destruct H1 as [Hp H1].
    rewrite Hp, IH by exact H1. reflexivity.
Qed.

Lemma signature_positional_prefix (fd : fundef) :
  positional_prefix (signature_from_function fd)
  = positional_parameters fd 0 (fn_args fd).
Proof.
  unfold signature_from_function. fold (signature_tail fd).
  apply positional_prefix_app.
  - apply positional_parameters_kind.
  - apply signature_tail_not_positional.
Qed.

Lemma signature_var_positional (fd : fundef) :
  existsb is_var_positional (signature_from_function fd) = false ->
  fn_varargs fd = None.
Proof.
  unfold signature_from_function. rewrite !existsb_app.
  destruct (fn_varargs fd); simpl; [| reflexivity].
  rewrite orb_true_r. discriminate.
Qed.

Lemma signature_var_keyword (fd : fundef) :
  existsb is_var_keyword (signature_from_function fd) = false ->
  fn_varkw fd = None.
Proof.
  unfold signature_from_function. rewrite !existsb_app.
  destruct (fn_varkw fd); simpl; [| reflexivity].
  rewrite !orb_true_r. discriminate.
Qed.

Lemma mem_string_app (k : string) (l1 l2 : list string) :
  mem_string k (l1 ++ l2) = mem_string k l1 || mem_string k l2.
Proof. apply existsb_app. Qed.

Lemma mem_string_In (k : string) (l : list string) :
  mem_string k l = true <-> In k l.
Proof.
  unfold mem_string. rewrite existsb_exists. split.
  - intros [x [Hin Heq]]. apply String.eqb_eq in Heq. subst. exact Hin.
  - intros Hin. exists k. split; [exact Hin | apply String.eqb_refl].
Qed.

Lemma accepts_keyword_names (sig : Signature) (k : string) :
  accepts_keyword sig k = false ->
  mem_string k (map p_name (filter (fun p => negb (is_var p)) sig)) = false.
Proof.
  unfold accepts_keyword, mem_string.
  induction sig as [| p sig IH]; simpl; [reflexivity |].
  intros H. apply orb_false_iff in H. destruct H as [Hp H].
  destruct (negb (is_var p)); simpl in *.
  - rewrite (String.eqb_sym k (p_name p)), Hp. exact (IH H).
  - exact (IH H).
Qed.

Lemma signature_named_parameters (fd : fundef) :
  map p_name (filter (fun p => negb (is_var p)) (signature_from_function fd))
  = fn_args fd ++ fn_kwonlyargs fd.
Proof.
  unfold signature_from_function. rewrite !filter_app, !map_app.
  rewrite (filter_all _ (positional_parameters fd 0 (fn_args fd))).
  - rewrite positional_parameters_names. f_equal.
    assert (Hkw : forall l,
               map p_name
                 (filter (fun p => negb (is_var p))
                    (map (fun n => mkParam n KEYWORD_ONLY
                                     (dict_get n (fn_kwdefaults fd))) l))
               = l).
    { induction l as [| n l IH]; simpl; [| rewrite IH]; reflexivity. }
    rewrite Hkw. destruct (fn_varargs fd), (fn_varkw fd); simpl;
      rewrite ?app_nil_r; reflexivity.
  - generalize 0. induction (fn_args fd); intros i; simpl; auto.
Qed.

Lemma signature_accepts_keyword (fd : fundef) (k : string) :
  accepts_keyword (signature_from_function fd) k = false ->
  mem_string k (fn_args fd ++ fn_kwonlyargs fd) = false.
Proof.
  intros H. apply accepts_keyword_names in H.
  rewrite signature_named_parameters in H. exact H.
Qed.

Lemma positional_parameters_firstn (fd : fundef) (p : Param)
    (names : list string) :
  forall n i,
    In p (firstn n (positional_parameters fd i names)) ->
    In (p_name p) (firstn n names).
Proof.
  induction names as [| x names IH]; intros n i Hin.
  - destruct n; simpl in Hin; contradiction.
  - destruct n; simpl in *; [contradiction |].
    destruct Hin as [<- | Hin]; [left; reflexivity | right; eauto].
Qed.

Lemma In_firstn {A : Type} (x : A) (l : list A) :
  forall n, In x (firstn n l) -> In x l.
Proof.
  induction l as [| y l IH]; intros [| n] H; simpl in *; try contradiction.
  destruct H as [-> | H]; [left; reflexivity | right; eauto].
Qed.

(** ** Calls the interpreter rejects *)

Lemma check_keywords_invalid (fd : fundef) (npos : nat) (kwargs : dict)
    (e : exn) :
  check_keywords fd npos kwargs = Some e -> is_invalid_call_error e = true.
Proof.
  induction kwargs as [| [k v] kwargs IH]; simpl; [discriminate |].
  destruct (mem_string k (fn_args fd ++ fn_kwonlyargs fd)).
  - destruct (mem_string k (firstn npos (fn_args fd))); [| exact IH].
    intros H. inversion H. reflexivity.
  - destruct (fn_varkw fd); [exact IH |].
    intros H. inversion H. reflexivity.
Qed.

Lemma check_keywords_placed (fd : fundef) (npos : nat) (kwargs : dict)
    (k : string) :
  check_keywords fd npos kwargs = None ->
  dict_mem k kwargs = true ->
  (mem_string k (fn_args fd ++ fn_kwonlyargs fd) = true
   /\ mem_string k (firstn npos (fn_args fd)) = false)
  \/ (mem_string k (fn_args fd ++ fn_kwonlyargs fd) = false
      /\ fn_varkw fd <> None).
Proof.
  induction kwargs as [| [k' v] kwargs IH]; simpl; [discriminate |].
  intros Hc Hk. rewrite dict_mem_cons in Hk.
  destruct (String.eqb k k') eqn:E.
  - apply String.eqb_eq in E. subst k'.
    destruct (mem_string k (fn_args fd ++ fn_kwonlyargs fd)).
    + destruct (mem_string k (firstn npos (fn_args fd)));
        [discriminate | left; split; reflexivity].
    + destruct (fn_varkw fd); [| discriminate].
      right. split; [reflexivity | discriminate].
  - simpl in Hk.
    destruct (mem_string k' (fn_args fd ++ fn_kwonlyargs fd)).
    + destruct (mem_string k' (firstn npos (fn_args fd)));
        [discriminate | exact (IH Hc Hk)].
    + destruct (fn_varkw fd); [exact (IH Hc Hk) | discriminate].
Qed.

(** The interpreter rejects what [invalid_binding] describes, with one of
    the three failures of an invalid call. *)
Lemma py_bind_invalid (fd : fundef) (args : list value) (kwargs : dict) :
  invalid_binding (signature_from_function fd) args kwargs ->
  exists e, py_bind fd args kwargs = Raise e
            /\ is_invalid_call_error e = true.
Proof.
  intros Hinv. unfold py_bind.
  destruct (check_keywords fd (List.length args) kwargs) as [e |] eqn:Hck.
  - exists e. split; [reflexivity | eapply check_keywords_invalid; eauto].
  - destruct Hinv as [Hv Hlen | k Hk Hv Hacc | p Hin Hk].
    + rewrite (signature_var_positional _ Hv).
      rewrite signature_positional_count in Hlen.
      apply Nat.ltb_lt in Hlen. rewrite Hlen. simpl.
      eexists. split; reflexivity.
    + exfalso. apply signature_accepts_keyword in Hacc.
      apply signature_var_keyword in Hv.
      destruct (check_keywords_placed _ _ _ _ Hck Hk) as [[H _] | [_ H]];
        congruence.
    + exfalso. rewrite signature_positional_prefix in Hin.
      apply positional_parameters_firstn in Hin.
      apply mem_string_In in Hin.
      destruct (check_keywords_placed _ _ _ _ Hck Hk) as [[_ H] | [H _]].
      * congruence.
      * rewrite mem_string_app in H. apply orb_false_iff in H.
        destruct H as [H _]. apply mem_string_In in Hin.
        apply In_firstn in Hin. apply mem_string_In in Hin. congruence.
Qed.

(** ** [bind] and [bind_partial]

    A binding that [Signature.bind] accepts is accepted by [bind_partial],
    with the same arguments. *)

Lemma bind_positional_full_partial (kwargs : dict) (args : list value) :
  forall (params : Signature) (arguments : dict) r,
    bind_positional false params args kwargs arguments = Return r ->
    bind_positional true params args kwargs arguments = Return r.
Proof.
  induction args as [| a args IH]; intros params arguments r H.
  - destruct params as [| p ps]; simpl in *; [exact H |].
    destruct (p_kind p); try exact H;
      destruct (dict_mem (p_name p) kwargs); try exact H;
      simpl in *; destruct (has_default p); simpl in *;
      try exact H; discriminate H.
  - destruct params as [| p ps]; simpl in *; [exact H |].
    destruct (p_kind p); try exact H.
    destruct (dict_mem (p_name p) kwargs); [exact H | apply IH; exact H].
Qed.

Lemma bind_keywords_full_partial :
  forall (params : Signature) (kwargs arguments : dict) kp r,
    bind_keywords false params kwargs arguments kp = Return r ->
    bind_keywords true params kwargs arguments kp = Return r.
Proof.
  induction params as [| p ps IH]; intros kwargs arguments kp r H;
    simpl in *; [exact H |].
  destruct (p_kind p); try (apply IH; exact H);
    (destruct (dict_get (p_name p) kwargs); [apply IH; exact H |];
     simpl in *; destruct (negb (has_default p));
     [discriminate H | apply IH; exact H]).
Qed.

Lemma sig_bind_full_partial (sig : Signature) (args : list value)
    (kwargs arguments : dict) :
  sig_bind false sig args kwargs = Return arguments ->
  sig_bind true sig args kwargs = Return arguments.
Proof.
  unfold sig_bind. intros H.
  destruct (bind_positional false sig args kwargs [])
    as [[a1 rest] | e] eqn:Hpos; simpl in H; [| discriminate H].
  rewrite (bind_positional_full_partial _ _ _ _ _ Hpos). simpl.
  destruct (bind_keywords false rest kwargs a1 None)
    as [[[a2 remaining] kp] | e] eqn:Hkw; simpl in H; [| discriminate H].
  rewrite (bind_keywords_full_partial _ _ _ _ _ Hkw). simpl. exact H.
Qed.

(** What a successful binding leaves: every parameter of the signature is
    bound, or is a var parameter, or (for [bind]) has a default. *)

Lemma bind_positional_bound (partial : bool) (kwargs : dict)
    (args : list value) :
  forall (params : Signature) (arguments arguments' : dict)
         (rest : Signature),
    bind_positional partial params args kwargs arguments
    = Return (arguments', rest) ->
    (forall n, dict_mem n arguments = true -> dict_mem n arguments' = true)
    /\ forall q, In q params ->
         In q rest \/ is_var q = true
         \/ dict_mem (p_name q) arguments' = true.
Proof.
  induction args as [| a args IH]; intros params arguments arguments' rest H.
  - destruct params as [| p ps]; simpl in H.
    + inversion H. subst. split; [auto | intros q []].
    + assert (Hkeep : Return (arguments, p :: ps)
                      = Return (arguments', rest) ->
                      (forall n, dict_mem n arguments = true ->
                                 dict_mem n arguments' = true)
                      /\ forall q, In q (p :: ps) ->
                           In q rest \/ is_var q = true
                           \/ dict_mem (p_name q) arguments' = true).
      { intros E. inversion E. subst. split; [auto | intros q Hq; auto]. }
      destruct (p_kind p) eqn:K.
      * destruct (dict_mem (p_name p) kwargs); [auto |].
        simpl in H. destruct (has_default p); simpl in H; [auto |].
        destruct partial; [auto | discriminate H].
      * inversion H. subst. split; [auto |].
        intros q [<- | Hq]; [| auto].
        right. left. unfold is_var. rewrite K. reflexivity.
      * destruct (dict_mem (p_name p) kwargs); [auto |].
        simpl in H. destruct (has_default p); simpl in H; [auto |].
        destruct partial; [auto | discriminate H].
      * destruct (dict_mem (p_name p) kwargs); [auto |].
        simpl in H. auto.
  - destruct params as [| p ps]; simpl in H; [discriminate H |].
    destruct (p_kind p) eqn:K; try discriminate H.
    + destruct (dict_mem (p_name p) kwargs); [discriminate H |].
      apply IH in H. destruct H as [Hmono Hq]. split.
      * intros n Hn. apply Hmono. rewrite dict_mem_set, Hn.
        apply orb_true_r.
      * intros q [<- | Hin]; [| auto].
        right. right. apply Hmono. rewrite dict_mem_set, String.eqb_refl.
        reflexivity.
    + inversion H. subst. split.
      * intros n Hn. rewrite dict_mem_set, Hn. apply orb_true_r.
      * intros q [<- | Hin]; [| auto].
        right. left. unfold is_var. rewrite K. reflexivity.
Qed.

Lemma bind_keywords_bound :
  forall (params : Signature) (kwargs arguments arguments' remaining : dict)
         (kp kp' : option Param),
    bind_keywords false params kwargs arguments kp
    = Return (arguments', remaining, kp') ->
    (forall n, dict_mem n arguments = true -> dict_mem n arguments' = true)
    /\ forall q, In q params ->
         is_var q = true \/ dict_mem (p_name q) arguments' = true
         \/ has_default q = true.
Proof.
  induction params as [| p ps IH];
    intros kwargs arguments arguments' remaining kp kp' H; simpl in H.
  - inversion H. subst. split; [auto | intros q []].
  - assert (Hvar : is_var p = true ->
                   forall kp0,
                     bind_keywords false ps kwargs arguments kp0
                     = Return (arguments', remaining, kp') ->
                     (forall n, dict_mem n arguments = true ->
                                dict_mem n arguments' = true)
                     /\ forall q, In q (p :: ps) ->
                          is_var q = true
                          \/ dict_mem (p_name q) arguments' = true
                          \/ has_default q = true).
    { intros Hv kp0 H0. apply IH in H0. destruct H0 as [Hmono Hq].
      split; [exact Hmono |]. intros q [<- | Hin]; auto. }
    assert (Hnamed :
              match dict_get (p_name p) kwargs with
              | Some arg_val =>
                  bind_keywords false ps (dict_pop (p_name p) kwargs)
                    (dict_set arguments (p_name p) arg_val) kp
              | None =>
                  if negb false && negb (has_default p)
                  then Raise (bind_error "missing a required argument")
                  else bind_keywords false ps kwargs arguments kp
              end = Return (arguments', remaining, kp') ->
              (forall n, dict_mem n arguments = true ->
                         dict_mem n arguments' = true)
              /\ forall q, In q (p :: ps) ->
                   is_var q = true
                   \/ dict_mem (p_name q) arguments' = true
                   \/ has_default q = true).
    { intros H0. destruct (dict_get (p_name p) kwargs) as [v |].
      - apply IH in H0. destruct H0 as [Hmono Hq]. split.
        + intros n Hn. apply Hmono. rewrite dict_mem_set, Hn.
          apply orb_true_r.
        + intros q [<- | Hin]; [| auto].
          right. left. apply Hmono.
          rewrite dict_mem_set, String.eqb_refl. reflexivity.
      - simpl in H0. destruct (has_default p) eqn:D; simpl in H0;
          [| discriminate H0].
        apply IH in H0. destruct H0 as [Hmono Hq].
        split; [exact Hmono |]. intros q [<- | Hin]; auto. }
    destruct (p_kind p) eqn:K.
    + apply Hnamed. exact H.
    + eapply Hvar; [unfold is_var; rewrite K; reflexivity | exact H].
    + apply Hnamed. exact H.
    + eapply Hvar; [unfold is_var; rewrite K; reflexivity | exact H].
Qed.

(** After [Signature.bind], a parameter that is not bound has a default. *)
Lemma sig_bind_full_bound (sig : Signature) (args : list value)
    (kwargs arguments : dict) :
  sig_bind false sig args kwargs = Return arguments ->
  forall q, In q sig ->
    is_var q = true \/ dict_mem (p_name q) arguments = true
    \/ has_default q = true.
Proof.
  unfold sig_bind. intros H q Hq.
  destruct (bind_positional false sig args kwargs [])
    as [[a1 rest] | e] eqn:Hpos; simpl in H; [| discriminate H].
  destruct (bind_keywords false rest kwargs a1 None)
    as [[[a2 remaining] kp] | e] eqn:Hkw; simpl in H; [| discriminate H].
  destruct (bind_positional_bound _ _ _ _ _ _ _ Hpos) as [_ Hp].
  destruct (bind_keywords_bound _ _ _ _ _ _ _ Hkw) as [Hmono Hk].
  assert (Hfinal : forall n, dict_mem n a2 = true ->
                             dict_mem n arguments = true).
  { intros n Hn. destruct remaining as [| [k0 v0] rem'].
    - inversion H. subst. exact Hn.
    - destruct kp as [p |]; [| discriminate H]. inversion H. subst.
      rewrite dict_mem_set, Hn. apply orb_true_r. }
  destruct (Hp q Hq) as [Hrest | [Hv | Hb]].
  - destruct (Hk q Hrest) as [Hv | [Hb | Hd]]; auto.
  - auto.
  - auto.
Qed.

(** ** The loop of [_signature_get_partial] *)

Lemma In_params_pop (n : string) (l : Signature) (r : Param) :
  In r (params_pop n l) <-> In r l /\ String.eqb n (p_name r) = false.
Proof.
  unfold params_pop. rewrite filter_In, negb_true_iff. reflexivity.
Qed.

Lemma In_params_move_to_end (n : string) (l : Signature) (r : Param) :
  In r (params_move_to_end n l) <-> In r l.
Proof.
  unfold params_move_to_end. rewrite in_app_iff, !filter_In, negb_true_iff.
  destruct (String.eqb n (p_name r)); intuition discriminate.
Qed.

Lemma In_params_update (n : string) (f : Param -> Param) (l : Signature)
    (r' : Param) :
  In r' (params_update n f l)
  <-> exists r, In r l /\ r' = if String.eqb n (p_name r) then f r else r.
Proof.
  unfold params_update. rewrite in_map_iff. split.
  - intros [r [E Hin]]. exists r. split; [exact Hin | symmetry; exact E].
  - intros [r [Hin E]]. exists r. split; [symmetry; exact E | exact Hin].
Qed.

(** An update under the name [m] leaves the entries of other names. *)
Lemma In_params_update_other (m : string) (f : Param -> Param)
    (l : Signature) (r : Param) :
  (forall x, p_name x = m -> p_name (f x) = m) ->
  String.eqb m (p_name r) = false ->
  In r (params_update m f l) <-> In r l.
Proof.
  intros Hf Hne. rewrite In_params_update. split.
  - intros [r0 [Hin E]]. destruct (String.eqb m (p_name r0)) eqn:E0.
    + apply String.eqb_eq in E0. subst r.
      rewrite (Hf r0 (eq_sym E0)), String.eqb_refl in Hne. discriminate.
    + subst. exact Hin.
  - intros Hin. exists r. rewrite Hne. split; [exact Hin | reflexivity].
Qed.

(** An update under the name [m] when [cur] is the only entry of that name. *)
Lemma In_params_update_self (m : string) (f : Param -> Param)
    (l : Signature) (cur r' : Param) :
  (forall r, In r l -> p_name r = m -> r = cur) ->
  p_name cur = m ->
  p_name r' = m ->
  In r' (params_update m f l) <-> In cur l /\ r' = f cur.
Proof.
  intros Honly Hcur Hr'. rewrite In_params_update. split.
  - intros [r0 [Hin E]]. destruct (String.eqb m (p_name r0)) eqn:E0.
    + apply String.eqb_eq in E0.
      assert (E1 : r0 = cur) by (apply Honly; auto).
      subst r0. split; assumption.
    + subst r'. rewrite Hr', String.eqb_refl in E0. discriminate.
  - intros [Hin ->]. exists cur.
    rewrite Hcur, String.eqb_refl. split; [exact Hin | reflexivity].
Qed.

Lemma replace_kind_name (k : param_kind) (m : string) (x : Param) :
  p_name x = m -> p_name (replace_kind k x) = m.
Proof. intros H. exact H. Qed.

Lemma transform_step_other (tr : bool) (p r : Param) (l : Signature) :
  String.eqb (p_name p) (p_name r) = false ->
  In r (transform_step tr p l) <-> In r l.
Proof.
  intros Hne. unfold transform_step. destruct tr; [| reflexivity].
  destruct (p_kind p).
  - rewrite In_params_move_to_end.
    apply In_params_update_other; [apply replace_kind_name | exact Hne].
  - rewrite In_params_pop. tauto.
  - apply In_params_move_to_end.
  - apply In_params_move_to_end.
Qed.

Lemma transform_step_self (tr : bool) (p cur r' : Param) (l : Signature) :
  (forall r, In r l -> p_name r = p_name p -> r = cur) ->
  p_name cur = p_name p ->
  p_name r' = p_name p ->
  In r' (transform_step tr p l)
  <-> In cur l /\ transform_result tr p cur = Some r'.
Proof.
  intros Honly Hcur Hr'. unfold transform_step, transform_result.
  assert (Hsame : In r' l <-> In cur l /\ Some cur = Some r').
  { split.
    - intros Hin. assert (E : r' = cur) by (apply Honly; auto).
      subst r'. split; [exact Hin | reflexivity].
    - intros [Hin E]. inversion E. subst. exact Hin. }
  destruct tr; [| exact Hsame].
  destruct (p_kind p).
  - rewrite In_params_move_to_end.
    rewrite (In_params_update_self (p_name p) _ l cur r' Honly Hcur Hr').
    split; intros [Hin E]; (split; [exact Hin |]); congruence.
  - rewrite In_params_pop, Hr', String.eqb_refl.
    split; intros [_ E]; discriminate E.
  - rewrite In_params_move_to_end. exact Hsame.
  - rewrite In_params_move_to_end. exact Hsame.
Qed.

Lemma partial_step_other (arguments keywords : dict) (new_params : Signature)
    (tr : bool) (p r : Param) :
  String.eqb (p_name p) (p_name r) = false ->
  In r (fst (partial_step arguments keywords (new_params, tr) p))
  <-> In r new_params.
Proof.
  intros Hne. unfold partial_step.
  assert (Hupd : forall v l,
             In r (params_update (p_name p)
                     (fun _ => replace_default v p) l) <-> In r l).
  { intros v l. apply In_params_update_other; [reflexivity | exact Hne]. }
  destruct (dict_get (p_name p) arguments) as [v |]; cbn [fst];
    [| apply transform_step_other; exact Hne].
  destruct (p_kind p) eqn:K; cbn [fst];
    try (apply transform_step_other; exact Hne).
  - destruct (dict_mem (p_name p) keywords); cbn [fst].
    + rewrite transform_step_other by exact Hne. apply Hupd.
    + rewrite In_params_pop. tauto.
  - rewrite transform_step_other by exact Hne. apply Hupd.
Qed.

Lemma partial_step_self (arguments keywords : dict) (new_params : Signature)
    (tr : bool) (p r' : Param) :
  (forall r, In r new_params -> p_name r = p_name p -> r = p) ->
  p_name r' = p_name p ->
  In r' (fst (partial_step arguments keywords (new_params, tr) p))
  <-> In p new_params /\ partial_result arguments keywords tr p = Some r'.
Proof.
  intros Honly Hr'. unfold partial_step, partial_result.
  assert (Hupd : forall v,
             let l := params_update (p_name p)
                        (fun _ => replace_default v p) new_params in
             (forall r, In r l -> p_name r = p_name p ->
                        r = replace_default v p)
             /\ (In (replace_default v p) l <-> In p new_params)).
  { intros v l. subst l. split.
    - intros r Hin Hn.
      apply (In_params_update_self (p_name p) _ new_params p r Honly
               eq_refl Hn) in Hin. tauto.
    - rewrite (In_params_update_self (p_name p) _ new_params p
                 (replace_default v p) Honly eq_refl eq_refl). tauto. }
  destruct (dict_get (p_name p) arguments) as [v |]; cbn [fst];
    [| apply transform_step_self; auto].
  destruct (Hupd v) as [Honly' Hin'].
  destruct (p_kind p) eqn:K; cbn [fst];
    try (apply transform_step_self; auto; fail).
  - destruct (dict_mem (p_name p) keywords); cbn [fst].
    + rewrite (transform_step_self true p (replace_default v p) r' _ Honly'
                 eq_refl Hr'), Hin'. reflexivity.
    + rewrite In_params_pop, Hr', String.eqb_refl.
      split; intros [_ E]; discriminate E.
  - rewrite (transform_step_self tr p (replace_default v p) r' _ Honly'
               eq_refl Hr'), Hin'. reflexivity.
Qed.

Lemma fold_partial_other (arguments keywords : dict) (r : Param)
    (todo : Signature) :
  forall st,
    (forall p, In p todo -> String.eqb (p_name p) (p_name r) = false) ->
    In r (fst (fold_left (partial_step arguments keywords) todo st))
    <-> In r (fst st).
Proof.
  induction todo as [| p todo IH]; intros st Hne; simpl; [reflexivity |].
  rewrite IH by (intros q Hq; apply Hne; right; exact Hq).
  destruct st as [new_params tr].
  apply partial_step_other. apply Hne. left. reflexivity.
Qed.

Lemma NoDup_names_unique (l : Signature) (q r : Param) :
  NoDup (map p_name l) -> In q l -> In r l -> p_name r = p_name q -> r = q.
Proof.
  induction l as [| x l IH]; simpl; intros Hnd Hq Hr Hn; [contradiction |].
  inversion Hnd as [| ? ? Hx Hnd']; subst.
  destruct Hq as [-> | Hq], Hr as [-> | Hr]; auto.
  - exfalso. apply Hx. rewrite <- Hn. apply in_map; exact Hr.
  - exfalso. apply Hx. rewrite Hn. apply in_map; exact Hq.
Qed.

Lemma NoDup_names_split (l1 l2 : Signature) (q p : Param) :
  NoDup (map p_name (l1 ++ q :: l2)) ->
  In p (l1 ++ l2) -> String.eqb (p_name p) (p_name q) = false.
Proof.
  intros Hnd Hin. apply String.eqb_neq. intros E.
  rewrite map_app in Hnd. simpl in Hnd. apply NoDup_remove_2 in Hnd.
  apply Hnd. rewrite <- E, <- map_app. apply in_map. exact Hin.
Qed.

(** The entries of the resulting signature under the name of [q]. *)
Lemma fold_partial_self (arguments keywords : dict) (l1 l2 : Signature)
    (q r' : Param) :
  let sig := l1 ++ q :: l2 in
  NoDup (map p_name sig) ->
  p_name r' = p_name q ->
  In r' (fst (fold_left (partial_step arguments keywords) sig (sig, false)))
  <-> partial_result arguments keywords
        (snd (fold_left (partial_step arguments keywords) l1 (sig, false))) q
      = Some r'.
Proof.
  intros sig Hnd Hr'. unfold sig at 1. rewrite fold_left_app. simpl.
  assert (Hne : forall p, In p (l1 ++ l2) ->
                          String.eqb (p_name p) (p_name r') = false).
  { intros p Hp. rewrite Hr'. eapply NoDup_names_split; eauto. }
  rewrite fold_partial_other
    by (intros p Hp; apply Hne, in_or_app; right; exact Hp).
  destruct (fold_left (partial_step arguments keywords) l1 (sig, false))
    as [new1 tr1] eqn:E1.
  assert (Hkeep : forall r, p_name r = p_name q -> In r new1 <-> In r sig).
  { intros r Hr. change new1 with (fst (new1, tr1)). rewrite <- E1.
    apply fold_partial_other. intros p Hp. rewrite Hr.
    eapply NoDup_names_split; eauto. apply in_or_app. left. exact Hp. }
  assert (Hq : In q sig) by (apply in_or_app; right; left; reflexivity).
  rewrite partial_step_self.
  - simpl. rewrite (Hkeep q eq_refl). tauto.
  - intros r Hin Hn. apply (NoDup_names_unique sig q r Hnd Hq); [| exact Hn].
    apply (Hkeep r Hn). exact Hin.
  - exact Hr'.
Qed.

(** The loop invents no name. *)
Lemma transform_step_names (tr : bool) (p r' : Param) (l : Signature) :
  In r' (transform_step tr p l) -> exists r, In r l /\ p_name r = p_name r'.
Proof.
  unfold transform_step. destruct tr; [| eauto].
  destruct (p_kind p).
  - rewrite In_params_move_to_end, In_params_update.
    intros [r [Hin E]]. exists r. split; [exact Hin |].
    subst. destruct (String.eqb (p_name p) (p_name r)); reflexivity.
  - rewrite In_params_pop. intros [H _]. eauto.
  - rewrite In_params_move_to_end. eauto.
  - rewrite In_params_move_to_end. eauto.
Qed.

Lemma partial_step_names (arguments keywords : dict) (st : Signature * bool)
    (p r' : Param) :
  In r' (fst (partial_step arguments keywords st p)) ->
  exists r, In r (fst st) /\ p_name r = p_name r'.
Proof.
  destruct st as [new_params tr]. unfold partial_step.
  assert (Hupd : forall v tr0,
             In r' (transform_step tr0 p
                      (params_update (p_name p)
                         (fun _ => replace_default v p) new_params)) ->
             exists r, In r new_params /\ p_name r = p_name r').
  { intros v tr0 H. apply transform_step_names in H.
    destruct H as [r1 [Hin E]]. apply In_params_update in Hin.
    destruct Hin as [r [Hin E']]. exists r. split; [exact Hin |].
    rewrite <- E. subst r1.
    destruct (String.eqb (p_name p) (p_name r)) eqn:E0; [| reflexivity].
    apply String.eqb_eq in E0. symmetry. exact E0. }
  destruct (dict_get (p_name p) arguments) as [v |]; cbn [fst];
    [| apply transform_step_names].
  destruct (p_kind p); cbn [fst]; try apply transform_step_names.
  - destruct (dict_mem (p_name p) keywords); cbn [fst]; [apply Hupd |].
    rewrite In_params_pop. intros [H _]. eauto.
  - apply Hupd.
Qed.

Lemma fold_partial_names (arguments keywords : dict) (r' : Param)
    (todo : Signature) :
  forall st,
    In r' (fst (fold_left (partial_step arguments keywords) todo st)) ->
    exists r, In r (fst st) /\ p_name r = p_name r'.
Proof.
  induction todo as [| p todo IH]; intros st H; simpl in H; [eauto |].
  apply IH in H. destruct H as [r1 [Hin E]].
  apply partial_step_names in Hin. destruct Hin as [r [Hin E']].
  exists r. split; [exact Hin | congruence].
Qed.

(** Every entry of the signature of a partial object is what the loop made
    of the parameter of the same name. *)
Lemma partial_signature_entry (arguments keywords : dict) (sig : Signature)
    (r' : Param) :
  NoDup (map p_name sig) ->
  In r' (fst (fold_left (partial_step arguments keywords) sig (sig, false))) ->
  exists q tr,
    In q sig /\ partial_result arguments keywords tr q = Some r'.
Proof.
  intros Hnd Hin.
  destruct (fold_partial_names _ _ _ _ _ Hin) as [q [Hq Hn]]. simpl in Hq.
  destruct (in_split _ _ Hq) as [l1 [l2 E]]. subst sig.
  apply fold_partial_self in Hin; [| exact Hnd | symmetry; exact Hn].
  eauto.
Qed.

(** A parameter that stays in the signature of a partial object. *)
Lemma partial_signature_keeps (arguments keywords : dict) (sig : Signature)
    (q : Param) :
  NoDup (map p_name sig) ->
  In q sig ->
  exists tr,
    forall r', p_name r' = p_name q ->
      In r' (fst (fold_left (partial_step arguments keywords) sig
                    (sig, false)))
      <-> partial_result arguments keywords tr q = Some r'.
Proof.
  intros Hnd Hq. destruct (in_split _ _ Hq) as [l1 [l2 E]]. subst sig.
  eexists. intros r' Hr'. apply fold_partial_self; assumption.
Qed.

(** ** The [FullArgSpec] of a signature and its count *)

Lemma argspec_fold_args (l : Signature) :
  forall a,
    acc_args (fold_left argspec_step l a)
    = acc_args a ++ map p_name (filter is_positional l).
Proof.
  induction l as [| p l IH]; intros a; simpl; [symmetry; apply app_nil_r |].
  rewrite IH. unfold argspec_step, is_positional.
  destruct (p_kind p); simpl; try reflexivity.
  rewrite <- app_assoc. reflexivity.
Qed.

Lemma argspec_fold_defaults (l : Signature) :
  forall a,
    List.length (acc_defaults (fold_left argspec_step l a))
    = List.length (acc_defaults a)
      + List.length (filter (fun p => is_positional p && has_default p) l).
Proof.
  induction l as [| p l IH]; intros a; simpl; [lia |].
  rewrite IH. unfold argspec_step, is_positional, has_default.
  destruct (p_kind p); simpl; try reflexivity.
  destruct (p_default p); simpl; [rewrite length_app; simpl; lia | lia].
Qed.

Lemma argspec_fold_kwonlyargs (l : Signature) :
  forall a,
    acc_kwonlyargs (fold_left argspec_step l a)
    = acc_kwonlyargs a ++ map p_name (filter is_keyword_only l).
Proof.
  induction l as [| p l IH]; intros a; simpl; [symmetry; apply app_nil_r |].
  rewrite IH. unfold argspec_step, is_keyword_only.
  destruct (p_kind p); simpl; try reflexivity.
  rewrite <- app_assoc. reflexivity.
Qed.

Lemma argspec_fold_kwdefaults (n : string) (l : Signature) :
  forall a,
    dict_mem n (acc_kwdefaults (fold_left argspec_step l a))
    = dict_mem n (acc_kwdefaults a)
      || existsb (fun p => is_keyword_only p && has_default p
                           && String.eqb n (p_name p)) l.
Proof.
  induction l as [| p l IH]; intros a; simpl; [symmetry; apply orb_false_r |].
  rewrite IH. unfold argspec_step, is_keyword_only, has_default.
  destruct (p_kind p); simpl; try reflexivity.
  destruct (p_default p); simpl; [| reflexivity].
  rewrite dict_mem_set.
  destruct (String.eqb n (p_name p)), (dict_mem n (acc_kwdefaults a));
    reflexivity.
Qed.

Lemma filter_split_length {A : Type} (f g : A -> bool) (l : list A) :
  List.length (filter f l)
  = List.length (filter (fun x => f x && g x) l)
    + List.length (filter (fun x => f x && negb (g x)) l).
Proof.
  induction l as [| x l IH]; simpl; [reflexivity |].
  destruct (f x), (g x); simpl; lia.
Qed.

Lemma mem_string_dict_keys (k : string) (d : dict) :
  mem_string k (dict_keys d) = dict_mem k d.
Proof.
  unfold dict_keys, dict_mem.
  induction d as [| [k' v] d IH]; simpl; [reflexivity |].
  destruct (String.eqb k k'); [reflexivity | exact IH].
Qed.

Lemma mem_string_py_set (k : string) (l : list string) :
  mem_string k (py_set l) = mem_string k l.
Proof.
  unfold py_set. destruct (mem_string k l) eqn:E.
  - apply mem_string_In. apply nodup_In. apply mem_string_In. exact E.
  - destruct (mem_string k (nodup string_dec l)) eqn:E'; [| reflexivity].
    apply mem_string_In, nodup_In, mem_string_In in E'. congruence.
Qed.

Lemma count_required_of_signature (sig : Signature) :
  count_required_arguments (fullargspec_of_signature sig)
  = (Z.of_nat (List.length
                 (filter (fun p => is_positional p && negb (has_default p))
                    sig))
     + Z.of_nat (List.length (required_keywords sig)))%Z.
Proof.
  unfold count_required_arguments, fullargspec_of_signature, argspec_of_acc,
    required_keywords.
  cbn [spec_args spec_defaults spec_kwonlyargs spec_kwonlydefaults].
  set (a := fold_left argspec_step sig (mkAcc [] None None [] [] [])).
  assert (Hargs : acc_args a = map p_name (filter is_positional sig)).
  { unfold a. rewrite argspec_fold_args. reflexivity. }
  assert (Hdef : List.length (acc_defaults a)
                 = List.length
                     (filter (fun p => is_positional p && has_default p) sig)).
  { unfold a. rewrite argspec_fold_defaults. reflexivity. }
  assert (Hkw : acc_kwonlyargs a = map p_name (filter is_keyword_only sig)).
  { unfold a. rewrite argspec_fold_kwonlyargs. reflexivity. }
  rewrite Hargs, Hkw, length_map.
  rewrite (filter_split_length is_positional has_default sig).
  f_equal.
  - assert (E : match
                  match acc_defaults a with [] => None | d => Some d end
                with
                | None => 0%Z
                | Some d => Z.of_nat (List.length d)
                end = Z.of_nat (List.length (acc_defaults a))).
    { destruct (acc_defaults a); reflexivity. }
    rewrite E, Hdef. lia.
  - destruct (acc_kwdefaults a); reflexivity.
Qed.

(** When every parameter is optional, nothing is required. *)
Lemma count_required_all_optional (sig : Signature) :
  (forall p, In p sig -> is_optional p = true) ->
  count_required_arguments (fullargspec_of_signature sig) = 0%Z.
Proof.
  intros Hopt. rewrite count_required_of_signature.
  assert (H1 : filter (fun p => is_positional p && negb (has_default p)) sig
               = []).
  { apply filter_none. apply not_true_iff_false. intros H.
    apply existsb_exists in H. destruct H as [p [Hin Hp]].
    apply Hopt in Hin. unfold is_optional, is_var, is_positional in *.
    destruct (p_kind p), (has_default p); simpl in *; discriminate. }
  assert (H2 : required_keywords sig = []).
  { unfold required_keywords, set_difference. apply filter_none.
    apply not_true_iff_false. intros H.
    apply existsb_exists in H. destruct H as [n [Hin Hn]].
    apply negb_true_iff in Hn.
    rewrite mem_string_py_set, mem_string_dict_keys in Hn.
    rewrite argspec_fold_kwdefaults in Hn. simpl in Hn.
    apply mem_string_In in Hin. rewrite mem_string_py_set in Hin.
    apply mem_string_In, in_map_iff in Hin.
    destruct Hin as [p [<- Hp]]. apply filter_In in Hp.
    destruct Hp as [Hp Hk].
    assert (Hex : existsb (fun p0 => is_keyword_only p0 && has_default p0
                                     && String.eqb (p_name p) (p_name p0))
                    sig = true).
    { apply existsb_exists. exists p. split; [exact Hp |].
      rewrite Hk, String.eqb_refl. apply Hopt in Hp.
      unfold is_optional, is_var, is_keyword_only in *.
      destruct (p_kind p); try discriminate. simpl in Hp. rewrite Hp.
      reflexivity. }
    congruence. }
  rewrite H1, H2. reflexivity.
Qed.

(** A parameter that is not optional, alone under its name, is counted. *)
Lemma count_required_positive (sig : Signature) (r : Param) :
  In r sig ->
  is_optional r = false ->
  (forall x, In x sig -> p_name x = p_name r -> x = r) ->
  (0 < count_required_arguments (fullargspec_of_signature sig))%Z.
Proof.
  intros Hin Hopt Honly. rewrite count_required_of_signature.
  unfold is_optional in Hopt. apply orb_false_iff in Hopt.
  destruct Hopt as [Hvar Hdef].
  destruct (is_positional r) eqn:Hpos.
  - assert (H : In r (filter (fun p => is_positional p
                                       && negb (has_default p)) sig)).
    { apply filter_In. rewrite Hpos, Hdef. auto. }
    destruct (filter (fun p => is_positional p && negb (has_default p)) sig);
      [contradiction | cbn [List.length]; lia].
  - assert (Hk : is_keyword_only r = true).
    { unfold is_var, is_positional, is_keyword_only in *.
      destruct (p_kind r); try discriminate; reflexivity. }
    assert (H : In (p_name r) (required_keywords sig)).
    { unfold required_keywords, set_difference. apply filter_In. split.
      - apply mem_string_In. rewrite mem_string_py_set.
        apply mem_string_In, in_map. apply filter_In. auto.
      - apply negb_true_iff.
        rewrite mem_string_py_set, mem_string_dict_keys.
        rewrite argspec_fold_kwdefaults. simpl.
        apply not_true_iff_false. intros H.
        apply existsb_exists in H. destruct H as [x [Hx Hc]].
        apply andb_true_iff in Hc. destruct Hc as [Hc En].
        apply andb_true_iff in Hc. destruct Hc as [_ Hd].
        apply String.eqb_eq in En.
        rewrite (Honly x Hx (eq_sym En)) in Hd. congruence. }
    destruct (required_keywords sig); [contradiction | cbn [List.length]; lia].
Qed.

Lemma distinct_NoDup (l : list string) : distinct l = true -> NoDup l.
Proof.
  induction l as [| x l IH]; simpl; intros H; [constructor |].
  apply andb_true_iff in H. destruct H as [Hx Hl].
  constructor; [| exact (IH Hl)].
  intros Hin. apply mem_string_In in Hin. rewrite Hin in Hx. discriminate.
Qed.

(** ** The residual signature and the bound arguments *)

Lemma transform_result_optional (tr : bool) (q cur r' : Param) :
  p_kind cur = p_kind q ->
  is_optional cur = true ->
  transform_result tr q cur = Some r' ->
  is_optional r' = true.
Proof.
  unfold transform_result, is_optional, is_var, has_default.
  intros Hk Ho E. destruct tr.
  - destruct (p_kind q) eqn:K; try discriminate E;
      injection E as <-; try exact Ho.
    simpl. rewrite Hk in Ho. exact Ho.
  - injection E as <-. exact Ho.
Qed.

Lemma partial_result_optional (arguments keywords : dict) (tr : bool)
    (q r' : Param) :
  is_var q = true \/ dict_mem (p_name q) arguments = true
  \/ has_default q = true ->
  partial_result arguments keywords tr q = Some r' ->
  is_optional r' = true.
Proof.
  unfold partial_result, dict_mem. intros H E.
  revert H.
  assert (Hdef : forall v, is_optional (replace_default v q) = true).
  { intros v. unfold is_optional, has_default. simpl. apply orb_true_r. }
  destruct (dict_get (p_name q) arguments) as [v |].
  - intros _. destruct (p_kind q) eqn:K.
    + destruct (dict_get (p_name q) keywords); [| discriminate E].
      eapply transform_result_optional; [| apply (Hdef v) | exact E].
      reflexivity.
    + eapply transform_result_optional; [reflexivity | | exact E].
      unfold is_optional, is_var. rewrite K. reflexivity.
    + eapply transform_result_optional; [| apply (Hdef v) | exact E].
      reflexivity.
    + eapply transform_result_optional; [reflexivity | | exact E].
      unfold is_optional, is_var. rewrite K. reflexivity.
  - intros H. eapply transform_result_optional; [reflexivity | | exact E].
    unfold is_optional. destruct H as [H | [H | H]];
      [rewrite H; reflexivity | discriminate H
      | rewrite H; apply orb_true_r].
Qed.

Lemma partial_result_required (arguments keywords : dict) (tr : bool)
    (q : Param) :
  dict_mem (p_name q) arguments = false ->
  is_optional q = false ->
  exists r',
    partial_result arguments keywords tr q = Some r'
    /\ is_optional r' = false /\ p_name r' = p_name q.
Proof.
  unfold partial_result, transform_result, dict_mem, is_optional, is_var,
    has_default.
  intros Hb Ho.
  destruct (dict_get (p_name q) arguments); [discriminate Hb |].
  destruct (p_kind q) eqn:K; simpl in Ho; try discriminate Ho;
    destruct tr; eexists; (split; [reflexivity |]); simpl; rewrite ?K;
    simpl; auto.
Qed.

(** When [Signature.bind] accepts the arguments, the signature of the
    partial object requires nothing. *)
Lemma get_partial_full (sig : Signature) (args : list value)
    (kwargs arguments : dict) :
  wf_signature sig = true ->
  sig_bind false sig args kwargs = Return arguments ->
  exists sig',
    signature_get_partial sig args kwargs = Return sig'
    /\ count_required_arguments (fullargspec_of_signature sig') = 0%Z.
Proof.
  intros Hwf Hbind. apply distinct_NoDup in Hwf.
  unfold signature_get_partial.
  rewrite (sig_bind_full_partial _ _ _ _ Hbind).
  eexists. split; [reflexivity |].
  apply count_required_all_optional. intros r' Hin.
  destruct (partial_signature_entry _ _ _ _ Hwf Hin) as [q [tr [Hq Hr]]].
  eapply partial_result_optional; [| exact Hr].
  eapply sig_bind_full_bound; eauto.
Qed.

(** When [bind_partial] accepts the arguments and leaves unbound a parameter
    that is not optional, the signature of the partial object requires
    something. *)
Lemma get_partial_unbound (sig : Signature) (args : list value)
    (kwargs arguments : dict) (q : Param) :
  wf_signature sig = true ->
  sig_bind true sig args kwargs = Return arguments ->
  In q sig ->
  is_optional q = false ->
  dict_mem (p_name q) arguments = false ->
  exists sig',
    signature_get_partial sig args kwargs = Return sig'
    /\ (0 < count_required_arguments (fullargspec_of_signature sig'))%Z.
Proof.
  intros Hwf Hbind Hq Ho Hb. apply distinct_NoDup in Hwf.
  unfold signature_get_partial. rewrite Hbind.
  eexists. split; [reflexivity |].
  destruct (partial_signature_keeps arguments kwargs sig q Hwf Hq)
    as [tr Hkeep].
  destruct (partial_result_required arguments kwargs tr q Hb Ho)
    as [r' [Hr [Ho' Hn]]].
  apply (count_required_positive _ r').
  - apply (Hkeep r' Hn). exact Hr.
  - exact Ho'.
  - intros x Hx Hnx. rewrite Hn in Hnx. apply (Hkeep x Hnx) in Hx.
    congruence.
Qed.

(** ** Bindings that [bind] and [bind_partial] accept *)

(** The parameters the positional loop does not hand over were filled by
    position, or are the var-positional parameter. *)
Lemma bind_positional_consumed (partial : bool) (kwargs : dict)
    (args : list value) :
  forall (params : Signature) (arguments arguments' : dict)
         (rest : Signature),
    bind_positional partial params args kwargs arguments
    = Return (arguments', rest) ->
    forall q, In q params ->
      In q rest \/ is_var_positional q = true
      \/ In q (firstn (List.length args) (positional_prefix params)).
Proof.
  induction args as [| a args IH]; intros params arguments arguments' rest H.
  - destruct params as [| p ps]; simpl in H.
    + inversion H. intros q [].
    + assert (Hkeep : Return (arguments, p :: ps)
                      = Return (arguments', rest) ->
                      forall q, In q (p :: ps) ->
                        In q rest \/ is_var_positional q = true
                        \/ In q (firstn 0 (positional_prefix (p :: ps)))).
      { intros E. inversion E. subst. intros q Hq. left. exact Hq. }
      destruct (p_kind p) eqn:K.
      * destruct (dict_mem (p_name p) kwargs); [auto |].
        simpl in H. destruct (has_default p); simpl in H; [auto |].
        destruct partial; [auto | discriminate H].
      * inversion H. subst. intros q [<- | Hq]; [| auto].
        right. left. unfold is_var_positional. rewrite K. reflexivity.
      * destruct (dict_mem (p_name p) kwargs); [auto |].
        simpl in H. destruct (has_default p); simpl in H; [auto |].
        destruct partial; [auto | discriminate H].
      * destruct (dict_mem (p_name p) kwargs); [auto |].
        simpl in H. auto.
  - destruct params as [| p ps]; simpl in H; [discriminate H |].
    destruct (p_kind p) eqn:K; try discriminate H.
    + destruct (dict_mem (p_name p) kwargs); [discriminate H |].
      intros q Hq. simpl. unfold is_positional at 1. rewrite K. simpl.
      destruct Hq as [<- | Hq]; [auto |].
      destruct (IH _ _ _ _ H q Hq) as [? | [? | ?]]; auto.
    + inversion H. subst. intros q [<- | Hq]; [| auto].
      right. left. unfold is_var_positional. rewrite K. reflexivity.
Qed.

(** The keys of the arguments the positional loop adds. *)
Lemma bind_positional_keys (partial : bool) (kwargs : dict)
    (args : list value) :
  forall (params : Signature) (arguments arguments' : dict)
         (rest : Signature) (n : string),
    bind_positional partial params args kwargs arguments
    = Return (arguments', rest) ->
    dict_mem n arguments' = true ->
    dict_mem n arguments = true
    \/ (exists p, In p (firstn (List.length args) (positional_prefix params))
                  /\ p_name p = n)
    \/ (exists q, In q params /\ is_var q = true /\ p_name q = n).
Proof.
  induction args as [| a args IH];
    intros params arguments arguments' rest n H Hn.
  - destruct params as [| p ps]; simpl in H.
    + inversion H. subst. auto.
    + destruct (p_kind p) eqn:K;
        try (inversion H; subst; auto; fail);
        destruct (dict_mem (p_name p) kwargs);
        try (inversion H; subst; auto; fail);
        simpl in H; destruct (has_default p); simpl in H;
        try (inversion H; subst; auto; fail);
        destruct partial; try discriminate H; inversion H; subst; auto.
  - destruct params as [| p ps]; simpl in H; [discriminate H |].
    destruct (p_kind p) eqn:K; try discriminate H.
    + destruct (dict_mem (p_name p) kwargs); [discriminate H |].
      destruct (IH _ _ _ _ _ H Hn) as [Hm | [[p0 [Hin E]] | [q [Hq [Hv E]]]]].
      * rewrite dict_mem_set in Hm. apply orb_true_iff in Hm.
        destruct Hm as [Hm | Hm]; [| auto].
        apply String.eqb_eq in Hm. right. left. exists p.
        simpl. unfold is_positional. rewrite K. simpl. auto.
      * right. left. exists p0. simpl. unfold is_positional. rewrite K.
        simpl. auto.
      * right. right. exists q. simpl. auto.
    + inversion H. subst. rewrite dict_mem_set in Hn.
      apply orb_true_iff in Hn. destruct Hn as [Hn | Hn]; [| auto].
      apply String.eqb_eq in Hn. right. right. exists p.
      unfold is_var. rewrite K. simpl. auto.
Qed.

(** The keyword loop: the keys it adds and the keywords it leaves. *)
Lemma bind_keywords_keys (partial : bool) (n : string) :
  forall (params : Signature) (kwargs arguments arguments' remaining : dict)
         (kp kp' : option Param),
    bind_keywords partial params kwargs arguments kp
    = Return (arguments', remaining, kp') ->
    dict_mem n arguments' = true ->
    dict_mem n arguments = true \/ dict_mem n kwargs = true.
Proof.
  induction params as [| p ps IH];
    intros kwargs arguments arguments' remaining kp kp' H Hn; simpl in H.
  - inversion H. subst. auto.
  - assert (Hnamed :
              match dict_get (p_name p) kwargs with
              | Some arg_val =>
                  bind_keywords partial ps (dict_pop (p_name p) kwargs)
                    (dict_set arguments (p_name p) arg_val) kp
              | None =>
                  if negb partial && negb (has_default p)
                  then Raise (bind_error "missing a required argument")
                  else bind_keywords partial ps kwargs arguments kp
              end = Return (arguments', remaining, kp') ->
              dict_mem n arguments = true \/ dict_mem n kwargs = true).
    { intros H0. destruct (dict_get (p_name p) kwargs) as [v |] eqn:G.
      - destruct (IH _ _ _ _ _ _ H0 Hn) as [Hm | Hm].
        + rewrite dict_mem_set in Hm. apply orb_true_iff in Hm.
          destruct Hm as [Hm | Hm]; [| auto].
          apply String.eqb_eq in Hm. subst n. right.
          unfold dict_mem. rewrite G. reflexivity.
        + rewrite dict_mem_pop in Hm. apply andb_true_iff in Hm. tauto.
      - destruct (negb partial && negb (has_default p)); [discriminate H0 |].
        eapply IH; eauto. }
    destruct (p_kind p); eauto.
Qed.

Lemma bind_keywords_remaining (partial : bool) (n : string) :
  forall (params : Signature) (kwargs arguments arguments' remaining : dict)
         (kp kp' : option Param),
    bind_keywords partial params kwargs arguments kp
    = Return (arguments', remaining, kp') ->
    dict_mem n remaining = true ->
    dict_mem n kwargs = true /\ accepts_keyword params n = false.
Proof.
  induction params as [| p ps IH];
    intros kwargs arguments arguments' remaining kp kp' H Hn; simpl in H.
  - inversion H. subst. auto.
  - assert (Hvar : is_var p = true ->
                   forall kp0,
                     bind_keywords partial ps kwargs arguments kp0
                     = Return (arguments', remaining, kp') ->
                     dict_mem n kwargs = true
                     /\ accepts_keyword (p :: ps) n = false).
    { intros Hv kp0 H0. destruct (IH _ _ _ _ _ _ H0 Hn) as [Hm Ha].
      split; [exact Hm |]. unfold accepts_keyword in *. simpl.
      rewrite Hv. exact Ha. }
    assert (Hnamed :
              is_var p = false ->
              match dict_get (p_name p) kwargs with
              | Some arg_val =>
                  bind_keywords partial ps (dict_pop (p_name p) kwargs)
                    (dict_set arguments (p_name p) arg_val) kp
              | None =>
                  if negb partial && negb (has_default p)
                  then Raise (bind_error "missing a required argument")
                  else bind_keywords partial ps kwargs arguments kp
              end = Return (arguments', remaining, kp') ->
              dict_mem n kwargs = true
              /\ accepts_keyword (p :: ps) n = false).
    { intros Hv H0. unfold accepts_keyword. simpl. rewrite Hv. simpl.
      destruct (dict_get (p_name p) kwargs) as [v |] eqn:G.
      - destruct (IH _ _ _ _ _ _ H0 Hn) as [Hm Ha].
        rewrite dict_mem_pop in Hm. apply andb_true_iff in Hm.
        destruct Hm as [Hne Hm]. apply negb_true_iff in Hne.
        rewrite Hne. auto.
      - destruct (negb partial && negb (has_default p)); [discriminate H0 |].
        destruct (IH _ _ _ _ _ _ H0 Hn) as [Hm Ha]. split; [exact Hm |].
        destruct (String.eqb (p_name p) n) eqn:E; [| exact Ha].
        apply String.eqb_eq in E. subst n. unfold dict_mem in Hm.
        rewrite G in Hm. discriminate Hm. }
    destruct (p_kind p) eqn:K.
    + apply Hnamed; [unfold is_var; rewrite K; reflexivity | exact H].
    + eapply Hvar; [unfold is_var; rewrite K; reflexivity | exact H].
    + apply Hnamed; [unfold is_var; rewrite K; reflexivity | exact H].
    + eapply Hvar; [unfold is_var; rewrite K; reflexivity | exact H].
Qed.

Lemma bind_keywords_var_keyword (partial : bool) :
  forall (params : Signature) (kwargs arguments arguments' remaining : dict)
         (kp kp' : option Param),
    bind_keywords partial params kwargs arguments kp
    = Return (arguments', remaining, kp') ->
    existsb is_var_keyword params = true \/ kp <> None ->
    exists v, kp' = Some v
              /\ ((In v params /\ is_var_keyword v = true) \/ kp = Some v).
Proof.
  induction params as [| p ps IH];
    intros kwargs arguments arguments' remaining kp kp' H Hv; simpl in H.
  - inversion H. subst. destruct Hv as [Hv | Hv]; [discriminate Hv |].
    destruct kp' as [v |]; [| congruence]. exists v. auto.
  - assert (Hother :
              is_var_keyword p = false ->
              forall kwargs0 arguments0,
                bind_keywords partial ps kwargs0 arguments0 kp
                = Return (arguments', remaining, kp') ->
                exists v, kp' = Some v
                          /\ ((In v (p :: ps) /\ is_var_keyword v = true)
                              \/ kp = Some v)).
    { intros Hp kwargs0 arguments0 H0.
      assert (Hv' : existsb is_var_keyword ps = true \/ kp <> None).
      { destruct Hv as [Hv | Hv]; [| auto]. simpl in Hv. rewrite Hp in Hv.
        auto. }
      destruct (IH _ _ _ _ _ _ H0 Hv') as [v [E [[Hin Hk] | Hk]]];
        exists v; simpl; auto. }
    destruct (p_kind p) eqn:K.
    + destruct (dict_get (p_name p) kwargs).
      * eapply Hother; [unfold is_var_keyword; rewrite K; reflexivity | eauto].
      * destruct (negb partial && negb (has_default p)); [discriminate H |].
        eapply Hother; [unfold is_var_keyword; rewrite K; reflexivity | eauto].
    + eapply Hother; [unfold is_var_keyword; rewrite K; reflexivity | eauto].
    + destruct (dict_get (p_name p) kwargs).
      * eapply Hother; [unfold is_var_keyword; rewrite K; reflexivity | eauto].
      * destruct (negb partial && negb (has_default p)); [discriminate H |].
        eapply Hother; [unfold is_var_keyword; rewrite K; reflexivity | eauto].
    + assert (Hs : existsb is_var_keyword ps = true \/ Some p <> None)
        by (right; discriminate).
      destruct (IH _ _ _ _ _ _ H Hs) as [v [E [[Hin Hk] | Hk]]];
        exists v; simpl; (split; [exact E |]).
      * auto.
      * inversion Hk. subst. left. split; [auto |].
        unfold is_var_keyword. rewrite K. reflexivity.
Qed.

(** The keys of the arguments of a binding. *)
Lemma sig_bind_keys (partial : bool) (sig : Signature) (args : list value)
    (kwargs arguments : dict) (n : string) :
  sig_bind partial sig args kwargs = Return arguments ->
  dict_mem n arguments = true ->
  (exists p, In p (firstn (List.length args) (positional_prefix sig))
             /\ p_name p = n)
  \/ dict_mem n kwargs = true
  \/ (exists q, In q sig /\ is_var q = true /\ p_name q = n).
Proof.
  unfold sig_bind. intros H Hn.
  destruct (bind_positional partial sig args kwargs [])
    as [[a1 rest] | e] eqn:Hpos; simpl in H; [| discriminate H].
  destruct (bind_keywords partial rest kwargs a1 None)
    as [[[a2 remaining] kp] | e] eqn:Hkw; simpl in H; [| discriminate H].
  destruct (bind_positional_rest _ _ _ _ _ _ _ Hpos) as [consumed Es].
  assert (Ha2 : dict_mem n a2 = true ->
                (exists p, In p (firstn (List.length args)
                                   (positional_prefix sig)) /\ p_name p = n)
                \/ dict_mem n kwargs = true
                \/ (exists q, In q sig /\ is_var q = true /\ p_name q = n)).
  { intros Hm. destruct (bind_keywords_keys _ _ _ _ _ _ _ _ _ Hkw Hm)
      as [Hm1 | Hm1]; [| auto].
    destruct (bind_positional_keys _ _ _ _ _ _ _ _ Hpos Hm1)
      as [Hm0 | [Hp | Hq]]; [discriminate Hm0 | auto | auto]. }
  destruct remaining as [| [k0 v0] rem'].
  - inversion H. subst. auto.
  - destruct kp as [v |]; [| discriminate H]. inversion H. subst.
    rewrite dict_mem_set in Hn. apply orb_true_iff in Hn.
    destruct Hn as [Hn | Hn]; [| auto].
    apply String.eqb_eq in Hn.
    assert (Hs : existsb is_var_keyword rest = true
                 \/ (@None Param) <> None).
    { left. destruct (existsb is_var_keyword rest) eqn:Ex; [reflexivity |].
      pose proof (bind_keywords_no_var_keyword _ _ _ _ _ _ _ _ Hkw Ex) as Ekp.
      discriminate Ekp. }
    destruct (bind_keywords_var_keyword _ _ _ _ _ _ _ _ Hkw Hs)
      as [v' [E [[Hin Hk] | Hk]]]; [| discriminate Hk].
    inversion E. subst v'.
    right. right. exists v. repeat split.
    + apply in_or_app. right. exact Hin.
    + unfold is_var. unfold is_var_keyword in Hk.
      destruct (p_kind v); try discriminate Hk; reflexivity.
    + symmetry. exact Hn.
Qed.

Lemma positional_prefix_positional (sig : Signature) (p : Param) :
  In p (positional_prefix sig) -> is_positional p = true.
Proof.
  induction sig as [| q sig IH]; simpl; [intros [] |].
  destruct (is_positional q) eqn:K; [| intros []].
  intros [<- | H]; auto.
Qed.

Lemma bind_positional_split (partial : bool) (kwargs : dict)
    (args : list value) :
  forall (params : Signature) (arguments arguments' : dict)
         (rest : Signature),
    bind_positional partial params args kwargs arguments
    = Return (arguments', rest) ->
    exists consumed,
      params = consumed ++ rest
      /\ incl (firstn (List.length args) (positional_prefix params)) consumed.
Proof.
  induction args as [| a args IH]; intros params arguments arguments' rest H.
  - destruct (bind_positional_rest _ _ _ _ _ _ _ H) as [c ->].
    exists c. split; [reflexivity | intros x []].
  - destruct params as [| p ps]; simpl in H; [discriminate H |].
    destruct (p_kind p) eqn:K; try discriminate H.
    + destruct (dict_mem (p_name p) kwargs); [discriminate H |].
      apply IH in H. destruct H as [c [-> Hc]]. exists (p :: c).
      split; [reflexivity |]. simpl. unfold is_positional at 1. rewrite K.
      simpl. intros x [<- | Hx]; [left; reflexivity | right; auto].
    + inversion H. subst. exists [p]. split; [reflexivity |].
      simpl. unfold is_positional. rewrite K. intros x [].
Qed.

Lemma bind_positional_succeeds (partial : bool) (kwargs : dict)
    (args : list value) :
  forall (params : Signature) (arguments : dict),
    NoDup (map p_name params) ->
    (forall p, In p (firstn (List.length args) (positional_prefix params)) ->
               dict_mem (p_name p) kwargs = false) ->
    positional_fit params (List.length args) ->
    (partial = true
     \/ forall q, In q params ->
          In q (firstn (List.length args) (positional_prefix params))
          \/ is_var q = true \/ dict_mem (p_name q) kwargs = true
          \/ has_default q = true) ->
    exists r, bind_positional partial params args kwargs arguments = Return r.
Proof.
  induction args as [| a args IH]; intros params arguments Hnd Hdup Hfit Hreq.
  - destruct params as [| p ps]; simpl; [eauto |].
    destruct (p_kind p) eqn:K; try (eexists; reflexivity);
      (destruct (dict_mem (p_name p) kwargs) eqn:M; [eauto |]); simpl;
      try (eexists; reflexivity);
      (destruct (has_default p) eqn:D; [eauto |]); simpl;
      (destruct partial; [eauto |]);
      (destruct Hreq as [Hreq | Hreq]; [discriminate Hreq |]);
      (destruct (Hreq p (or_introl eq_refl)) as [[] | [Hv | [Hm | Hd]]];
       [unfold is_var in Hv; rewrite K in Hv; discriminate Hv
       | congruence | congruence]).
  - destruct params as [| p ps].
    + exfalso. destruct Hfit as [Hfit | [v [tl [E _]]]]; simpl in *;
        [lia | discriminate E].
    + simpl. destruct (p_kind p) eqn:K.
      * assert (Hp : is_positional p = true)
          by (unfold is_positional; rewrite K; reflexivity).
        simpl in Hdup, Hfit, Hreq. unfold positional_fit in Hfit.
        simpl in Hfit. rewrite Hp in Hdup, Hfit, Hreq. simpl in *.
        rewrite (Hdup p (or_introl eq_refl)).
        inversion Hnd as [| ? ? Hx Hnd']; subst.
        apply IH.
        -- exact Hnd'.
        -- intros q Hq. apply Hdup. right. exact Hq.
        -- destruct Hfit as [Hfit | Hfit]; [left; lia | right; exact Hfit].
        -- destruct Hreq as [Hreq | Hreq]; [left; exact Hreq | right].
           intros q Hq.
           destruct (Hreq q (or_intror Hq)) as [[E | H] | H]; auto.
           exfalso. subst q. apply Hx. apply in_map. exact Hq.
      * eexists; reflexivity.
      * exfalso. unfold positional_fit in Hfit. simpl in Hfit.
        unfold is_positional in Hfit. rewrite K in Hfit. simpl in Hfit.
        destruct Hfit as [Hfit | [v [tl [E Hv]]]]; [lia |].
        inversion E. subst. unfold is_var_positional in Hv.
        rewrite K in Hv. discriminate Hv.
      * exfalso. unfold positional_fit in Hfit. simpl in Hfit.
        unfold is_positional in Hfit. rewrite K in Hfit. simpl in Hfit.
        destruct Hfit as [Hfit | [v [tl [E Hv]]]]; [lia |].
        inversion E. subst. unfold is_var_positional in Hv.
        rewrite K in Hv. discriminate Hv.
Qed.

Lemma bind_keywords_succeeds (partial : bool) :
  forall (params : Signature) (kwargs arguments : dict) (kp : option Param),
    NoDup (map p_name params) ->
    (partial = true
     \/ forall q, In q params ->
          is_var q = true \/ dict_mem (p_name q) kwargs = true
          \/ has_default q = true) ->
    exists r, bind_keywords partial params kwargs arguments kp = Return r.
Proof.
  induction params as [| p ps IH]; intros kwargs arguments kp Hnd Hreq;
    simpl; [eauto |].
  inversion Hnd as [| ? ? Hx Hnd']; subst.
  assert (Hreq' : partial = true
                  \/ forall q, In q ps ->
                       is_var q = true \/ dict_mem (p_name q) kwargs = true
                       \/ has_default q = true).
  { destruct Hreq as [Hreq | Hreq]; [auto | right].
    intros q Hq. apply Hreq. right. exact Hq. }
  assert (Hnamed :
            is_var p = false ->
            exists r,
              match dict_get (p_name p) kwargs with
              | Some arg_val =>
                  bind_keywords partial ps (dict_pop (p_name p) kwargs)
                    (dict_set arguments (p_name p) arg_val) kp
              | None =>
                  if negb partial && negb (has_default p)
                  then Raise (bind_error "missing a required argument")
                  else bind_keywords partial ps kwargs arguments kp
              end = Return r).
  { intros Hv. destruct (dict_get (p_name p) kwargs) as [v |] eqn:G.
    - apply IH; [exact Hnd' |].
      destruct Hreq' as [Hreq' | Hreq']; [auto | right].
      intros q Hq. rewrite dict_mem_pop.
      assert (E : String.eqb (p_name p) (p_name q) = false).
      { apply String.eqb_neq. intros E. apply Hx. rewrite E.
        apply in_map. exact Hq. }
      rewrite E. simpl. apply Hreq'. exact Hq.
    - assert (E : negb partial && negb (has_default p) = false).
      { destruct Hreq as [-> | Hreq]; [reflexivity |].
        destruct (Hreq p (or_introl eq_refl)) as [H | [H | H]].
        - congruence.
        - unfold dict_mem in H. rewrite G in H. discriminate H.
        - rewrite H. apply andb_false_r. }
      rewrite E. apply IH; assumption. }
  destruct (p_kind p) eqn:K.
  - apply Hnamed. unfold is_var. rewrite K. reflexivity.
  - apply IH; assumption.
  - apply Hnamed. unfold is_var. rewrite K. reflexivity.
  - apply IH; assumption.
Qed.

Lemma accepts_keyword_exists (sig : Signature) (k : string) :
  accepts_keyword sig k = true ->
  exists q, In q sig /\ is_var q = false /\ p_name q = k.
Proof.
  unfold accepts_keyword. intros H. apply existsb_exists in H.
  destruct H as [q [Hin H]]. apply andb_true_iff in H. destruct H as [Hv E].
  apply negb_true_iff in Hv. apply String.eqb_eq in E. eauto.
Qed.

Lemma accepts_keyword_intro (sig : Signature) (q : Param) :
  In q sig -> is_var q = false -> accepts_keyword sig (p_name q) = true.
Proof.
  intros Hin Hv. unfold accepts_keyword. apply existsb_exists.
  exists q. rewrite Hv, String.eqb_refl. auto.
Qed.

(** A binding is accepted when no keyword names a parameter filled by
    position, the positional arguments fit, each keyword is taken by some
    parameter, and (for [bind]) every parameter is supplied or optional. *)
Lemma sig_bind_succeeds (partial : bool) (sig : Signature)
    (args : list value) (kwargs : dict) :
  NoDup (map p_name sig) ->
  (forall p, In p (firstn (List.length args) (positional_prefix sig)) ->
             dict_mem (p_name p) kwargs = false) ->
  positional_fit sig (List.length args) ->
  (partial = true
   \/ forall q, In q sig ->
        In q (firstn (List.length args) (positional_prefix sig))
        \/ is_var q = true \/ dict_mem (p_name q) kwargs = true
        \/ has_default q = true) ->
  (forall k, dict_mem k kwargs = true ->
             accepts_keyword sig k = true
             \/ existsb is_var_keyword sig = true) ->
  exists arguments, sig_bind partial sig args kwargs = Return arguments.
Proof.
  intros Hnd Hdup Hfit Hreq Hkey. unfold sig_bind.
  destruct (bind_positional_succeeds partial kwargs args sig [] Hnd Hdup
              Hfit Hreq) as [[a1 rest] Hpos].
  rewrite Hpos. simpl.
  destruct (bind_positional_split _ _ _ _ _ _ _ Hpos) as [consumed [Es Hc]].
  assert (Hnd' : NoDup (map p_name rest)).
  { rewrite Es, map_app in Hnd. apply NoDup_app_remove_l in Hnd. exact Hnd. }
  assert (Hout : forall q, In q rest ->
                   ~ In q (firstn (List.length args) (positional_prefix sig))).
  { intros q Hq Hf. apply Hc in Hf. rewrite Es, map_app in Hnd.
    apply (in_map p_name) in Hq. apply (in_map p_name) in Hf.
    revert Hnd Hq Hf. generalize (map p_name consumed) (map p_name rest)
                                 (p_name q).
    intros l1 l2 x Hnd Hq Hf. induction l1 as [| y l1 IH]; [contradiction |].
    simpl in Hnd. inversion Hnd as [| ? ? Hy Hnd1]; subst.
    destruct Hf as [-> | Hf]; [| auto].
    apply Hy. apply in_or_app. right. exact Hq. }
  assert (Hreq' : partial = true
                  \/ forall q, In q rest ->
                       is_var q = true \/ dict_mem (p_name q) kwargs = true
                       \/ has_default q = true).
  { destruct Hreq as [Hreq | Hreq]; [auto | right].
    intros q Hq.
    assert (Hs : In q sig) by (rewrite Es; apply in_or_app; auto).
    destruct (Hreq q Hs) as [H | H]; [| exact H].
    exfalso. exact (Hout q Hq H). }
  destruct (bind_keywords_succeeds partial rest kwargs a1 None Hnd' Hreq')
    as [[[a2 remaining] kp] Hkw].
  rewrite Hkw. simpl.
  destruct remaining as [| [k0 v0] rem']; [eauto |].
  assert (Hk0 : dict_mem k0 ((k0, v0) :: rem') = true).
  { rewrite dict_mem_cons, String.eqb_refl. reflexivity. }
  destruct (bind_keywords_remaining _ _ _ _ _ _ _ _ _ Hkw Hk0) as [Hm Hacc].
  assert (Hvk : existsb is_var_keyword rest = true).
  { destruct (Hkey k0 Hm) as [Ha | Hv].
    - exfalso. apply accepts_keyword_exists in Ha.
      destruct Ha as [q [Hq [Hv En]]].
      destruct (bind_positional_consumed _ _ _ _ _ _ _ Hpos q Hq)
        as [Hr | [Hvp | Hf]].
      + rewrite <- En, (accepts_keyword_intro rest q Hr Hv) in Hacc.
        discriminate Hacc.
      + unfold is_var in Hv. unfold is_var_positional in Hvp.
        destruct (p_kind q); discriminate.
      + apply Hdup in Hf. congruence.
    - apply existsb_exists in Hv. destruct Hv as [v [Hin Hv]].
      apply existsb_exists. exists v. split; [| exact Hv].
      destruct (bind_positional_consumed _ _ _ _ _ _ _ Hpos v Hin)
        as [Hr | [Hvp | Hf]]; [exact Hr | |].
      + unfold is_var_keyword in Hv. unfold is_var_positional in Hvp.
        destruct (p_kind v); discriminate.
      + apply In_firstn, positional_prefix_positional in Hf.
        unfold is_var_keyword in Hv. unfold is_positional in Hf.
        destruct (p_kind v); discriminate. }
  destruct (bind_keywords_var_keyword _ _ _ _ _ _ _ _ Hkw (or_introl Hvk))
    as [v [-> _]].
  eauto.
Qed.

(** ** The interpreter and [inspect] on [def] functions *)

Lemma signature_names (fd : fundef) :
  map p_name (signature_from_function fd) = fn_names fd.
Proof.
  unfold signature_from_function, fn_names. rewrite !map_app.
  rewrite positional_parameters_names, map_map. simpl. rewrite map_id.
  destruct (fn_varargs fd), (fn_varkw fd); reflexivity.
Qed.

Lemma wf_fundef_signature (fd : fundef) :
  wf_fundef fd = true -> wf_signature (signature_from_function fd) = true.
Proof.
  unfold wf_fundef, wf_signature. rewrite signature_names.
  intros H. apply andb_true_iff in H. tauto.
Qed.

Lemma wf_fundef_defaults (fd : fundef) :
  wf_fundef fd = true ->
  List.length (fn_args fd) = fn_nrequired fd + List.length (fn_defaults fd).
Proof.
  unfold wf_fundef, fn_nrequired. intros H. apply andb_true_iff in H.
  destruct H as [_ H]. apply Nat.leb_le in H. lia.
Qed.

Lemma positional_parameters_nth (fd : fundef) (names : list string) :
  forall i j,
    nth_error (positional_parameters fd i names) j
    = option_map
        (fun n => mkParam n POSITIONAL_OR_KEYWORD (fn_default_at fd (i + j)))
        (nth_error names j).
Proof.
  induction names as [| n names IH]; intros i j.
  - destruct j; reflexivity.
  - destruct j; simpl.
    + rewrite Nat.add_0_r. reflexivity.
    + rewrite IH. replace (S i + j) with (i + S j) by lia. reflexivity.
Qed.

Lemma nth_error_firstn_In {A : Type} (l : list A) (x : A) :
  forall j n, nth_error l j = Some x -> j < n -> In x (firstn n l).
Proof.
  induction l as [| y l IH]; intros [| j] [| n] H Hlt;
    simpl in *; try discriminate; try lia.
  - inversion H. auto.
  - right. apply (IH j); [exact H | lia].
Qed.

Lemma NoDup_nth_not_firstn {A : Type} (l : list A) (x : A) :
  NoDup l ->
  forall j n, nth_error l j = Some x -> n <= j -> ~ In x (firstn n l).
Proof.
  induction 1 as [| y l Hy Hnd IH]; intros [| j] [| n] Hj Hle Hin;
    simpl in *; try discriminate; try contradiction; try lia.
  destruct Hin as [-> | Hin].
  - apply Hy. eapply nth_error_In. exact Hj.
  - apply (IH j n); [exact Hj | lia | exact Hin].
Qed.

Lemma missing_positional_nil (fd : fundef) (npos : nat) (kwargs : dict)
    (names : list string) :
  forall i,
    missing_positional fd npos kwargs i names = [] ->
    forall j n, nth_error names j = Some n ->
      (i + j <? npos) || dict_mem n kwargs || (fn_nrequired fd <=? i + j)
      = true.
Proof.
  induction names as [| x names IH]; intros i H j n Hj.
  - destruct j; discriminate Hj.
  - simpl in H.
    destruct ((i <? npos) || dict_mem x kwargs || (fn_nrequired fd <=? i))
      eqn:E; [| discriminate H].
    destruct j; simpl in Hj.
    + inversion Hj. subst. rewrite Nat.add_0_r. exact E.
    + replace (i + S j) with (S i + j) by lia. eapply IH; eauto.
Qed.

Lemma missing_positional_In (fd : fundef) (npos : nat) (kwargs : dict)
    (names : list string) (n : string) :
  forall i,
    In n (missing_positional fd npos kwargs i names) ->
    exists j, nth_error names j = Some n
              /\ npos <= i + j /\ i + j < fn_nrequired fd
              /\ dict_mem n kwargs = false.
Proof.
  induction names as [| x names IH]; intros i H; simpl in H; [contradiction |].
  destruct ((i <? npos) || dict_mem x kwargs || (fn_nrequired fd <=? i))
    eqn:E.
  - destruct (IH _ H) as [j [Hj [H1 [H2 H3]]]]. exists (S j).
    simpl. repeat split; auto; lia.
  - destruct H as [<- | H].
    + apply orb_false_iff in E. destruct E as [E E3].
      apply orb_false_iff in E. destruct E as [E1 E2].
      apply Nat.ltb_ge in E1. apply Nat.leb_gt in E3.
      exists 0. simpl. repeat split; auto; lia.
    + destruct (IH _ H) as [j [Hj [H1 [H2 H3]]]]. exists (S j).
      simpl. repeat split; auto; lia.
Qed.

Lemma after_prefix_app (l1 l2 : Signature) :
  forallb is_positional l1 = true ->
  existsb is_positional l2 = false ->
  after_prefix (l1 ++ l2) = l2.
Proof.
  intros H1 H2. induction l1 as [| p l1 IH]; simpl.
  - destruct l2 as [| q l2]; simpl; [reflexivity |].
    simpl in H2. apply orb_false_iff in H2. destruct H2 as [-> _].
    reflexivity.
  - simpl in H1. apply andb_true_iff in H1. destruct H1 as [Hp H1].
    rewrite Hp. exact (IH H1).
Qed.

Lemma signature_after_prefix (fd : fundef) :
  after_prefix (signature_from_function fd) = signature_tail fd.
Proof.
  unfold signature_from_function. fold (signature_tail fd).
  apply after_prefix_app.
  - apply positional_parameters_kind.
  - apply signature_tail_not_positional.
Qed.

(** The members of the signature of a [def] function. *)
Lemma signature_In (fd : fundef) (q : Param) :
  In q (signature_from_function fd) ->
  (exists j, nth_error (fn_args fd) j = Some (p_name q)
             /\ q = mkParam (p_name q) POSITIONAL_OR_KEYWORD
                      (fn_default_at fd j))
  \/ is_var q = true
  \/ (In (p_name q) (fn_kwonlyargs fd)
      /\ q = mkParam (p_name q) KEYWORD_ONLY
               (dict_get (p_name q) (fn_kwdefaults fd))).
Proof.
  unfold signature_from_function. rewrite !in_app_iff.
  intros [H | [H | [H | H]]].
  - left. apply In_nth_error in H. destruct H as [j Hj].
    rewrite positional_parameters_nth in Hj. simpl in Hj. exists j.
    destruct (nth_error (fn_args fd) j) as [n |]; [| discriminate Hj].
    simpl in Hj. inversion Hj. subst q. simpl. auto.
  - right. left. destruct (fn_varargs fd); simpl in H; [| contradiction].
    destruct H as [<- | []]. reflexivity.
  - right. right. apply in_map_iff in H. destruct H as [n [<- Hn]].
    simpl. auto.
  - right. left. destruct (fn_varkw fd); simpl in H; [| contradiction].
    destruct H as [<- | []]. reflexivity.
Qed.

Lemma signature_positional_In (fd : fundef) (j : nat) (n : string) :
  nth_error (fn_args fd) j = Some n ->
  In (mkParam n POSITIONAL_OR_KEYWORD (fn_default_at fd j))
     (signature_from_function fd).
Proof.
  intros Hj. unfold signature_from_function. apply in_or_app. left.
  apply (nth_error_In _ j). rewrite positional_parameters_nth, Hj.
  reflexivity.
Qed.

Lemma signature_kwonly_In (fd : fundef) (n : string) :
  In n (fn_kwonlyargs fd) ->
  In (mkParam n KEYWORD_ONLY (dict_get n (fn_kwdefaults fd)))
     (signature_from_function fd).
Proof.
  intros Hn. unfold signature_from_function. rewrite !in_app_iff.
  right. right. left.
  apply (in_map (fun n => mkParam n KEYWORD_ONLY
                            (dict_get n (fn_kwdefaults fd)))).
  exact Hn.
Qed.

(** What the interpreter has checked once the keywords are placed and the
    positional arguments are not too many. *)
Section Accepted.

Variable fd : fundef.
Variable args : list value.
Variable kwargs : dict.
Hypothesis Hwf : wf_fundef fd = true.
Hypothesis Hck : check_keywords fd (List.length args) kwargs = None.
Hypothesis Hmany :
  (List.length (fn_args fd) <? List.length args)
  && match fn_varargs fd with None => true | Some _ => false end = false.

Lemma accepted_no_duplicate (p : Param) :
  In p (firstn (List.length args)
          (positional_prefix (signature_from_function fd))) ->
  dict_mem (p_name p) kwargs = false.
Proof.
  rewrite signature_positional_prefix. intros Hin.
  apply positional_parameters_firstn in Hin.
  destruct (dict_mem (p_name p) kwargs) eqn:M; [| reflexivity].
  exfalso.
  destruct (check_keywords_placed _ _ _ _ Hck M) as [[_ H] | [H _]].
  - apply mem_string_In in Hin. congruence.
  - apply In_firstn in Hin. rewrite mem_string_app in H.
    apply orb_false_iff in H. destruct H as [H _].
    apply mem_string_In in Hin. congruence.
Qed.

Lemma accepted_fit :
  positional_fit (signature_from_function fd) (List.length args).
Proof.
  unfold positional_fit.
  rewrite signature_positional_prefix, positional_parameters_length,
    signature_after_prefix.
  apply andb_false_iff in Hmany. destruct Hmany as [H | H].
  - left. apply Nat.ltb_ge in H. exact H.
  - right. unfold signature_tail.
    destruct (fn_varargs fd) as [v |]; [| discriminate H].
    simpl. eexists. eexists. split; reflexivity.
Qed.

Lemma accepted_keywords (k : string) :
  dict_mem k kwargs = true ->
  accepts_keyword (signature_from_function fd) k = true
  \/ existsb is_var_keyword (signature_from_function fd) = true.
Proof.
  intros M.
  destruct (check_keywords_placed _ _ _ _ Hck M) as [[H _] | [_ H]].
  - left. destruct (accepts_keyword (signature_from_function fd) k) eqn:A;
      [reflexivity |].
    apply signature_accepts_keyword in A. congruence.
  - right.
    destruct (existsb is_var_keyword (signature_from_function fd)) eqn:V;
      [reflexivity |].
    apply signature_var_keyword in V. congruence.
Qed.

(** [bind_partial] accepts the arguments. *)
Lemma accepted_bind_partial :
  exists arguments,
    sig_bind true (signature_from_function fd) args kwargs
    = Return arguments.
Proof.
  apply sig_bind_succeeds.
  - apply distinct_NoDup. apply wf_fundef_signature in Hwf. exact Hwf.
  - exact accepted_no_duplicate.
  - exact accepted_fit.
  - left. reflexivity.
  - exact accepted_keywords.
Qed.

(** A parameter that no argument reaches is not among the bound
    arguments. *)
Lemma accepted_unbound (q : Param) (arguments : dict) :
  sig_bind true (signature_from_function fd) args kwargs
  = Return arguments ->
  In q (signature_from_function fd) ->
  is_var q = false ->
  ~ In q (firstn (List.length args)
            (positional_prefix (signature_from_function fd))) ->
  dict_mem (p_name q) kwargs = false ->
  dict_mem (p_name q) arguments = false.
Proof.
  intros Hbind Hq Hv Hpos Hkw.
  assert (Hnd : NoDup (map p_name (signature_from_function fd))).
  { apply distinct_NoDup. apply wf_fundef_signature in Hwf. exact Hwf. }
  destruct (dict_mem (p_name q) arguments) eqn:M; [| reflexivity].
  exfalso.
  destruct (sig_bind_keys _ _ _ _ _ _ Hbind M)
    as [[p [Hp En]] | [Hk | [v [Hvin [Hvv En]]]]].
  - assert (E : p = q).
    { apply (NoDup_names_unique (signature_from_function fd)); auto.
      rewrite signature_positional_prefix in Hp. apply In_firstn in Hp.
      unfold signature_from_function. apply in_or_app. left. exact Hp. }
    subst p. exact (Hpos Hp).
  - congruence.
  - assert (E : v = q)
      by (apply (NoDup_names_unique (signature_from_function fd)); auto).
    subst v. congruence.
Qed.

End Accepted.

(** A call the interpreter accepts is a binding [Signature.bind] accepts. *)
Lemma py_bind_accepted (fd : fundef) (args : list value) (kwargs env : dict) :
  wf_fundef fd = true ->
  py_bind fd args kwargs = Return env ->
  exists arguments,
    sig_bind false (signature_from_function fd) args kwargs = Return arguments.
Proof.
  intros Hwf. unfold py_bind.
  destruct (check_keywords fd (List.length args) kwargs) eqn:Hck;
    [discriminate |].
  destruct ((List.length (fn_args fd) <? List.length args)
            && match fn_varargs fd with None => true | Some _ => false end)
    eqn:Hmany; [discriminate |].
  destruct (missing_positional fd (List.length args) kwargs 0 (fn_args fd))
    eqn:Hmp; [| discriminate].
  destruct (missing_kwonly fd kwargs) eqn:Hmk; [| discriminate].
  intros _. apply sig_bind_succeeds.
  - apply distinct_NoDup. apply wf_fundef_signature in Hwf. exact Hwf.
  - intros p. apply (accepted_no_duplicate fd args kwargs Hck).
  - apply (accepted_fit fd args Hmany).
  - right. intros q Hq.
    destruct (signature_In fd q Hq) as [[j [Hj Eq]] | [Hv | [Hn Eq]]].
    + pose proof (missing_positional_nil _ _ _ _ _ Hmp j _ Hj) as H.
      simpl in H. apply orb_true_iff in H. destruct H as [H | H].
      * apply orb_true_iff in H. destruct H as [H | H]; [| auto].
        left. rewrite signature_positional_prefix.
        apply Nat.ltb_lt in H. apply (nth_error_firstn_In _ _ j); [| exact H].
        rewrite positional_parameters_nth, Hj. simpl. f_equal.
        symmetry. exact Eq.
      * right. right. right. apply Nat.leb_le in H.
        rewrite Eq. unfold has_default, fn_default_at. simpl.
        apply Nat.ltb_ge in H. rewrite H.
        assert (Hlt : j - fn_nrequired fd < List.length (fn_defaults fd)).
        { pose proof (wf_fundef_defaults fd Hwf) as Hd.
          assert (j < List.length (fn_args fd))
            by (apply nth_error_Some; congruence).
          apply Nat.ltb_ge in H. lia. }
        apply nth_error_Some in Hlt.
        destruct (nth_error (fn_defaults fd) (j - fn_nrequired fd));
          [reflexivity | congruence].
    + auto.
    + assert (H : negb (dict_mem (p_name q) kwargs
                        || dict_mem (p_name q) (fn_kwdefaults fd)) = false).
      { destruct (negb (dict_mem (p_name q) kwargs
                        || dict_mem (p_name q) (fn_kwdefaults fd))) eqn:E;
          [| reflexivity].
        assert (Hin : In (p_name q) (missing_kwonly fd kwargs))
          by (apply filter_In; auto).
        rewrite Hmk in Hin. contradiction. }
      apply negb_false_iff, orb_true_iff in H. destruct H as [H | H]; [auto |].
      right. right. right. rewrite Eq. unfold has_default. simpl.
      unfold dict_mem in H.
      destruct (dict_get (p_name q) (fn_kwdefaults fd));
        [reflexivity | discriminate H].
  - intros k. apply (accepted_keywords fd args kwargs Hck).
Qed.

(** A call the interpreter rejects only for missing arguments: the
    inspector accepts the binding and counts a required parameter. *)
Lemma py_bind_missing (fd : fundef) (args : list value) (kwargs : dict)
    (e : exn) :
  wf_fundef fd = true ->
  py_bind fd args kwargs = Raise e ->
  is_invalid_call_error e = false ->
  exists sig',
    signature_get_partial (signature_from_function fd) args kwargs
    = Return sig'
    /\ (0 < count_required_arguments (fullargspec_of_signature sig'))%Z.
Proof.
  intros Hwf. unfold py_bind.
  destruct (check_keywords fd (List.length args) kwargs) eqn:Hck.
  { intros H He. inversion H. subst.
    apply check_keywords_invalid in Hck. congruence. }
  destruct ((List.length (fn_args fd) <? List.length args)
            && match fn_varargs fd with None => true | Some _ => false end)
    eqn:Hmany.
  { intros H He. inversion H. subst. discriminate He. }
  destruct (accepted_bind_partial fd args kwargs Hwf Hck Hmany)
    as [arguments Hbind].
  assert (Hnd : NoDup (map p_name (signature_from_function fd))).
  { apply distinct_NoDup. apply wf_fundef_signature in Hwf. exact Hwf. }
  assert (Hgo : forall q,
             In q (signature_from_function fd) ->
             is_optional q = false ->
             ~ In q (firstn (List.length args)
                       (positional_prefix (signature_from_function fd))) ->
             dict_mem (p_name q) kwargs = false ->
             exists sig',
               signature_get_partial (signature_from_function fd) args kwargs
               = Return sig'
               /\ (0 < count_required_arguments
                         (fullargspec_of_signature sig'))%Z).
  { intros q Hq Ho Hpos Hkw.
    apply (get_partial_unbound _ _ _ arguments q); auto.
    - apply wf_fundef_signature. exact Hwf.
    - eapply accepted_unbound; eauto.
      unfold is_optional in Ho. apply orb_false_iff in Ho. tauto. }
  destruct (missing_positional fd (List.length args) kwargs 0 (fn_args fd))
    as [| n mp] eqn:Hmp.
  - destruct (missing_kwonly fd kwargs) as [| n mk] eqn:Hmk; [discriminate |].
    intros _ _.
    assert (Hin : In n (missing_kwonly fd kwargs))
      by (rewrite Hmk; left; reflexivity).
    apply filter_In in Hin. destruct Hin as [Hn Hc].
    apply negb_true_iff, orb_false_iff in Hc. destruct Hc as [Hk Hd].
    apply (Hgo (mkParam n KEYWORD_ONLY (dict_get n (fn_kwdefaults fd)))).
    + apply signature_kwonly_In. exact Hn.
    + unfold is_optional, is_var, has_default. simpl.
      unfold dict_mem in Hd. destruct (dict_get n (fn_kwdefaults fd));
        [discriminate Hd | reflexivity].
    + intros Hf. apply In_firstn, positional_prefix_positional in Hf.
      discriminate Hf.
    + exact Hk.
  - intros _ _.
    assert (Hin : In n (missing_positional fd (List.length args) kwargs 0
                          (fn_args fd)))
      by (rewrite Hmp; left; reflexivity).
    apply missing_positional_In in Hin.
    destruct Hin as [j [Hj [H1 [H2 Hk]]]]. simpl in H1, H2.
    assert (Hdef : fn_default_at fd j = None).
    { unfold fn_default_at. apply Nat.ltb_lt in H2. rewrite H2. reflexivity. }
    apply (Hgo (mkParam n POSITIONAL_OR_KEYWORD (fn_default_at fd j))).
    + apply signature_positional_In. exact Hj.
    + rewrite Hdef. reflexivity.
    + rewrite signature_positional_prefix. intros Hf.
      apply (in_map p_name) in Hf. rewrite <- firstn_map in Hf.
      rewrite positional_parameters_names in Hf. simpl in Hf.
      revert Hf. apply (NoDup_nth_not_firstn (fn_args fd) n) with (j := j);
        [| exact Hj | exact H1].
      rewrite signature_names in Hnd. unfold fn_names in Hnd.
      apply NoDup_app_remove_r in Hnd. exact Hnd.
    + exact Hk.
Qed.

(** ** Positional calls of a [def] function *)

Lemma missing_positional_complete (fd : fundef) (npos : nat) (kwargs : dict)
    (names : list string) :
  forall i,
    fn_nrequired fd <= npos ->
    missing_positional fd npos kwargs i names = [].
Proof.
  induction names as [| n names IH]; intros i Hle; simpl; [reflexivity |].
  rewrite (IH (S i) Hle).
  destruct (i <? npos) eqn:E; [reflexivity |].
  apply Nat.ltb_ge in E.
  assert (E' : (fn_nrequired fd <=? i) = true) by (apply Nat.leb_le; lia).
  rewrite E', orb_true_r. reflexivity.
Qed.

Lemma missing_positional_incomplete (fd : fundef) (npos : nat)
    (names : list string) :
  forall i,
    i <= npos -> npos < fn_nrequired fd -> npos < i + List.length names ->
    missing_positional fd npos [] i names <> [].
Proof.
  induction names as [| n names IH]; intros i H1 H2 H3; simpl in *; [lia |].
  destruct (Nat.eq_dec i npos) as [-> | Hne].
  - rewrite Nat.ltb_irrefl. simpl.
    assert (E : (fn_nrequired fd <=? npos) = false)
      by (apply Nat.leb_gt; exact H2).
    rewrite E. discriminate.
  - assert (E : (i <? npos) = true) by (apply Nat.ltb_lt; lia).
    rewrite E. simpl. apply IH; lia.
Qed.

(** With exactly the required positional arguments, and defaults for the
    keyword-only parameters, the interpreter runs the body. *)
Lemma py_bind_positional_complete (fd : fundef) (args : list value) :
  List.length args = fn_nrequired fd ->
  missing_kwonly fd [] = [] ->
  exists env, py_bind fd args [] = Return env.
Proof.
  intros Hlen Hk. unfold py_bind. simpl.
  assert (E : (List.length (fn_args fd) <? List.length args) = false).
  { apply Nat.ltb_ge. rewrite Hlen. unfold fn_nrequired. lia. }
  rewrite E. simpl.
  rewrite missing_positional_complete by lia. rewrite Hk.
  eexists. reflexivity.
Qed.

(** With fewer positional arguments than required, the interpreter reports
    the missing positional parameters. *)
Lemma py_bind_positional_incomplete (fd : fundef) (args : list value) :
  List.length args < fn_nrequired fd ->
  exists names,
    py_bind fd args [] = Raise (type_error (MissingPositional (fn_name fd) names)).
Proof.
  intros Hlen. unfold py_bind. simpl.
  assert (E : (List.length (fn_args fd) <? List.length args) = false).
  { apply Nat.ltb_ge. unfold fn_nrequired in Hlen. lia. }
  rewrite E. simpl.
  pose proof (missing_positional_incomplete fd (List.length args)
                (fn_args fd) 0) as Hm.
  destruct (missing_positional fd (List.length args) [] 0 (fn_args fd)).
  - exfalso. apply Hm; [lia | exact Hlen | | reflexivity].
    unfold fn_nrequired in Hlen. lia.
  - eexists. reflexivity.
Qed.

(** * Properties of the engine *)

Section Engine.

Variable defs : nat -> fundef.
Variable body : nat -> dict -> outcome value.
Variable builtins : nat -> builtin.
Variable builtin_call : nat -> list value -> dict -> outcome value.
Variable class_doc : string -> option string.

Local Abbreviation call := (call defs body builtins builtin_call).
Local Abbreviation feed := (feed defs body builtins builtin_call).
Local Abbreviation signature := (signature defs builtins).
Local Abbreviation inspect_signature := (inspect_signature defs builtins).
Local Abbreviation getfullargspec := (getfullargspec defs builtins).

(** The two shapes [curry] can return. *)
Lemma curry_inv (f : value) (wrap : bool) (c : value) :
  curry f wrap = Return c ->
  callable f = true /\
  c = (if wrap then VWrapped f (VCurryWrapped f wrap)
       else VCurryWrapped f wrap).
Proof.
  unfold curry, wraps. destruct (callable f); simpl; intros H.
  - inversion H. split; reflexivity.
  - discriminate H.
Qed.

(** A curried value is called through its closure. *)
Lemma call_curried (f : value) (wrap : bool) (c : value)
    (args : list value) (kwargs : dict) :
  curry f wrap = Return c ->
  call c args kwargs = call (VCurryWrapped f wrap) args kwargs.
Proof.
  intros H. apply curry_inv in H. destruct H as [_ ->].
  destruct wrap; reflexivity.
Qed.

Lemma curry_full_application_aux (f : value) (wrap : bool) (c : value)
    (args : list value) (kwargs : dict) (t : trace) (x : value) :
  curry f wrap = Return c ->
  call f args kwargs = (t, Return x) ->
  call c args kwargs = (t, Return x).
Proof.
  intros Hc Hf. rewrite (call_curried _ _ _ _ _ Hc).
  simpl. rewrite Hf. reflexivity.
Qed.

Lemma functools_partial_callable (f : value) (args : list value)
    (kwargs : dict) :
  callable f = true ->
  functools_partial f args kwargs = Return (accumulated f args kwargs).
Proof.
  unfold functools_partial. intros ->. reflexivity.
Qed.

Lemma call_accumulated (f g : value) (args a : list value)
    (kwargs k : dict) :
  accumulated f args kwargs = VPartial g a k ->
  call f args kwargs = call g a k.
Proof.
  unfold accumulated. destruct f; intros H; inversion H; reflexivity.
Qed.

(** C8 (NotCallable at construction).  For a value that is not callable,
    [curry] and [curry_new] raise at once a [TypeError] whose message names
    the type of the value; they return no curried value.  Construction
    makes no call: it has no trace. *)
Theorem curry_not_callable (v : value) (wrap : bool)
    (argspec : option FullArgSpec) :
  callable v = false ->
  curry v wrap
  = Raise (mkExn TypeError
             (Msg (String.append "'"
                     (String.append (type_name v)
                        "' object is not callable"))))
  /\ curry_new v argspec = curry v wrap
  /\ (forall c, curry v wrap <> Return c)
  /\ (forall c, curry_new v argspec <> Return c).
Proof.
  intros Hc. unfold curry, curry_new. rewrite Hc. simpl.
  repeat split; try reflexivity; intros c H; discriminate H.
Qed.




Lemma curry_accumulated (f : value) (args : list value) (kwargs : dict)
    (wrap : bool) :
  let fp := accumulated f args kwargs in
  curry fp wrap
  = Return (if wrap then VWrapped fp (VCurryWrapped fp wrap)
            else VCurryWrapped fp wrap).
Proof. destruct f; reflexivity. Qed.

(** One call of the two curried values of the same target. *)
Lemma call_wrap_flag (fp : value) (args : list value) (kwargs : dict) :
  fst (call (VWrapped fp (VCurryWrapped fp true)) args kwargs)
  = fst (call (VCurryWrapped fp false) args kwargs)
  /\ same_modulo_wrap
       (snd (call (VWrapped fp (VCurryWrapped fp true)) args kwargs))
       (snd (call (VCurryWrapped fp false) args kwargs)).
Proof.
  simpl. destruct (call fp args kwargs) as [t [x | e]]; simpl.
  - split; [reflexivity | constructor].
  - destruct (is_TypeError e); simpl; [| split; [reflexivity | constructor]].
    unfold functools_partial. destruct (callable fp); simpl;
      [| split; [reflexivity | constructor]].
    destruct (getfullargspec (accumulated fp args kwargs)) as [spec | e'];
      simpl; [| split; [reflexivity | constructor]].
    destruct (0 <? count_required_arguments spec)%Z; simpl;
      [| split; [reflexivity | constructor]].
    rewrite !curry_accumulated. simpl. split; [reflexivity | constructor].
Qed.

Lemma feed_wrap_flag (calls : list (list value * dict)) :
  forall v1 v0,
    same_modulo_wrap (Return v1) (Return v0) ->
    fst (feed v1 calls) = fst (feed v0 calls)
    /\ same_modulo_wrap (snd (feed v1 calls)) (snd (feed v0 calls)).
Proof.
  induction calls as [| [args kwargs] rest IH]; intros v1 v0 Hrel.
  - simpl. split; [reflexivity | exact Hrel].
  - assert (Hstep : fst (call v1 args kwargs) = fst (call v0 args kwargs)
                    /\ same_modulo_wrap (snd (call v1 args kwargs))
                                        (snd (call v0 args kwargs))).
    { inversion Hrel; subst.
      - split; [reflexivity | constructor].
      - apply call_wrap_flag. }
    simpl.
    destruct (call v1 args kwargs) as [t1 r1].
    destruct (call v0 args kwargs) as [t0 r0].
    simpl in Hstep. destruct Hstep as [-> Hr].
    destruct r1 as [x1 | e1]; destruct r0 as [x0 | e0];
      try (inversion Hr; fail).
    + destruct (IH x1 x0 Hr) as [Ht Hs].
      destruct (feed x1 rest) as [t1' r1'].
      destruct (feed x0 rest) as [t0' r0'].
      simpl in *. subst. split; [reflexivity | exact Hs].
    + simpl. split; [reflexivity | exact Hr].
Qed.



Lemma invalid_call_error_TypeError (e : exn) :
  is_invalid_call_error e = true -> is_TypeError e = true.
Proof.
  unfold is_invalid_call_error, is_TypeError.
  destruct (exc_type e); try discriminate. reflexivity.
Qed.

(** The inspector rejects an invalid accumulated binding. *)
Lemma getfullargspec_invalid (g : value) (a : list value) (k : dict)
    (sig : Signature) :
  signature false g = Return sig ->
  invalid_binding sig a k ->
  getfullargspec (VPartial g a k) = Raise unsupported_callable.
Proof.
  intros Hsig Hinv. unfold getfullargspec. simpl. rewrite Hsig. simpl.
  unfold signature_get_partial.
  destruct (sig_bind_invalid true sig a k Hinv) as [e ->]. reflexivity.
Qed.

(** Invalid calls are rejected, where the inspector sees the call as the
    interpreter does.  Let the accumulated binding of a
    call be invalid for the signature of the target: too many positional
    arguments and no var-positional parameter, or a keyword that no
    parameter takes, or a keyword for a parameter already filled by
    position.  Then the inspector fails, its failure is not the one that
    surfaces, and the curried value ends as the direct call does, invoking
    nothing more.  When the target is a [def] function the direct call
    raises the interpreter's failure for an invalid call, and the curried
    value raises that same failure. *)
Lemma curry_rejects_invalid_call (f : value) (wrap : bool) (c : value)
    (args : list value) (kwargs : dict) (g : value) (a : list value)
    (k : dict) (sig : Signature) :
  curry f wrap = Return c ->
  accumulated f args kwargs = VPartial g a k ->
  signature false g = Return sig ->
  invalid_binding sig a k ->
  getfullargspec (VPartial g a k) = Raise unsupported_callable
  /\ (forall t o,
        call f args kwargs = (t, o) ->
        exists t',
          call c args kwargs = (t', o)
          /\ filter is_invocation t' = filter is_invocation t)
  /\ (forall fid,
        g = VFunction fid ->
        exists e,
          is_invalid_call_error e = true
          /\ e <> unsupported_callable
          /\ call f args kwargs = ([], Raise e)
          /\ call c args kwargs = ([EvInspect (VPartial g a k)], Raise e)).
Proof.
  intros Hc Hacc Hsig Hinv.
  pose proof (getfullargspec_invalid g a k sig Hsig Hinv) as Hspec.
  assert (Hcall : callable f = true) by (apply curry_inv in Hc; tauto).
  assert (Hstep : forall t e,
             call f args kwargs = (t, Raise e) ->
             is_TypeError e = true ->
             call c args kwargs = (t ++ [EvInspect (VPartial g a k)],
                                   Raise e)).
  { intros t e Hf He. rewrite (call_curried _ _ _ _ _ Hc). simpl.
    rewrite Hf, He, (functools_partial_callable _ _ _ Hcall), Hacc, Hspec.
    reflexivity. }
  split; [exact Hspec |]. split.
  - intros t [x | e] Hf.
    + exists t. split; [| reflexivity].
      eapply curry_full_application_aux; eauto.
    + destruct (is_TypeError e) eqn:He.
      * exists (t ++ [EvInspect (VPartial g a k)]).
        split; [apply Hstep; assumption |].
        rewrite filter_app. simpl. apply app_nil_r.
      * exists t. split; [| reflexivity].
        rewrite (call_curried _ _ _ _ _ Hc). simpl. rewrite Hf, He.
        reflexivity.
  - intros fid ->. simpl in Hsig. inversion Hsig. subst sig.
    destruct (py_bind_invalid _ _ _ Hinv) as [e [He Hk]].
    assert (Hf : call f args kwargs = ([], Raise e)).
    { rewrite (call_accumulated _ _ _ _ _ _ Hacc). simpl. rewrite He.
      reflexivity. }
    exists e. split; [exact Hk |]. split.
    + intros ->. discriminate Hk.
    + split; [exact Hf |].
      apply (Hstep [] e Hf (invalid_call_error_TypeError e Hk)).
Qed.

(** The inspector on an accumulated binding that [Signature.bind]
    accepts: it succeeds and counts no required parameter. *)
Lemma getfullargspec_bound (g : value) (a : list value) (k : dict)
    (sig : Signature) (arguments : dict) :
  signature false g = Return sig ->
  wf_signature sig = true ->
  sig_bind false sig a k = Return arguments ->
  exists spec,
    getfullargspec (VPartial g a k) = Return spec
    /\ count_required_arguments spec = 0%Z.
Proof.
  intros Hsig Hwf Hbind.
  destruct (get_partial_full sig a k arguments Hwf Hbind)
    as [sig' [Hp Hn]].
  exists (fullargspec_of_signature sig'). split; [| exact Hn].
  unfold getfullargspec. simpl. rewrite Hsig. simpl. rewrite Hp.
  reflexivity.
Qed.

(** Disambiguation on full binding, where the inspector sees the call as
    the interpreter does.  Let [sig] be the signature the inspector reads
    of the target and let [Signature.bind] accept the accumulated
    arguments: they fit the signature and supply every required parameter.
    If the direct call raises a [TypeError] [e], the curried value raises
    that same [e] after consulting the inspector once; it returns no curried
    value. *)
Lemma curry_reraises_bound (f : value) (wrap : bool) (c : value)
    (args : list value) (kwargs : dict) (g : value) (a : list value)
    (k : dict) (sig : Signature) (arguments : dict) (t : trace) (e : exn) :
  curry f wrap = Return c ->
  accumulated f args kwargs = VPartial g a k ->
  signature false g = Return sig ->
  wf_signature sig = true ->
  sig_bind false sig a k = Return arguments ->
  call f args kwargs = (t, Raise e) ->
  is_TypeError e = true ->
  call c args kwargs = (t ++ [EvInspect (VPartial g a k)], Raise e).
Proof.
  intros Hc Hacc Hsig Hwf Hbind Hf He.
  assert (Hcall : callable f = true) by (apply curry_inv in Hc; tauto).
  destruct (getfullargspec_bound g a k sig arguments Hsig Hwf Hbind)
    as [spec [Hspec Hn]].
  rewrite (call_curried _ _ _ _ _ Hc). simpl.
  rewrite Hf, He, (functools_partial_callable _ _ _ Hcall), Hacc, Hspec, Hn.
  reflexivity.
Qed.


(** ** Feeding positional arguments to a curried [def] function *)

(** The step of the closure that curries. *)
Lemma closure_curries (f : value) (wrap : bool) (args : list value)
    (kwargs : dict) (t : trace) (e : exn) (spec : FullArgSpec) :
  callable f = true ->
  call f args kwargs = (t, Raise e) ->
  is_TypeError e = true ->
  getfullargspec (accumulated f args kwargs) = Return spec ->
  (0 < count_required_arguments spec)%Z ->
  call (VCurryWrapped f wrap) args kwargs
  = (t ++ [EvInspect (accumulated f args kwargs)],
     curry (accumulated f args kwargs) wrap).
Proof.
  intros Hcall Hf He Hs Hn. simpl.
  rewrite Hf, He, (functools_partial_callable _ _ _ Hcall), Hs.
  apply Z.ltb_lt in Hn. rewrite Hn. reflexivity.
Qed.

(** The step of the closure that ends as the direct call does. *)
Lemma closure_transparent (f : value) (wrap : bool) (args : list value)
    (kwargs : dict) (t : trace) (r : outcome value) (spec : FullArgSpec) :
  callable f = true ->
  call f args kwargs = (t, r) ->
  getfullargspec (accumulated f args kwargs) = Return spec ->
  count_required_arguments spec = 0%Z ->
  snd (call (VCurryWrapped f wrap) args kwargs) = r.
Proof.
  intros Hcall Hf Hs Hn. simpl. rewrite Hf.
  destruct r as [x | e]; [reflexivity |].
  destruct (is_TypeError e); [| reflexivity].
  rewrite (functools_partial_callable _ _ _ Hcall), Hs, Hn. reflexivity.
Qed.

(** The inspector on a [def] function: the binding of a call that only
    misses arguments requires something; the binding of a call that ran
    the body requires nothing. *)
Lemma inspector_incomplete (fid : nat) (a : list value) (k : dict)
    (e : exn) :
  wf_fundef (defs fid) = true ->
  py_bind (defs fid) a k = Raise e ->
  is_invalid_call_error e = false ->
  exists spec,
    getfullargspec (VPartial (VFunction fid) a k) = Return spec
    /\ (0 < count_required_arguments spec)%Z.
Proof.
  intros Hwf Hb He.
  destruct (py_bind_missing _ _ _ _ Hwf Hb He) as [sig' [Hp Hn]].
  exists (fullargspec_of_signature sig'). split; [| exact Hn].
  unfold getfullargspec. simpl. rewrite Hp. reflexivity.
Qed.

Lemma inspector_complete (fid : nat) (a : list value) (k env : dict) :
  wf_fundef (defs fid) = true ->
  py_bind (defs fid) a k = Return env ->
  exists spec,
    getfullargspec (VPartial (VFunction fid) a k) = Return spec
    /\ count_required_arguments spec = 0%Z.
Proof.
  intros Hwf Hb.
  destruct (py_bind_accepted _ _ _ _ Hwf Hb) as [arguments Hbind].
  apply (getfullargspec_bound _ _ _ (signature_from_function (defs fid))
           arguments); [reflexivity | | exact Hbind].
  apply wf_fundef_signature. exact Hwf.
Qed.

Lemma feed_app (calls1 calls2 : list (list value * dict)) :
  forall v,
    snd (feed v (calls1 ++ calls2))
    = match snd (feed v calls1) with
      | Return v' => snd (feed v' calls2)
      | Raise e => Raise e
      end.
Proof.
  induction calls1 as [| [args kwargs] calls1 IH]; intros v; simpl;
    [reflexivity |].
  destruct (call v args kwargs) as [t [v' | e]]; [| reflexivity].
  specialize (IH v').
  destruct (feed v' (calls1 ++ calls2)) as [t1 r1].
  destruct (feed v' calls1) as [t2 r2]. simpl in *. exact IH.
Qed.

Lemma feed_cons_return (v v' : value) (args : list value) (kwargs : dict)
    (t : trace) (calls : list (list value * dict)) :
  call v args kwargs = (t, Return v') ->
  snd (feed v ((args, kwargs) :: calls)) = snd (feed v' calls).
Proof.
  intros H. simpl. rewrite H. destruct (feed v' calls). reflexivity.
Qed.

Lemma feed_wrapped (unwrapped wrapped : value)
    (calls : list (list value * dict)) :
  calls <> [] ->
  feed (VWrapped unwrapped wrapped) calls = feed wrapped calls.
Proof.
  destruct calls as [| [args kwargs] calls]; [congruence |]. reflexivity.
Qed.

Lemma feed_curry (f : value) (wrap : bool) (c : value)
    (calls : list (list value * dict)) :
  curry f wrap = Return c ->
  calls <> [] ->
  feed c calls = feed (VCurryWrapped f wrap) calls.
Proof.
  intros Hc Hne. apply curry_inv in Hc. destruct Hc as [_ ->].
  destruct wrap; [apply feed_wrapped; exact Hne | reflexivity].
Qed.

Lemma target_callable (fid : nat) (b : value) (hidden : list value) :
  target_of fid b hidden -> callable b = true.
Proof. intros []; reflexivity. Qed.

Lemma target_call (fid : nat) (b : value) (hidden : list value)
    (a : list value) (k : dict) :
  target_of fid b hidden ->
  call b a k = call (VFunction fid) (hidden ++ a) k.
Proof. intros []; reflexivity. Qed.

(** The inspector does not see the object a method is bound to. *)
Lemma target_getfullargspec (fid : nat) (b : value) (hidden : list value)
    (a : list value) (k : dict) :
  target_of fid b hidden ->
  getfullargspec (VPartial b a k)
  = getfullargspec (VPartial (VFunction fid) a k).
Proof. intros []; reflexivity. Qed.

Lemma chain_target_call (fid : nat) (b : value) (hidden acc : list value)
    (t : value) (g : list value) :
  target_of fid b hidden ->
  chain_target b acc t ->
  callable t = true
  /\ call t g [] = call (VFunction fid) (hidden ++ acc ++ g) []
  /\ accumulated t g [] = VPartial b (acc ++ g) [].
Proof.
  intros Hb [[-> ->] | ->].
  - split; [eapply target_callable; eauto |]. split.
    + apply target_call. exact Hb.
    + destruct Hb; reflexivity.
  - split; [reflexivity |]. split; [| reflexivity].
    simpl. apply (target_call fid b hidden (acc ++ g) []). exact Hb.
Qed.

(** Groups that leave a required parameter unfilled: every call curries,
    and the last one returns the curried partial object of all the
    arguments. *)
Lemma feed_positional_prefix (fid : nat) (wrap : bool) (b : value)
    (hidden : list value) :
  wf_fundef (defs fid) = true ->
  target_of fid b hidden ->
  forall (groups : list (list value)) (acc : list value) (t : value),
    chain_target b acc t ->
    groups <> [] ->
    List.length hidden + List.length acc + List.length (List.concat groups)
    < fn_nrequired (defs fid) ->
    snd (feed (VCurryWrapped t wrap) (positional groups))
    = curry (VPartial b (acc ++ List.concat groups) []) wrap.
Proof.
  intros Hwf Hb. induction groups as [| g rest IH];
    intros acc t Ht Hne Hlen; [congruence |].
  simpl in Hlen. rewrite length_app in Hlen.
  destruct (chain_target_call fid b hidden acc t g Hb Ht)
    as [Hcall [Hdirect Hacc]].
  destruct (py_bind_positional_incomplete (defs fid) (hidden ++ acc ++ g))
    as [names Hbind]; [rewrite !length_app; lia |].
  destruct (py_bind_positional_incomplete (defs fid) (acc ++ g))
    as [names' Hbind']; [rewrite length_app; lia |].
  destruct (inspector_incomplete fid (acc ++ g) [] _ Hwf Hbind' eq_refl)
    as [spec [Hs Hn]].
  rewrite <- (target_getfullargspec fid b hidden _ _ Hb) in Hs.
  assert (Hstep : call (VCurryWrapped t wrap) g []
                  = ([] ++ [EvInspect (accumulated t g [])],
                     curry (accumulated t g []) wrap)).
  { eapply closure_curries; eauto.
    - rewrite Hdirect. simpl. rewrite Hbind. reflexivity.
    - reflexivity.
    - rewrite Hacc. exact Hs. }
  rewrite Hacc in Hstep.
  set (fp := VPartial b (acc ++ g) []) in *.
  assert (Hfp : curry fp wrap
                = Return (if wrap then VWrapped fp (VCurryWrapped fp wrap)
                          else VCurryWrapped fp wrap)) by reflexivity.
  rewrite Hfp in Hstep.
  change (positional (g :: rest)) with ((g, []) :: positional rest).
  rewrite (feed_cons_return _ _ _ _ _ _ Hstep).
  destruct rest as [| g' rest'].
  - simpl. rewrite app_nil_r. exact (eq_sym Hfp).
  - rewrite (feed_curry fp wrap _ _ Hfp) by discriminate.
    rewrite (IH (acc ++ g) fp).
    + simpl. rewrite <- !app_assoc. reflexivity.
    + right. reflexivity.
    + discriminate.
    + rewrite length_app. simpl. simpl in Hlen. lia.
Qed.

Lemma feed_single (v : value) (args : list value) (kwargs : dict) :
  snd (feed v [(args, kwargs)]) = snd (call v args kwargs).
Proof.
  simpl. destruct (call v args kwargs) as [t [x | e]]; reflexivity.
Qed.

(** The closure passes on what is not a [TypeError]. *)
Lemma closure_passes (f : value) (wrap : bool) (args : list value)
    (kwargs : dict) :
  (forall e, snd (call f args kwargs) = Raise e -> is_TypeError e = false) ->
  snd (call (VCurryWrapped f wrap) args kwargs) = snd (call f args kwargs).
Proof.
  intros H. simpl. destruct (call f args kwargs) as [t [x | e]];
    [reflexivity |].
  simpl in H. rewrite (H e eq_refl). reflexivity.
Qed.

(** The call that supplies the last required argument ends as the direct
    call of the function on all the arguments, unless a method raises a
    [TypeError]. *)
Lemma call_positional_last (fid : nat) (wrap : bool) (b : value)
    (hidden acc last : list value) (t : value) :
  wf_fundef (defs fid) = true ->
  missing_kwonly (defs fid) [] = [] ->
  target_of fid b hidden ->
  chain_target b acc t ->
  List.length hidden + List.length acc + List.length last
  = fn_nrequired (defs fid) ->
  hidden = []
  \/ (forall e, snd (call b (acc ++ last) []) = Raise e ->
                is_TypeError e = false) ->
  snd (call (VCurryWrapped t wrap) last [])
  = snd (call b (acc ++ last) []).
Proof.
  intros Hwf Hk Hb Ht Hlen Hcase.
  destruct (chain_target_call fid b hidden acc t last Hb Ht)
    as [Hcall [Hdirect Hacc]].
  rewrite (target_call fid b hidden (acc ++ last) [] Hb).
  rewrite (target_call fid b hidden (acc ++ last) [] Hb) in Hcase.
  destruct Hcase as [-> | Hcase].
  - cbn [app] in *. simpl in Hlen.
    destruct (py_bind_positional_complete (defs fid) (acc ++ last))
      as [env Hbind]; [rewrite length_app; exact Hlen | exact Hk |].
    destruct (inspector_complete fid (acc ++ last) [] env Hwf Hbind)
      as [spec [Hs Hn]].
    rewrite <- (target_getfullargspec fid b [] _ _ Hb) in Hs.
    destruct (call (VFunction fid) (acc ++ last) []) as [tr r] eqn:E.
    apply (closure_transparent t wrap last [] tr r spec); auto.
    rewrite Hacc. exact Hs.
  - rewrite <- Hdirect. apply closure_passes. rewrite Hdirect. exact Hcase.
Qed.

Lemma concat_nonempty (groups : list (list value)) :
  groups <> [] ->
  Forall (fun g => g <> []) groups ->
  0 < List.length (List.concat groups).
Proof.
  intros Hne Hall. destruct groups as [| g rest]; [congruence |].
  inversion Hall as [| ? ? Hg _]; subst. simpl. rewrite length_app.
  destruct g; [congruence | simpl; lia].
Qed.


(** ** [curry_new] *)

(** The call of [update_argspec] that [curry_new] makes passes four
    positional arguments to a function of three parameters. *)
Lemma call_update_argspec_raises (a0 a1 a2 a3 : value) :
  call_update_argspec [a0; a1; a2; a3] []
  = Raise (type_error (TooManyPositional "update_argspec" 3 4)).
Proof. reflexivity. Qed.

(** So a value curried by [curry_new] returns only what the direct call
    returns: it never returns a curried value of its own. *)
Lemma curry_new_never_curries (f : value) (argspec : option FullArgSpec)
    (args : list value) (kwargs : dict) (x : value) :
  snd (call (VCurryNewWrapped f argspec) args kwargs) = Return x ->
  snd (call f args kwargs) = Return x.
Proof.
  simpl. destruct (call f args kwargs) as [t [y | e]]; [auto |].
  destruct (is_TypeError e); [| auto].
  destruct argspec as [spec |]; [auto |].
  destruct (getfullargspec f) as [spec | e']; [auto |].
  simpl. discriminate.
Qed.

(** A [TypeError] raised by the body of a [def] function that the
    interpreter has bound passes through the curried function. *)
Lemma curry_reraises_body_failure (fid : nat) (wrap : bool) (c : value)
    (args : list value) (kwargs env : dict) (e : exn) :
  wf_fundef (defs fid) = true ->
  curry (VFunction fid) wrap = Return c ->
  py_bind (defs fid) args kwargs = Return env ->
  body fid env = Raise e ->
  is_TypeError e = true ->
  call c args kwargs
  = ([EvBody fid env; EvInspect (VPartial (VFunction fid) args kwargs)],
     Raise e).
Proof.
  intros Hwf Hc Hb He Ht.
  destruct (py_bind_accepted _ _ _ _ Hwf Hb) as [arguments Hbind].
  apply (curry_reraises_bound (VFunction fid) wrap c args kwargs
           (VFunction fid) args kwargs
           (signature_from_function (defs fid)) arguments
           [EvBody fid env] e); auto.
  - apply wf_fundef_signature. exact Hwf.
  - simpl. rewrite Hb, He. reflexivity.
Qed.

End Engine.

(** * The engine on the example program *)

Section Runs.

Import Example.

(** C7 (the incremental updater against the inspector).  On
    [addThree(x, y, z)] called with [(1)], [curry] returns a curried value
    and [curry_new] raises the [TypeError] of the direct call: the call
    [update_argspec("foo", argspec, args, kwargs)] passes four arguments to
    a function of three parameters, and the [TypeError] it raises is taken
    for an invalid binding.  Called with its three parameters,
    [update_argspec] raises as well, since the function has no default,
    where the inspector returns the residual specification. *)
Theorem curry_new_disagrees_with_curry :
  snd (call (curried addThree) [VInt 1] [])
  = Return (curried (VPartial addThree [VInt 1] []))
  /\ snd (call (curried_new addThree) [VInt 1] [])
     = Raise (type_error (MissingPositional "addThree" ["y"; "z"]))
  /\ getfullargspec addThree = Return addThree_spec
  /\ call_update_argspec
       [VStr "foo"; VArgSpec addThree_spec; VTuple [VInt 1]; VDict []] []
     = Raise (type_error (TooManyPositional "update_argspec" 3 4))
  /\ update_argspec addThree_spec [VInt 1] []
     = Raise (type_error (Msg "'NoneType' object is not subscriptable"))
  /\ getfullargspec (VPartial addThree [VInt 1] []) = Return addThree_1_spec
  /\ count_required_arguments addThree_1_spec = 2%Z.
Proof. repeat split; reflexivity. Qed.

(** C1 (disambiguation on full binding) fails on a bound method.  The call
    [adder.add(1, "h")] supplies both arguments and raises a [TypeError] in
    the body.  [getfullargspec] reports the first parameter of a bound
    method, so on [partial(adder.add, 1, "h")] it binds [self] and [x] and
    leaves [y] required: [curry(adder.add)(1, "h")] returns a curried value
    where the failure should come out.  The same call on the function
    [addThree], with its three arguments, raises the failure of the body. *)
Theorem curry_method_failure_not_reraised :
  call adder_add [VInt 1; VStr "h"] []
  = ([EvBody 3 [("self", adder); ("x", VInt 1); ("y", VStr "h")]],
     Raise unsupported_operand)
  /\ is_TypeError unsupported_operand = true
  /\ sig_bind false [mkParam "x" POSITIONAL_OR_KEYWORD None;
                     mkParam "y" POSITIONAL_OR_KEYWORD None]
        [VInt 1; VStr "h"] []
     = Return [("x", VInt 1); ("y", VStr "h")]
  /\ inspect_signature defs builtins adder_add
     = Return [mkParam "x" POSITIONAL_OR_KEYWORD None;
               mkParam "y" POSITIONAL_OR_KEYWORD None]
  /\ getfullargspec (VPartial adder_add [VInt 1; VStr "h"] [])
     = Return (mkFullArgSpec ["y"] None None None [] None [])
  /\ call (curried adder_add) [VInt 1; VStr "h"] []
     = ([EvBody 3 [("self", adder); ("x", VInt 1); ("y", VStr "h")];
         EvInspect (VPartial adder_add [VInt 1; VStr "h"] [])],
        Return (curried (VPartial adder_add [VInt 1; VStr "h"] [])))
  /\ call (curried addThree) [VInt 1; VStr "h"; VInt 3] []
     = ([EvBody 0 [("x", VInt 1); ("y", VStr "h"); ("z", VInt 3)];
         EvInspect (VPartial addThree [VInt 1; VStr "h"; VInt 3] [])],
        Raise unsupported_operand).
Proof. repeat split; reflexivity. Qed.

(** C5 (invalid calls are rejected) fails on a bound method.  The call
    [adder.add(1, x=5)] gives [x] twice and the interpreter rejects it.  On
    [partial(adder.add, 1, x=5)] the inspector binds [self] to [1] and [x]
    to [5] and leaves [y] required: [curry(adder.add)(1, x=5)] returns a
    curried value.  The same mistake on the function [addThree] is
    rejected with the interpreter's failure. *)
Theorem curry_method_duplicate_not_rejected :
  call adder_add [VInt 1] [("x", VInt 5)]
  = ([], Raise (type_error (MultipleValues "add" "x")))
  /\ getfullargspec (VPartial adder_add [VInt 1] [("x", VInt 5)])
     = Return (mkFullArgSpec [] None None None ["x"; "y"]
                 (Some [("x", VInt 5)]) [])
  /\ call (curried adder_add) [VInt 1] [("x", VInt 5)]
     = ([EvInspect (VPartial adder_add [VInt 1] [("x", VInt 5)])],
        Return (curried (VPartial adder_add [VInt 1] [("x", VInt 5)])))
  /\ call (curried addThree) [VInt 1] [("x", VInt 5)]
     = ([EvInspect (VPartial addThree [VInt 1] [("x", VInt 5)])],
        Raise (type_error (MultipleValues "addThree" "x"))).
Proof. repeat split; reflexivity. Qed.






Lemma curry_not_callable_witness :
  curry (VInt 5) true
  = Raise (mkExn TypeError (Msg "'int' object is not callable"))
  /\ curry_new (VInt 5) None = curry (VInt 5) true
  /\ (forall c, curry (VInt 5) true <> Return c)
  /\ (forall c, curry_new (VInt 5) None <> Return c).
Proof. apply (curry_not_callable (VInt 5) true None). reflexivity. Defined.



End Runs.

(** * Further properties of the engine *)

(** ** Calls the interpreter rejects as invalid *)

Lemma check_keywords_rejected (fd : fundef) (npos : nat) (kwargs : dict)
    (e : exn) :
  check_keywords fd npos kwargs = Some e ->
  exists k,
    dict_mem k kwargs = true
    /\ (mem_string k (firstn npos (fn_args fd)) = true
        \/ (mem_string k (fn_args fd ++ fn_kwonlyargs fd) = false
            /\ fn_varkw fd = None)).
Proof.
  induction kwargs as [| [k v] kwargs IH]; simpl; [discriminate |].
  intros H.
  assert (Hrest : (exists k0, dict_mem k0 kwargs = true
             /\ (mem_string k0 (firstn npos (fn_args fd)) = true
                 \/ (mem_string k0 (fn_args fd ++ fn_kwonlyargs fd) = false
                     /\ fn_varkw fd = None))) ->
          exists k0, dict_mem k0 ((k, v) :: kwargs) = true
             /\ (mem_string k0 (firstn npos (fn_args fd)) = true
                 \/ (mem_string k0 (fn_args fd ++ fn_kwonlyargs fd) = false
                     /\ fn_varkw fd = None))).
  { intros [k0 [Hm Hc]]. exists k0. split; [| exact Hc].
    rewrite dict_mem_cons, Hm. apply orb_true_r. }
  assert (Hhere : dict_mem k ((k, v) :: kwargs) = true).
  { rewrite dict_mem_cons, String.eqb_refl. reflexivity. }
  destruct (mem_string k (fn_args fd ++ fn_kwonlyargs fd)) eqn:E1.
  - destruct (mem_string k (firstn npos (fn_args fd))) eqn:E2.
    + exists k. split; [exact Hhere | left; exact E2].
    + apply Hrest, IH, H.
  - destruct (fn_varkw fd) eqn:E3.
    + apply Hrest, IH, H.
    + exists k. split; [exact Hhere | right; split; [exact E1 | reflexivity]].
Qed.

Lemma positional_parameters_named (fd : fundef) (k : string)
    (names : list string) :
  forall n i,
    In k (firstn n names) ->
    exists p, In p (firstn n (positional_parameters fd i names))
              /\ p_name p = k.
Proof.
  induction names as [| x names IH]; intros n i Hin.
  - destruct n; simpl in Hin; contradiction.
  - destruct n; simpl in *; [contradiction |].
    destruct Hin as [-> | Hin].
    + eexists. split; [left; reflexivity | reflexivity].
    + destruct (IH n (S i) Hin) as [p [Hp Hn]]. exists p. auto.
Qed.

Lemma signature_no_var_positional (fd : fundef) :
  fn_varargs fd = None ->
  existsb is_var_positional (signature_from_function fd) = false.
Proof.
  intros Hv. unfold signature_from_function. rewrite Hv, !existsb_app.
  simpl.
  assert (H1 : forall names i,
             existsb is_var_positional (positional_parameters fd i names)
             = false).
  { induction names as [| n names IH]; intros i; simpl; auto. }
  assert (H2 : forall l,
             existsb is_var_positional
               (map (fun n => mkParam n KEYWORD_ONLY
                                (dict_get n (fn_kwdefaults fd))) l) = false).
  { induction l as [| n l IH]; simpl; auto. }
  rewrite H1, H2. destruct (fn_varkw fd); reflexivity.
Qed.

Lemma signature_no_var_keyword (fd : fundef) :
  fn_varkw fd = None ->
  existsb is_var_keyword (signature_from_function fd) = false.
Proof.
  intros Hv. unfold signature_from_function. rewrite Hv, !existsb_app.
  simpl.
  assert (H1 : forall names i,
             existsb is_var_keyword (positional_parameters fd i names)
             = false).
  { induction names as [| n names IH]; intros i; simpl; auto. }
  assert (H2 : forall l,
             existsb is_var_keyword
               (map (fun n => mkParam n KEYWORD_ONLY
                                (dict_get n (fn_kwdefaults fd))) l) = false).
  { induction l as [| n l IH]; simpl; auto. }
  rewrite H1, H2. destruct (fn_varargs fd); reflexivity.
Qed.

Lemma signature_rejects_keyword (fd : fundef) (k : string) :
  mem_string k (fn_args fd ++ fn_kwonlyargs fd) = false ->
  accepts_keyword (signature_from_function fd) k = false.
Proof.
  intros H. destruct (accepts_keyword (signature_from_function fd) k) eqn:E;
    [| reflexivity].
  apply accepts_keyword_exists in E. destruct E as [q [Hq [Hv Hn]]].
  assert (Hin : In k (fn_args fd ++ fn_kwonlyargs fd)).
  { rewrite <- signature_named_parameters. subst k. apply in_map.
    apply filter_In. split; [exact Hq | rewrite Hv; reflexivity]. }
  apply mem_string_In in Hin. congruence.
Qed.

(** The converse of [py_bind_invalid]: a call the interpreter rejects as
    invalid is an invalid binding of the signature. *)
Lemma py_bind_rejected (fd : fundef) (args : list value) (kwargs : dict)
    (e : exn) :
  py_bind fd args kwargs = Raise e ->
  is_invalid_call_error e = true ->
  invalid_binding (signature_from_function fd) args kwargs.
Proof.
  unfold py_bind.
  destruct (check_keywords fd (List.length args) kwargs) as [e0 |] eqn:Hck.
  - intros _ _.
    destruct (check_keywords_rejected _ _ _ _ Hck) as [k [Hk [Hd | [Hn Hv]]]].
    + apply mem_string_In in Hd.
      destruct (positional_parameters_named fd k (fn_args fd)
                  (List.length args) 0 Hd) as [p [Hp Hpn]].
      apply (duplicated_argument _ _ _ p).
      * rewrite signature_positional_prefix. exact Hp.
      * rewrite Hpn. exact Hk.
    + apply (unexpected_keyword _ _ _ k Hk).
      * apply signature_no_var_keyword. exact Hv.
      * apply signature_rejects_keyword. exact Hn.
  - destruct ((List.length (fn_args fd) <? List.length args)
              && match fn_varargs fd with None => true | Some _ => false end)
      eqn:Hmany.
    + intros _ _. apply andb_true_iff in Hmany. destruct Hmany as [Hl Hv].
      apply too_many_positional.
      * apply signature_no_var_positional.
        destruct (fn_varargs fd); [discriminate | reflexivity].
      * rewrite signature_positional_count. apply Nat.ltb_lt. exact Hl.
    + destruct (missing_positional fd (List.length args) kwargs 0 (fn_args fd)).
      * destruct (missing_kwonly fd kwargs); intros H He;
          [discriminate H | inversion H; subst; discriminate He].
      * intros H He. inversion H; subst; discriminate He.
Qed.

Lemma py_bind_raises_TypeError (fd : fundef) (args : list value)
    (kwargs : dict) (e : exn) :
  py_bind fd args kwargs = Raise e -> is_TypeError e = true.
Proof.
  unfold py_bind.
  destruct (check_keywords fd (List.length args) kwargs) as [e0 |] eqn:Hck.
  - intros H. inversion H. subst.
    apply invalid_call_error_TypeError.
    eapply check_keywords_invalid; eauto.
  - destruct ((List.length (fn_args fd) <? List.length args)
              && match fn_varargs fd with None => true | Some _ => false end).
    + intros H. inversion H. reflexivity.
    + destruct (missing_positional fd (List.length args) kwargs 0 (fn_args fd)).
      * destruct (missing_kwonly fd kwargs); intros H;
          [discriminate H | inversion H; reflexivity].
      * intros H. inversion H. reflexivity.
Qed.

(** ** Merging keywords *)

Lemma dict_update_cons (d : dict) (k : string) (v : value) (d2 : dict) :
  dict_update d ((k, v) :: d2) = dict_update (dict_set d k v) d2.
Proof. reflexivity. Qed.

Lemma dict_set_fresh (d : dict) (k : string) (v : value) :
  mem_string k (dict_keys d) = false -> dict_set d k v = d ++ [(k, v)].
Proof.
  induction d as [| [k' v'] d IH]; simpl; [reflexivity |].
  intros H. apply orb_false_iff in H. destruct H as [-> H].
  rewrite IH by exact H. reflexivity.
Qed.

Lemma dict_update_fresh (d2 : dict) :
  forall d1,
    distinct (dict_keys d2) = true ->
    (forall k, mem_string k (dict_keys d2) = true ->
               mem_string k (dict_keys d1) = false) ->
    dict_update d1 d2 = d1 ++ d2.
Proof.
  induction d2 as [| [k v] d2 IH]; intros d1 Hd Hf.
  - symmetry. apply app_nil_r.
  - rewrite dict_update_cons. simpl in Hd. apply andb_true_iff in Hd.
    destruct Hd as [Hk Hd]. apply negb_true_iff in Hk.
    rewrite dict_set_fresh.
    + rewrite IH; [rewrite <- app_assoc; reflexivity | exact Hd |].
      intros k0 Hk0. unfold dict_keys. rewrite map_app, mem_string_app.
      simpl. rewrite orb_false_r. apply orb_false_iff. split.
      * apply Hf. simpl. rewrite Hk0. apply orb_true_r.
      * destruct (String.eqb k0 k) eqn:E; [| reflexivity].
        apply String.eqb_eq in E. subst k0.
        unfold dict_keys, mem_string in *. simpl in *. congruence.
    + apply Hf. simpl. rewrite String.eqb_refl. reflexivity.
Qed.

(** [{**{}, **d}] is [d]: the keys of a dictionary are distinct. *)
Lemma dict_update_nil (d : dict) :
  distinct (dict_keys d) = true -> dict_update [] d = d.
Proof.
  intros H. apply (dict_update_fresh d [] H). reflexivity.
Qed.

(** ** The currying step, call by call *)

Section Chains.

Variable defs : nat -> fundef.
Variable body : nat -> dict -> outcome value.
Variable builtins : nat -> builtin.
Variable builtin_call : nat -> list value -> dict -> outcome value.

Local Abbreviation call := (call defs body builtins builtin_call).
Local Abbreviation feed := (feed defs body builtins builtin_call).
Local Abbreviation signature := (signature defs builtins).
Local Abbreviation getfullargspec := (getfullargspec defs builtins).

(** One call of the closure of a curried [def] function, or of a partial
    object of one. *)
Lemma closure_step_function (fid : nat) (wrap : bool) (t : value)
    (args : list value) (kwargs : dict) (a : list value) (k : dict) :
  wf_fundef (defs fid) = true ->
  accumulated t args kwargs = VPartial (VFunction fid) a k ->
  snd (call (VCurryWrapped t wrap) args kwargs)
  = if needs_more (defs fid) a k
    then curry (VPartial (VFunction fid) a k) wrap
    else snd (call (VFunction fid) a k).
Proof.
  intros Hwf Hacc.
  assert (Hcall : callable t = true).
  { unfold accumulated in Hacc. destruct t; inversion Hacc; reflexivity. }
  pose proof (call_accumulated defs body builtins builtin_call _ _ _ _ _ _ Hacc)
    as Hdirect.
  unfold needs_more.
  simpl. rewrite Hdirect. simpl.
  destruct (py_bind (defs fid) a k) as [env | e] eqn:Hb.
  - destruct (body fid env) as [x | e] eqn:Hbody; [reflexivity |].
    destruct (is_TypeError e) eqn:He; [| reflexivity].
    rewrite (functools_partial_callable _ _ _ Hcall), Hacc.
    destruct (inspector_complete defs builtins fid a k env Hwf Hb)
      as [spec [Hs Hn]].
    rewrite Hs, Hn. reflexivity.
  - rewrite (py_bind_raises_TypeError _ _ _ _ Hb).
    rewrite (functools_partial_callable _ _ _ Hcall), Hacc.
    destruct (is_invalid_call_error e) eqn:He; cbn [negb].
    + rewrite (getfullargspec_invalid defs builtins (VFunction fid) a k
                 (signature_from_function (defs fid)) eq_refl
                 (py_bind_rejected _ _ _ _ Hb He)).
      reflexivity.
    + destruct (inspector_incomplete defs builtins fid a k e Hwf Hb He)
        as [spec [Hs Hn]].
      rewrite Hs. apply Z.ltb_lt in Hn. rewrite Hn. reflexivity.
Qed.


Lemma call_curry_value (fp : value) (wrap : bool) (args : list value)
    (kwargs : dict) :
  call (if wrap then VWrapped fp (VCurryWrapped fp wrap)
        else VCurryWrapped fp wrap) args kwargs
  = call (VCurryWrapped fp wrap) args kwargs.
Proof. destruct wrap; reflexivity. Qed.


Lemma feed_chain_function (fid : nat) (wrap : bool) :
  wf_fundef (defs fid) = true ->
  forall (rest : list (list value * dict)) (a : list value) (k : dict)
         (t : value) (args : list value) (kwargs : dict),
    accumulated t args kwargs = VPartial (VFunction fid) a k ->
    (forall pre post,
        rest = pre ++ post -> post <> [] ->
        needs_more (defs fid) (fst (gathered a k pre))
          (snd (gathered a k pre)) = true) ->
    snd (feed (VCurryWrapped t wrap) ((args, kwargs) :: rest))
    = if needs_more (defs fid) (fst (gathered a k rest))
           (snd (gathered a k rest))
      then curry (VPartial (VFunction fid) (fst (gathered a k rest))
                    (snd (gathered a k rest))) wrap
      else snd (call (VFunction fid) (fst (gathered a k rest))
                  (snd (gathered a k rest))).
Proof.
  intros Hwf. induction rest as [| [args' kwargs'] rest IH];
    intros a k t args kwargs Hacc Hpre.
  - rewrite feed_single. simpl gathered. simpl fst. simpl snd.
    apply closure_step_function; assumption.
  - pose proof (closure_step_function
                  fid wrap t args kwargs a k Hwf Hacc) as Hstep.
    assert (Hmore : needs_more (defs fid) a k = true)
      by (apply (Hpre [] ((args', kwargs') :: rest) eq_refl); discriminate).
    rewrite Hmore in Hstep.
    set (fp := VPartial (VFunction fid) a k) in *.
    assert (Hfp : curry fp wrap
                  = Return (if wrap then VWrapped fp (VCurryWrapped fp wrap)
                            else VCurryWrapped fp wrap)) by reflexivity.
    rewrite Hfp in Hstep.
    destruct (call (VCurryWrapped t wrap) args kwargs) as [tr r] eqn:E.
    simpl in Hstep. subst r.
    rewrite (feed_cons_return defs body builtins builtin_call _ _ _ _ _ _ E).
    rewrite (feed_curry defs body builtins builtin_call fp wrap _ _ Hfp)
      by discriminate.
    simpl gathered.
    apply (IH (a ++ args') (dict_update k kwargs') fp args' kwargs').
    + reflexivity.
    + intros pre post Erest Hpost.
      apply (Hpre ((args', kwargs') :: pre) post); [| exact Hpost].
      simpl. rewrite Erest. reflexivity.
Qed.




(** X6 (a call without arguments changes nothing).  When [f()] raises a
    [TypeError] and arguments are still required, [curry(f)()] is a curried
    value that behaves as [curry(f)]: a chain of calls that starts with an
    empty call ends as the chain without it. *)
Theorem curry_empty_call_neutral (f : value) (wrap : bool) (c : value)
    (args : list value) (kwargs : dict) (rest : list (list value * dict))
    (e : exn) (spec : FullArgSpec) :
  curry f wrap = Return c ->
  snd (call f [] []) = Raise e ->
  is_TypeError e = true ->
  getfullargspec (accumulated f [] []) = Return spec ->
  (0 < count_required_arguments spec)%Z ->
  distinct (dict_keys kwargs) = true ->
  snd (feed c (([], []) :: (args, kwargs) :: rest))
  = snd (feed c ((args, kwargs) :: rest)).
Proof.
  intros Hc Hf He Hs Hn Hd.
  assert (Hcall : callable f = true) by (apply curry_inv in Hc; tauto).
  destruct (call f [] []) as [t r] eqn:E. simpl in Hf. subst r.
  pose proof (closure_curries defs body builtins builtin_call f wrap [] []
                t e spec Hcall E He Hs Hn) as Hstep.
  rewrite curry_accumulated in Hstep.
  rewrite <- (call_curried defs body builtins builtin_call _ _ _ _ _ Hc)
    in Hstep.
  rewrite (feed_cons_return defs body builtins builtin_call _ _ _ _ _ _ Hstep).
  set (fp := accumulated f [] []).
  assert (Hsame : call (if wrap then VWrapped fp (VCurryWrapped fp wrap)
                        else VCurryWrapped fp wrap) args kwargs
                  = call c args kwargs).
  { rewrite call_curry_value.
    rewrite (call_curried defs body builtins builtin_call _ _ _ _ _ Hc).
    assert (Ht : call fp args kwargs = call f args kwargs).
    { unfold fp, accumulated. destruct f; simpl;
        rewrite ?(dict_update_nil _ Hd), ?app_nil_r; reflexivity. }
    assert (Ha : accumulated fp args kwargs = accumulated f args kwargs).
    { unfold fp, accumulated. destruct f; simpl;
        rewrite ?(dict_update_nil _ Hd), ?app_nil_r; reflexivity. }
    assert (Hp : functools_partial fp args kwargs
                 = functools_partial f args kwargs).
    { unfold functools_partial. rewrite Ha, Hcall.
      unfold fp, accumulated. destruct f; reflexivity. }
    simpl. rewrite Ht, Hp. reflexivity. }
  simpl. rewrite Hsame. reflexivity.
Qed.


(** The inspector on a partial object of a target none of whose parameters
    is required: it fails, or it counts nothing. *)
Lemma getfullargspec_optional (g : value) (a : list value) (k : dict)
    (sig : Signature) :
  signature false g = Return sig ->
  wf_signature sig = true ->
  (forall p, In p sig -> is_optional p = true) ->
  getfullargspec (VPartial g a k) = Raise unsupported_callable
  \/ exists spec,
       getfullargspec (VPartial g a k) = Return spec
       /\ count_required_arguments spec = 0%Z.
Proof.
  intros Hsig Hwf Hopt. apply distinct_NoDup in Hwf.
  unfold getfullargspec. simpl. rewrite Hsig. simpl.
  unfold signature_get_partial.
  destruct (sig_bind true sig a k) as [arguments | e]; [| left; reflexivity].
  right. eexists. split; [reflexivity |].
  apply count_required_all_optional. intros r' Hin.
  destruct (partial_signature_entry _ _ _ _ Hwf Hin) as [q [tr [Hq Hr]]].
  eapply partial_result_optional; [| exact Hr].
  specialize (Hopt q Hq). unfold is_optional in Hopt.
  apply orb_true_iff in Hopt. tauto.
Qed.

Lemma closure_optional (f : value) (wrap : bool) (args : list value)
    (kwargs : dict) (g : value) (a : list value) (k : dict)
    (sig : Signature) :
  callable f = true ->
  accumulated f args kwargs = VPartial g a k ->
  signature false g = Return sig ->
  wf_signature sig = true ->
  (forall p, In p sig -> is_optional p = true) ->
  snd (call (VCurryWrapped f wrap) args kwargs) = snd (call f args kwargs).
Proof.
  intros Hcall Hacc Hsig Hwf Hopt. simpl.
  destruct (call f args kwargs) as [t [x | e]]; [reflexivity |].
  destruct (is_TypeError e); [| reflexivity].
  rewrite (functools_partial_callable _ _ _ Hcall), Hacc.
  destruct (getfullargspec_optional g a k sig Hsig Hwf Hopt)
    as [-> | [spec [-> ->]]]; reflexivity.
Qed.


Lemma feed_outcome_congruence (v1 v2 : value) (args : list value)
    (kwargs : dict) (rest : list (list value * dict)) :
  snd (call v1 args kwargs) = snd (call v2 args kwargs) ->
  snd (feed v1 ((args, kwargs) :: rest))
  = snd (feed v2 ((args, kwargs) :: rest)).
Proof.
  simpl. destruct (call v1 args kwargs) as [t1 r1].
  destruct (call v2 args kwargs) as [t2 r2]. simpl. intros ->.
  destruct r2 as [x | e]; [| reflexivity].
  destruct (feed x rest). reflexivity.
Qed.

Lemma wrapped_signature_optional (p : Param) :
  In p wrapped_signature -> is_optional p = true.
Proof. intros [<- | [<- | []]]; reflexivity. Qed.

Lemma unbound_callable_signature (f : value) (b : bool) :
  unbound_callable f = true -> signature b f = signature false f.
Proof. destruct f; try discriminate; reflexivity. Qed.

Lemma call_closure (f : value) (wrap : bool) (args : list value)
    (kwargs : dict) :
  call (VCurryWrapped f wrap) args kwargs
  = match call f args kwargs with
    | (t, Return x) => (t, Return x)
    | (t, Raise e) =>
        if is_TypeError e then
          match functools_partial f args kwargs with
          | Raise e' => (t, Raise e')
          | Return fp =>
              match getfullargspec fp with
              | Raise _ => (t ++ [EvInspect fp], Raise e)
              | Return spec =>
                  if (0 <? count_required_arguments spec)%Z
                  then (t ++ [EvInspect fp], curry fp wrap)
                  else (t ++ [EvInspect fp], Raise e)
              end
          end
        else (t, Raise e)
    end.
Proof.
  simpl. destruct (call f args kwargs) as [t [x | e]]; reflexivity.
Qed.

(** When the closure raises a [TypeError], the inspector has failed or has
    counted nothing. *)
Lemma closure_raises (f : value) (wrap : bool) (args : list value)
    (kwargs : dict) (t : trace) (e : exn) :
  callable f = true ->
  call (VCurryWrapped f wrap) args kwargs = (t, Raise e) ->
  is_TypeError e = true ->
  (exists e', getfullargspec (accumulated f args kwargs) = Raise e')
  \/ exists spec,
       getfullargspec (accumulated f args kwargs) = Return spec
       /\ (0 <? count_required_arguments spec)%Z = false.
Proof.
  intros Hcall H He. rewrite call_closure in H.
  rewrite (functools_partial_callable _ _ _ Hcall) in H.
  destruct (call f args kwargs) as [t0 [x | e0]]; [discriminate H |].
  destruct (is_TypeError e0) eqn:He0.
  - destruct (getfullargspec (accumulated f args kwargs)) as [spec | e'];
      [| left; eauto].
    destruct (0 <? count_required_arguments spec)%Z eqn:Hn;
      [| right; eauto].
    rewrite curry_accumulated in H. discriminate H.
  - inversion H. subst. congruence.
Qed.



End Chains.

(** * The incremental updater and the count on [def] functions *)

(** *** The [FullArgSpec] of positional parameters followed by others *)

Lemma argspec_fold_positional (X : Signature) :
  forall a,
    forallb is_positional X = true ->
    fold_left argspec_step X a
    = mkAcc (acc_args a ++ map p_name X) (acc_varargs a) (acc_varkw a)
        (acc_defaults a ++ defaults_of X) (acc_kwonlyargs a)
        (acc_kwdefaults a).
Proof.
  induction X as [| p X IH]; intros a H; simpl.
  - rewrite !app_nil_r. destruct a; reflexivity.
  - simpl in H. apply andb_true_iff in H. destruct H as [Hp H].
    rewrite (IH _ H). unfold argspec_step, is_positional in *.
    destruct (p_kind p); try discriminate Hp. simpl.
    rewrite <- !app_assoc. simpl.
    destruct (p_default p); simpl; rewrite <- ?app_assoc; reflexivity.
Qed.

Lemma argspec_fold_tail (T : Signature) :
  forall a,
    existsb is_positional T = false ->
    fold_left argspec_step T a
    = let r := fold_left argspec_step T
                 (mkAcc [] (acc_varargs a) (acc_varkw a) []
                    (acc_kwonlyargs a) (acc_kwdefaults a)) in
      mkAcc (acc_args a) (acc_varargs r) (acc_varkw r) (acc_defaults a)
        (acc_kwonlyargs r) (acc_kwdefaults r).
Proof.
  induction T as [| p T IH]; intros a H; simpl.
  - destruct a; reflexivity.
  - simpl in H. apply orb_false_iff in H. destruct H as [Hp H].
    rewrite (IH _ H). symmetry. rewrite (IH _ H). symmetry.
    unfold argspec_step, is_positional in *.
    destruct (p_kind p); try discriminate Hp; reflexivity.
Qed.

Lemma fullargspec_positional_tail (X T : Signature) :
  forallb is_positional X = true ->
  existsb is_positional T = false ->
  fullargspec_of_signature (X ++ T)
  = let r := fold_left argspec_step T (mkAcc [] None None [] [] []) in
    mkFullArgSpec (map p_name X) (acc_varargs r) (acc_varkw r)
      (match defaults_of X with [] => None | d => Some d end)
      (acc_kwonlyargs r)
      (match acc_kwdefaults r with [] => None | d => Some d end)
      [].
Proof.
  intros HX HT. unfold fullargspec_of_signature.
  rewrite fold_left_app, (argspec_fold_positional X _ HX).
  rewrite (argspec_fold_tail T _ HT). reflexivity.
Qed.

(** *** The positional parameters of a [def] function from an index on *)

Lemma positional_parameters_skipn (fd : fundef) (names : list string) :
  forall n i,
    skipn n (positional_parameters fd i names)
    = positional_parameters fd (i + n) (skipn n names).
Proof.
  induction names as [| x names IH]; intros n i.
  - destruct n; reflexivity.
  - destruct n; simpl.
    + rewrite Nat.add_0_r. reflexivity.
    + rewrite IH. f_equal. lia.
Qed.

Lemma skipn_nth_error {A : Type} (l : list A) :
  forall j d, nth_error l j = Some d -> skipn j l = d :: skipn (S j) l.
Proof.
  induction l as [| x l IH]; intros [| j] d H; simpl in *; try discriminate.
  - inversion H. reflexivity.
  - rewrite (IH j d H). destruct l; reflexivity.
Qed.

Lemma positional_parameters_defaults (fd : fundef) (names : list string) :
  forall i,
    List.length (fn_args fd)
    = fn_nrequired fd + List.length (fn_defaults fd) ->
    i + List.length names = List.length (fn_args fd) ->
    defaults_of (positional_parameters fd i names)
    = skipn (i - fn_nrequired fd) (fn_defaults fd).
Proof.
  induction names as [| x names IH]; intros i Hwf Hlen.
  - cbn [List.length] in Hlen. symmetry. apply skipn_all2. lia.
  - cbn [List.length] in Hlen. unfold defaults_of in *.
    cbn [positional_parameters flat_map p_default].
    rewrite (IH (S i) Hwf) by lia.
    unfold fn_default_at.
    destruct (i <? fn_nrequired fd) eqn:E.
    + apply Nat.ltb_lt in E. cbn [app].
      replace (S i - fn_nrequired fd) with 0 by lia.
      replace (i - fn_nrequired fd) with 0 by lia. reflexivity.
    + apply Nat.ltb_ge in E.
      destruct (nth_error (fn_defaults fd) (i - fn_nrequired fd)) as [d |]
        eqn:N.
      * cbn [app]. rewrite (skipn_nth_error _ _ _ N).
        replace (S i - fn_nrequired fd) with (S (i - fn_nrequired fd)) by lia.
        reflexivity.
      * apply nth_error_None in N. lia.
Qed.

(** The [FullArgSpec] of a [def] function whose first [n] positional
    parameters are dropped. *)
Lemma fullargspec_function_skipn (fd : fundef) (n : nat) :
  wf_fundef fd = true ->
  n <= List.length (fn_args fd) ->
  fullargspec_of_signature
    (skipn n (positional_parameters fd 0 (fn_args fd)) ++ signature_tail fd)
  = let r := fold_left argspec_step (signature_tail fd)
               (mkAcc [] None None [] [] []) in
    mkFullArgSpec (skipn n (fn_args fd)) (acc_varargs r) (acc_varkw r)
      (match skipn (n - fn_nrequired fd) (fn_defaults fd) with
       | [] => None
       | d => Some d
       end)
      (acc_kwonlyargs r)
      (match acc_kwdefaults r with [] => None | d => Some d end)
      [].
Proof.
  intros Hwf Hn. rewrite positional_parameters_skipn. simpl.
  rewrite fullargspec_positional_tail;
    [| apply positional_parameters_kind | apply signature_tail_not_positional].
  rewrite positional_parameters_names.
  rewrite positional_parameters_defaults;
    [reflexivity | apply wf_fundef_defaults; exact Hwf |].
  rewrite length_skipn. lia.
Qed.

Lemma signature_tail_varargs (fd : fundef) :
  acc_varargs (fold_left argspec_step (signature_tail fd)
                 (mkAcc [] None None [] [] []))
  = fn_varargs fd.
Proof.
  unfold signature_tail.
  assert (H : forall l a,
             acc_varargs (fold_left argspec_step
                (map (fun n => mkParam n KEYWORD_ONLY
                                 (dict_get n (fn_kwdefaults fd))) l
                 ++ option_parameter VAR_KEYWORD (fn_varkw fd)) a)
             = acc_varargs a).
  { induction l as [| x l IH]; intros a; simpl.
    - destruct (fn_varkw fd); reflexivity.
    - rewrite IH. reflexivity. }
  destruct (fn_varargs fd); simpl; rewrite H; reflexivity.
Qed.

(** *** [bind_partial] on positional arguments alone *)

Lemma bind_keywords_none (params : Signature) :
  forall (arguments : dict) (kp : option Param),
    exists kp',
      bind_keywords true params [] arguments kp
      = Return (arguments, [], kp').
Proof.
  induction params as [| p ps IH]; intros arguments kp; simpl.
  - eexists; reflexivity.
  - destruct (p_kind p); apply IH.
Qed.

(** The keys [bind_partial] binds by position: the names of the parameters
    the arguments fill and, when arguments are left over, the name of the
    var-positional parameter. *)
Lemma bind_positional_only (args : list value) :
  forall (X T : Signature) (arguments : dict),
    forallb is_positional X = true ->
    (List.length args <= List.length X
     \/ exists v tl, T = v :: tl /\ is_var_positional v = true) ->
    exists arguments' rest,
      bind_positional true (X ++ T) args [] arguments
      = Return (arguments', rest)
      /\ forall k,
           dict_mem k arguments'
           = dict_mem k arguments
             || mem_string k (map p_name (firstn (List.length args) X))
             || ((List.length X <? List.length args)
                 && match T with
                    | v :: _ => String.eqb k (p_name v)
                    | [] => false
                    end).
Proof.
  induction args as [| a args IH]; intros X T arguments HX Hfit.
  - exists arguments.
    assert (Hm : forall k,
               dict_mem k arguments
               = dict_mem k arguments
                 || mem_string k (map p_name (firstn 0 X))
                 || ((List.length X <? 0)
                     && match T with
                        | v :: _ => String.eqb k (p_name v)
                        | [] => false
                        end)).
    { intros k. simpl. rewrite !orb_false_r. reflexivity. }
    destruct (X ++ T) as [| p rest] eqn:E; cbn [bind_positional].
    + exists []. split; [reflexivity | exact Hm].
    + destruct (p_kind p); cbn [dict_mem dict_get];
        try destruct (has_default p); cbn [orb];
        eexists; (split; [reflexivity | exact Hm]).
  - destruct X as [| p X].
    + destruct Hfit as [Hfit | [v [tl [-> Hv]]]]; [simpl in Hfit; lia |].
      unfold is_var_positional in Hv. cbn [app bind_positional].
      destruct (p_kind v) eqn:K; try discriminate Hv.
      eexists. eexists. split; [reflexivity |].
      intros k. rewrite dict_mem_set. simpl.
      rewrite orb_false_r. apply orb_comm.
    + simpl in HX. apply andb_true_iff in HX. destruct HX as [Hp HX].
      unfold is_positional in Hp. cbn [app bind_positional].
      destruct (p_kind p) eqn:K; try discriminate Hp.
      cbn [dict_mem dict_get].
      destruct (IH X T (dict_set arguments (p_name p) a) HX) as
        [arguments' [rest [Hb Hm]]].
      { destruct Hfit as [Hfit | Hfit];
          [left; simpl in Hfit; lia | right; exact Hfit]. }
      exists arguments', rest. split; [exact Hb |].
      intros k. rewrite (Hm k), dict_mem_set.
      cbn [List.length firstn map mem_string existsb].
      change (existsb (String.eqb k) (map p_name (firstn (List.length args) X)))
        with (mem_string k (map p_name (firstn (List.length args) X))).
      change (S (List.length X) <? S (List.length args))
        with (List.length X <? List.length args).
      destruct (String.eqb k (p_name p)), (dict_mem k arguments),
        (mem_string k (map p_name (firstn (List.length args) X)));
        reflexivity.
Qed.

Lemma sig_bind_positional_only (args : list value) (X T : Signature) :
  forallb is_positional X = true ->
  (List.length args <= List.length X
   \/ exists v tl, T = v :: tl /\ is_var_positional v = true) ->
  exists arguments,
    sig_bind true (X ++ T) args [] = Return arguments
    /\ forall k,
         dict_mem k arguments
         = mem_string k (map p_name (firstn (List.length args) X))
           || ((List.length X <? List.length args)
               && match T with
                  | v :: _ => String.eqb k (p_name v)
                  | [] => false
                  end).
Proof.
  intros HX Hfit.
  destruct (bind_positional_only args X T [] HX Hfit)
    as [arguments [rest [Hb Hm]]].
  destruct (bind_keywords_none rest arguments None) as [kp Hk].
  exists arguments. split.
  - unfold sig_bind. rewrite Hb. simpl. rewrite Hk. reflexivity.
  - intros k. rewrite (Hm k). reflexivity.
Qed.

(** *** The loop of [_signature_get_partial] without keywords *)

Lemma partial_step_positional (arguments : dict) (ps : Signature)
    (q : Param) :
  (is_keyword_only q = true -> dict_mem (p_name q) arguments = false) ->
  partial_step arguments [] (ps, false) q
  = (if is_positional q && dict_mem (p_name q) arguments
     then params_pop (p_name q) ps else ps, false).
Proof.
  unfold partial_step, dict_mem, is_positional, is_keyword_only,
    transform_step.
  intros Hk.
  destruct (dict_get (p_name q) arguments) as [v |].
  - destruct (p_kind q); try reflexivity.
    specialize (Hk eq_refl). discriminate Hk.
  - rewrite andb_false_r. reflexivity.
Qed.

Lemma params_pop_absent (n : string) (l : Signature) :
  mem_string n (map p_name l) = false -> params_pop n l = l.
Proof.
  unfold params_pop. induction l as [| p l IH]; simpl; [reflexivity |].
  intros H. apply orb_false_iff in H. destruct H as [-> H].
  simpl. rewrite (IH H). reflexivity.
Qed.

Lemma fold_partial_unbound (arguments : dict) (todo : Signature) :
  forall ps,
    (forall q, In q todo ->
               (is_positional q || is_keyword_only q)
               && dict_mem (p_name q) arguments = false) ->
    fold_left (partial_step arguments []) todo (ps, false) = (ps, false).
Proof.
  induction todo as [| q todo IH]; intros ps H; cbn [fold_left];
    [reflexivity |].
  assert (Hq := H q (or_introl eq_refl)).
  rewrite partial_step_positional.
  - destruct (is_positional q); cbn [orb andb] in *.
    + rewrite Hq. apply IH. intros q' Hq'. apply H. right. exact Hq'.
    + apply IH. intros q' Hq'. apply H. right. exact Hq'.
  - intros Hk. rewrite Hk, orb_true_r in Hq. exact Hq.
Qed.

Lemma fold_partial_positional (arguments : dict) (T : Signature) :
  forall (X : Signature) (n : nat),
    distinct (map p_name (X ++ T)) = true ->
    forallb is_positional X = true ->
    (forall q, In q (X ++ T) ->
               is_positional q || is_keyword_only q = true ->
               dict_mem (p_name q) arguments
               = mem_string (p_name q) (map p_name (firstn n X))) ->
    fold_left (partial_step arguments []) (X ++ T) (X ++ T, false)
    = (skipn n X ++ T, false).
Proof.
  induction X as [| p X IH]; intros n Hd HX Hm.
  - rewrite skipn_nil. apply fold_partial_unbound.
    intros q Hq. destruct (is_positional q || is_keyword_only q) eqn:E;
      [| reflexivity].
    simpl. rewrite (Hm q Hq E). destruct n; reflexivity.
  - destruct n as [| n].
    + simpl skipn. apply fold_partial_unbound.
      intros q Hq. destruct (is_positional q || is_keyword_only q) eqn:E;
        [| reflexivity].
      simpl. rewrite (Hm q Hq E). reflexivity.
    + simpl in HX. apply andb_true_iff in HX. destruct HX as [Hp HX].
      cbn [app map distinct] in Hd. apply andb_true_iff in Hd.
      destruct Hd as [Hfresh Hd]. apply negb_true_iff in Hfresh.
      cbn [app fold_left]. rewrite partial_step_positional.
      * rewrite Hp. rewrite (Hm p (or_introl eq_refl))
          by (rewrite Hp; reflexivity).
        cbn [firstn map mem_string existsb]. rewrite String.eqb_refl.
        cbn [orb andb].
        assert (Epop : params_pop (p_name p) (p :: X ++ T) = X ++ T).
        { unfold params_pop. cbn [filter]. rewrite String.eqb_refl.
          cbn [negb]. apply (params_pop_absent _ _ Hfresh). }
        rewrite Epop. cbn [skipn]. apply IH; [exact Hd | exact HX |].
        intros q Hq E. rewrite (Hm q (or_intror Hq) E).
        cbn [firstn map mem_string existsb].
        destruct (String.eqb (p_name q) (p_name p)) eqn:En; [| reflexivity].
        apply String.eqb_eq in En. exfalso.
        assert (Hin : In (p_name p) (map p_name (X ++ T)))
          by (rewrite <- En; apply in_map; exact Hq).
        apply mem_string_In in Hin. congruence.
      * unfold is_keyword_only. unfold is_positional in Hp.
        destruct (p_kind p); discriminate.
Qed.

Lemma signature_split (fd : fundef) :
  signature_from_function fd
  = positional_parameters fd 0 (fn_args fd) ++ signature_tail fd.
Proof. reflexivity. Qed.

(** The signature of the partial object of a [def] function with
    positional arguments only: the parameters they fill are dropped. *)
Lemma signature_get_partial_positional (fd : fundef) (args : list value) :
  wf_fundef fd = true ->
  (List.length args <= List.length (fn_args fd) \/ fn_varargs fd <> None) ->
  signature_get_partial (signature_from_function fd) args []
  = Return (skipn (List.length args) (positional_parameters fd 0 (fn_args fd))
            ++ signature_tail fd).
Proof.
  intros Hwf Hfit.
  pose proof (wf_fundef_signature fd Hwf) as Hsig. unfold wf_signature in Hsig.
  rewrite signature_split in *.
  set (X := positional_parameters fd 0 (fn_args fd)) in *.
  set (T := signature_tail fd) in *.
  assert (HX : forallb is_positional X = true)
    by apply positional_parameters_kind.
  assert (HlenX : List.length X = List.length (fn_args fd))
    by apply positional_parameters_length.
  assert (Hfit' : List.length args <= List.length X
                  \/ exists v tl, T = v :: tl /\ is_var_positional v = true).
  { destruct Hfit as [Hfit | Hfit]; [left; lia | right].
    unfold T, signature_tail. destruct (fn_varargs fd) as [va |];
      [| congruence].
    simpl. eexists. eexists. split; reflexivity. }
  destruct (sig_bind_positional_only args X T HX Hfit')
    as [arguments [Hb Hm]].
  unfold signature_get_partial. rewrite Hb.
  refine (f_equal (fun r : Signature * bool => Return (fst r))
            (fold_partial_positional arguments T X (List.length args)
               Hsig HX _)).
  intros q Hq Hkind. rewrite (Hm (p_name q)).
  destruct (List.length X <? List.length args) eqn:Hover;
    [| rewrite andb_false_l, orb_false_r; reflexivity].
  destruct T as [| v tl] eqn:ET; [rewrite orb_false_r; reflexivity |].
  destruct (String.eqb (p_name q) (p_name v)) eqn:En;
    [| rewrite orb_false_r; reflexivity].
  exfalso. apply String.eqb_eq in En.
  assert (Hv : is_var_positional v = true).
  { destruct Hfit' as [Hle | [v' [tl' [E Hv']]]].
    - apply Nat.ltb_lt in Hover. lia.
    - inversion E. subst. exact Hv'. }
  assert (Eq : q = v).
  { apply (NoDup_names_unique (X ++ v :: tl));
      [apply distinct_NoDup; exact Hsig | | exact Hq | exact En].
    apply in_or_app. right. left. reflexivity. }
  subst q. unfold is_var_positional, is_positional, is_keyword_only in *.
  destruct (p_kind v); discriminate.
Qed.

Lemma positional_parameters_required (fd : fundef) (names : list string) :
  forall i,
    List.length (fn_args fd)
    = fn_nrequired fd + List.length (fn_defaults fd) ->
    i + List.length names = List.length (fn_args fd) ->
    List.length
      (filter (fun p => is_positional p && negb (has_default p))
         (positional_parameters fd i names))
    = fn_nrequired fd - i.
Proof.
  induction names as [| x names IH]; intros i Hwf Hlen.
  - cbn [List.length] in Hlen. simpl. lia.
  - cbn [List.length] in Hlen. cbn [positional_parameters filter].
    unfold is_positional at 1, has_default at 1. cbn [p_kind p_default].
    unfold fn_default_at.
    destruct (i <? fn_nrequired fd) eqn:E.
    + apply Nat.ltb_lt in E. cbn [negb andb List.length].
      rewrite (IH (S i) Hwf) by lia. lia.
    + apply Nat.ltb_ge in E.
      destruct (nth_error (fn_defaults fd) (i - fn_nrequired fd)) eqn:N.
      * cbn [negb andb]. rewrite (IH (S i) Hwf) by lia. lia.
      * apply nth_error_None in N. lia.
Qed.

Lemma signature_required_positional (fd : fundef) :
  wf_fundef fd = true ->
  List.length
    (filter (fun p => is_positional p && negb (has_default p))
       (signature_from_function fd))
  = fn_nrequired fd.
Proof.
  intros Hwf. rewrite signature_split, filter_app, length_app.
  rewrite (positional_parameters_required fd (fn_args fd) 0
             (wf_fundef_defaults _ Hwf) eq_refl).
  assert (H : filter (fun p => is_positional p && negb (has_default p))
                (signature_tail fd) = []).
  { apply filter_none. pose proof (signature_tail_not_positional fd) as Ht.
    induction (signature_tail fd) as [| q l IH]; simpl in *; [reflexivity |].
    apply orb_false_iff in Ht. destruct Ht as [-> Ht]. simpl. exact (IH Ht). }
  rewrite H. simpl. lia.
Qed.

Lemma signature_keyword_only (fd : fundef) :
  filter is_keyword_only (signature_from_function fd)
  = map (fun n => mkParam n KEYWORD_ONLY (dict_get n (fn_kwdefaults fd)))
      (fn_kwonlyargs fd).
Proof.
  unfold signature_from_function. rewrite !filter_app.
  assert (H1 : forall names i,
             filter is_keyword_only (positional_parameters fd i names) = []).
  { induction names as [| n names IH]; intros i; simpl; auto. }
  assert (H2 : forall l,
             filter is_keyword_only
               (map (fun n => mkParam n KEYWORD_ONLY
                                (dict_get n (fn_kwdefaults fd))) l)
             = map (fun n => mkParam n KEYWORD_ONLY
                               (dict_get n (fn_kwdefaults fd))) l).
  { induction l as [| n l IH]; simpl; [| rewrite IH]; reflexivity. }
  rewrite H1, H2.
  destruct (fn_varargs fd), (fn_varkw fd); simpl; rewrite ?app_nil_r;
    reflexivity.
Qed.

Lemma distinct_app_l (l1 l2 : list string) :
  distinct (l1 ++ l2) = true -> distinct l1 = true.
Proof.
  induction l1 as [| x l1 IH]; simpl; [reflexivity |].
  intros H. apply andb_true_iff in H. destruct H as [Hx H].
  rewrite (IH H), andb_true_r. rewrite mem_string_app in Hx.
  apply negb_true_iff in Hx. apply orb_false_iff in Hx.
  destruct Hx as [-> _]. reflexivity.
Qed.

Lemma distinct_app_r (l1 l2 : list string) :
  distinct (l1 ++ l2) = true -> distinct l2 = true.
Proof.
  induction l1 as [| x l1 IH]; simpl; [auto |].
  intros H. apply andb_true_iff in H. destruct H as [_ H]. exact (IH H).
Qed.

Lemma wf_fundef_kwonlyargs (fd : fundef) :
  wf_fundef fd = true -> distinct (fn_kwonlyargs fd) = true.
Proof.
  unfold wf_fundef, fn_names. intros H. apply andb_true_iff in H.
  destruct H as [H _].
  apply distinct_app_r in H. apply distinct_app_r in H.
  apply distinct_app_l in H. exact H.
Qed.

Lemma py_set_distinct (l : list string) :
  distinct l = true -> py_set l = l.
Proof.
  intros H. unfold py_set. apply nodup_fixed_point.
  apply distinct_NoDup. exact H.
Qed.

Lemma signature_keyword_defaults (fd : fundef) (n : string) :
  existsb (fun p => is_keyword_only p && has_default p
                    && String.eqb n (p_name p))
    (signature_from_function fd)
  = mem_string n (fn_kwonlyargs fd) && dict_mem n (fn_kwdefaults fd).
Proof.
  unfold signature_from_function. rewrite !existsb_app.
  assert (H1 : forall names i,
             existsb (fun p => is_keyword_only p && has_default p
                               && String.eqb n (p_name p))
               (positional_parameters fd i names) = false).
  { induction names as [| x names IH]; intros i; simpl; auto. }
  assert (H2 : forall l,
             existsb (fun p => is_keyword_only p && has_default p
                               && String.eqb n (p_name p))
               (map (fun m => mkParam m KEYWORD_ONLY
                                (dict_get m (fn_kwdefaults fd))) l)
             = mem_string n l && dict_mem n (fn_kwdefaults fd)).
  { induction l as [| m l IH]; simpl; [reflexivity |].
    rewrite IH. unfold has_default, dict_mem. simpl.
    destruct (String.eqb n m) eqn:E.
    - apply String.eqb_eq in E. subst m.
      destruct (dict_get n (fn_kwdefaults fd)); simpl; [reflexivity |].
      rewrite andb_false_r. reflexivity.
    - rewrite andb_false_r. reflexivity. }
  rewrite H1, H2.
  destruct (fn_varargs fd), (fn_varkw fd); simpl; rewrite ?orb_false_r;
    reflexivity.
Qed.

Lemma signature_required_keywords (fd : fundef) :
  wf_fundef fd = true ->
  required_keywords (signature_from_function fd) = missing_kwonly fd [].
Proof.
  intros Hwf. unfold required_keywords, missing_kwonly, set_difference.
  rewrite signature_keyword_only, map_map. cbn [p_name].
  rewrite map_id, (py_set_distinct _ (wf_fundef_kwonlyargs _ Hwf)).
  apply filter_ext_in. intros n Hn. f_equal.
  rewrite mem_string_py_set, mem_string_dict_keys, argspec_fold_kwdefaults.
  rewrite signature_keyword_defaults.
  apply mem_string_In in Hn. rewrite Hn. reflexivity.
Qed.

(** *** The names of the signature of a partial object stay distinct *)

Lemma NoDup_map_filter {A B : Type} (f : A -> B) (g : A -> bool) (l : list A) :
  NoDup (map f l) -> NoDup (map f (filter g l)).
Proof.
  induction l as [| x l IH]; simpl; intros H; [constructor |].
  inversion H as [| ? ? Hx Hl]; subst.
  destruct (g x); simpl; [| exact (IH Hl)].
  constructor; [| exact (IH Hl)].
  intros Hin. apply Hx. apply in_map_iff in Hin.
  destruct Hin as [y [E Hy]]. apply filter_In in Hy.
  apply in_map_iff. exists y. tauto.
Qed.

Lemma params_update_names (n : string) (g : Param -> Param) (l : Signature) :
  (forall x, p_name x = n -> p_name (g x) = n) ->
  map p_name (params_update n g l) = map p_name l.
Proof.
  intros Hg. unfold params_update. rewrite map_map. apply map_ext_in.
  intros x _. destruct (String.eqb n (p_name x)) eqn:E; [| reflexivity].
  apply String.eqb_eq in E. rewrite (Hg x (eq_sym E)). exact E.
Qed.

Lemma filter_partition_permutation {A : Type} (g : A -> bool) (l : list A) :
  Permutation (filter (fun x => negb (g x)) l ++ filter g l) l.
Proof.
  induction l as [| x l IH]; simpl; [constructor |].
  destruct (g x); simpl.
  - apply Permutation_sym, Permutation_cons_app, Permutation_sym, IH.
  - constructor. exact IH.
Qed.

Lemma params_move_to_end_names (n : string) (l : Signature) :
  NoDup (map p_name l) -> NoDup (map p_name (params_move_to_end n l)).
Proof.
  intros H. unfold params_move_to_end.
  eapply Permutation_NoDup; [| exact H].
  apply Permutation_sym, Permutation_map.
  apply (filter_partition_permutation (fun q => String.eqb n (p_name q))).
Qed.

Lemma transform_step_NoDup (tr : bool) (p : Param) (l : Signature) :
  NoDup (map p_name l) -> NoDup (map p_name (transform_step tr p l)).
Proof.
  intros H. unfold transform_step. destruct tr; [| exact H].
  destruct (p_kind p).
  - apply params_move_to_end_names. rewrite params_update_names; [exact H |].
    intros x Hx. exact Hx.
  - apply NoDup_map_filter. exact H.
  - apply params_move_to_end_names. exact H.
  - apply params_move_to_end_names. exact H.
Qed.

Lemma partial_step_NoDup (arguments keywords : dict) (st : Signature * bool)
    (p : Param) :
  NoDup (map p_name (fst st)) ->
  NoDup (map p_name (fst (partial_step arguments keywords st p))).
Proof.
  destruct st as [l tr]. cbn [fst]. intros H. unfold partial_step.
  assert (Hup : forall v,
             NoDup (map p_name
                      (params_update (p_name p)
                         (fun _ => replace_default v p) l))).
  { intros v. rewrite params_update_names; [exact H |]. reflexivity. }
  destruct (dict_get (p_name p) arguments) as [v |].
  - destruct (p_kind p) eqn:K; cbn [fst].
    + destruct (dict_mem (p_name p) keywords); cbn [fst].
      * apply transform_step_NoDup. apply Hup.
      * apply NoDup_map_filter. exact H.
    + apply transform_step_NoDup. exact H.
    + apply transform_step_NoDup. apply Hup.
    + apply transform_step_NoDup. exact H.
  - cbn [fst]. apply transform_step_NoDup. exact H.
Qed.

Lemma fold_partial_NoDup (arguments keywords : dict) (todo : Signature) :
  forall st,
    NoDup (map p_name (fst st)) ->
    NoDup (map p_name
             (fst (fold_left (partial_step arguments keywords) todo st))).
Proof.
  induction todo as [| p todo IH]; intros st H; simpl; [exact H |].
  apply IH. apply partial_step_NoDup. exact H.
Qed.

(** *** The count on a signature without two parameters of a name *)

Lemma filter_length_disjoint {A : Type} (f g : A -> bool) (l : list A) :
  (forall x, f x && g x = false) ->
  List.length (filter f l) + List.length (filter g l)
  = List.length (filter (fun x => f x || g x) l).
Proof.
  intros H. induction l as [| x l IH]; simpl; [reflexivity |].
  specialize (H x). destruct (f x), (g x); simpl in *; try discriminate; lia.
Qed.

Lemma filter_map_length {A B : Type} (h : A -> B) (f : B -> bool)
    (g : A -> bool) (l : list A) :
  (forall x, In x l -> f (h x) = g x) ->
  List.length (filter f (map h l)) = List.length (filter g l).
Proof.
  induction l as [| x l IH]; simpl; intros H; [reflexivity |].
  rewrite (H x (or_introl eq_refl)).
  destruct (g x); simpl; rewrite IH; auto.
Qed.

Lemma py_set_NoDup (l : list string) : NoDup l -> py_set l = l.
Proof. intros H. unfold py_set. apply nodup_fixed_point. exact H. Qed.

Lemma required_keywords_length (sig : Signature) :
  NoDup (map p_name sig) ->
  List.length (required_keywords sig)
  = List.length
      (filter (fun p => is_keyword_only p && negb (has_default p)) sig).
Proof.
  intros Hnd. unfold required_keywords, set_difference.
  assert (Hk : NoDup (map p_name (filter is_keyword_only sig)))
    by (apply NoDup_map_filter; exact Hnd).
  rewrite (py_set_NoDup _ Hk).
  rewrite (filter_map_length p_name _
             (fun p => negb (has_default p)) (filter is_keyword_only sig)).
  - clear Hk Hnd. induction sig as [| p sig IH]; simpl; [reflexivity |].
    destruct (is_keyword_only p); simpl; [| exact IH].
    destruct (has_default p); simpl; rewrite IH; reflexivity.
  - intros p Hp. apply filter_In in Hp. destruct Hp as [Hp Hkw].
    f_equal. rewrite mem_string_py_set, mem_string_dict_keys.
    rewrite argspec_fold_kwdefaults. simpl.
    destruct (has_default p) eqn:Hd.
    + apply existsb_exists. exists p. split; [exact Hp |].
      rewrite Hkw, Hd, String.eqb_refl. reflexivity.
    + apply not_true_iff_false. intros Hex. apply existsb_exists in Hex.
      destruct Hex as [x [Hx Hc]].
      apply andb_true_iff in Hc. destruct Hc as [Hc En].
      apply andb_true_iff in Hc. destruct Hc as [_ Hdx].
      apply String.eqb_eq in En.
      rewrite (NoDup_names_unique sig p x Hnd Hp Hx (eq_sym En)) in Hdx.
      congruence.
Qed.

(** On a signature without two parameters of a name, the count is the
    number of parameters that are not optional. *)
Lemma count_required_not_optional (sig : Signature) :
  NoDup (map p_name sig) ->
  count_required_arguments (fullargspec_of_signature sig)
  = Z.of_nat (List.length (filter (fun p => negb (is_optional p)) sig)).
Proof.
  intros Hnd. rewrite count_required_of_signature.
  rewrite (required_keywords_length sig Hnd), <- Nat2Z.inj_add.
  f_equal. rewrite filter_length_disjoint.
  - f_equal. apply filter_ext. intros p.
    unfold is_optional, is_var, is_positional, is_keyword_only.
    destruct (p_kind p), (has_default p); reflexivity.
  - intros p. unfold is_positional, is_keyword_only.
    destruct (p_kind p), (has_default p); reflexivity.
Qed.

(** *** What [bind_partial] binds *)

Lemma partial_result_name (arguments keywords : dict) (tr : bool)
    (q r' : Param) :
  partial_result arguments keywords tr q = Some r' -> p_name r' = p_name q.
Proof.
  unfold partial_result, transform_result.
  destruct (dict_get (p_name q) arguments) as [v |];
    [destruct (p_kind q) eqn:K;
     [destruct (dict_mem (p_name q) keywords) | | |] |];
    try discriminate;
    destruct tr; try rewrite K; try destruct (p_kind q);
    intros H; inversion H; reflexivity.
Qed.

(** The keyword loop binds every keyword that names one of its
    parameters. *)
Lemma bind_keywords_given (partial : bool) (params : Signature) :
  forall (kwargs arguments arguments' remaining : dict)
         (kp kp' : option Param),
    bind_keywords partial params kwargs arguments kp
    = Return (arguments', remaining, kp') ->
    (forall n, dict_mem n arguments = true -> dict_mem n arguments' = true)
    /\ forall q,
         In q params -> is_var q = false ->
         dict_mem (p_name q) kwargs = true ->
         dict_mem (p_name q) arguments' = true.
Proof.
  induction params as [| p ps IH];
    intros kwargs arguments arguments' remaining kp kp' H.
  - simpl in H. inversion H. subst. split; [auto | intros q []].
  - simpl in H.
    assert (Hskip : forall kp0,
               bind_keywords partial ps kwargs arguments kp0
               = Return (arguments', remaining, kp') ->
               is_var p = true \/ dict_get (p_name p) kwargs = None ->
               (forall n, dict_mem n arguments = true ->
                          dict_mem n arguments' = true)
               /\ forall q,
                    In q (p :: ps) -> is_var q = false ->
                    dict_mem (p_name q) kwargs = true ->
                    dict_mem (p_name q) arguments' = true).
    { intros kp0 H0 Hp. destruct (IH _ _ _ _ _ _ H0) as [Hmono Hq].
      split; [exact Hmono |].
      intros q [<- | Hin] Hv Hk; [| exact (Hq q Hin Hv Hk)].
      destruct Hp as [Hp | Hp]; [congruence |].
      unfold dict_mem in Hk. rewrite Hp in Hk. discriminate. }
    assert (Hbind : forall v,
               dict_get (p_name p) kwargs = Some v ->
               bind_keywords partial ps (dict_pop (p_name p) kwargs)
                 (dict_set arguments (p_name p) v) kp
               = Return (arguments', remaining, kp') ->
               (forall n, dict_mem n arguments = true ->
                          dict_mem n arguments' = true)
               /\ forall q,
                    In q (p :: ps) -> is_var q = false ->
                    dict_mem (p_name q) kwargs = true ->
                    dict_mem (p_name q) arguments' = true).
    { intros v Hv H0. destruct (IH _ _ _ _ _ _ H0) as [Hmono Hq].
      assert (Hp : dict_mem (p_name p) arguments' = true).
      { apply Hmono. rewrite dict_mem_set, String.eqb_refl. reflexivity. }
      split.
      - intros n Hn. apply Hmono. rewrite dict_mem_set, Hn.
        apply orb_true_r.
      - intros q [<- | Hin] Hvar Hk; [exact Hp |].
        destruct (String.eqb (p_name p) (p_name q)) eqn:E.
        + apply String.eqb_eq in E. rewrite <- E. exact Hp.
        + apply (Hq q Hin Hvar). rewrite dict_mem_pop, E, Hk. reflexivity. }
    destruct (p_kind p) eqn:K.
    + destruct (dict_get (p_name p) kwargs) as [v |] eqn:G.
      * exact (Hbind v eq_refl H).
      * destruct (negb partial && negb (has_default p)); [discriminate H |].
        apply (Hskip kp H). right. reflexivity.
    + apply (Hskip kp H). left. unfold is_var. rewrite K. reflexivity.
    + destruct (dict_get (p_name p) kwargs) as [v |] eqn:G.
      * exact (Hbind v eq_refl H).
      * destruct (negb partial && negb (has_default p)); [discriminate H |].
        apply (Hskip kp H). right. reflexivity.
    + apply (Hskip (Some p) H). left. unfold is_var. rewrite K. reflexivity.
Qed.

Lemma NoDup_app_apart {A : Type} (l1 l2 : list A) (x : A) :
  NoDup (l1 ++ l2) -> In x l1 -> In x l2 -> False.
Proof.
  induction l1 as [| y l1 IH]; simpl; intros H H1 H2; [contradiction |].
  inversion H as [| ? ? Hy Hl]; subst.
  destruct H1 as [-> | H1]; [| exact (IH Hl H1 H2)].
  apply Hy. apply in_or_app. right. exact H2.
Qed.

(** [bind_partial] binds the parameters filled by position and every
    keyword that names a parameter. *)
Lemma sig_bind_given (partial : bool) (sig : Signature) (args : list value)
    (kwargs arguments : dict) (q : Param) :
  NoDup (map p_name sig) ->
  sig_bind partial sig args kwargs = Return arguments ->
  In q sig ->
  is_var q = false ->
  In q (firstn (List.length args) (positional_prefix sig))
  \/ dict_mem (p_name q) kwargs = true ->
  dict_mem (p_name q) arguments = true.
Proof.
  intros Hnd H Hq Hvar Hgiven. unfold sig_bind in H.
  destruct (bind_positional partial sig args kwargs [])
    as [[a1 rest] | e] eqn:Hpos; simpl in H; [| discriminate H].
  destruct (bind_keywords partial rest kwargs a1 None)
    as [[[a2 remaining] kp] | e] eqn:Hkw; simpl in H; [| discriminate H].
  destruct (bind_positional_bound _ _ _ _ _ _ _ Hpos) as [_ Hb1].
  destruct (bind_keywords_given _ _ _ _ _ _ _ _ Hkw) as [Hmono Hb2].
  destruct (bind_positional_split _ _ _ _ _ _ _ Hpos) as [consumed [Es Hincl]].
  assert (Ha2 : dict_mem (p_name q) a2 = true).
  { destruct (Hb1 q Hq) as [Hrest | [Hv | Hbound]].
    - destruct Hgiven as [Hfirst | Hk].
      + exfalso. apply Hincl in Hfirst. subst sig.
        rewrite map_app in Hnd.
        apply (NoDup_app_apart _ _ (p_name q) Hnd);
          apply in_map; assumption.
      + exact (Hb2 q Hrest Hvar Hk).
    - congruence.
    - exact (Hmono _ Hbound). }
  destruct remaining as [| [k0 v0] rem'].
  - inversion H. subst. exact Ha2.
  - destruct kp as [v |]; [| discriminate H]. inversion H. subst.
    rewrite dict_mem_set, Ha2. apply orb_true_r.
Qed.

(** *** The parameters the interpreter reports missing *)

Lemma missing_positional_intro (fd : fundef) (npos : nat) (kwargs : dict)
    (names : list string) :
  forall i j n,
    nth_error names j = Some n ->
    npos <= i + j -> i + j < fn_nrequired fd ->
    dict_mem n kwargs = false ->
    In n (missing_positional fd npos kwargs i names).
Proof.
  induction names as [| x names IH]; intros i j n Hj H1 H2 Hk.
  - destruct j; discriminate Hj.
  - cbn [missing_positional]. destruct j as [| j].
    + simpl in Hj. inversion Hj. subst x.
      assert (E1 : (i <? npos) = false) by (apply Nat.ltb_ge; lia).
      assert (E2 : (fn_nrequired fd <=? i) = false)
        by (apply Nat.leb_gt; lia).
      rewrite E1, Hk, E2. left. reflexivity.
    + simpl in Hj.
      assert (Hin : In n (missing_positional fd npos kwargs (S i) names))
        by (apply (IH (S i) j n Hj); [lia | lia | exact Hk]).
      destruct ((i <? npos) || dict_mem x kwargs || (fn_nrequired fd <=? i));
        [exact Hin | right; exact Hin].
Qed.

Lemma missing_positional_incl (fd : fundef) (npos : nat) (kwargs : dict)
    (names : list string) (i : nat) (n : string) :
  In n (missing_positional fd npos kwargs i names) -> In n names.
Proof.
  intros H. apply missing_positional_In in H.
  destruct H as [j [Hj _]]. eapply nth_error_In. exact Hj.
Qed.

Lemma missing_positional_NoDup (fd : fundef) (npos : nat) (kwargs : dict)
    (names : list string) :
  forall i,
    NoDup names -> NoDup (missing_positional fd npos kwargs i names).
Proof.
  induction names as [| x names IH]; intros i H; cbn [missing_positional];
    [constructor |].
  inversion H as [| ? ? Hx Hl]; subst.
  destruct ((i <? npos) || dict_mem x kwargs || (fn_nrequired fd <=? i));
    [exact (IH (S i) Hl) |].
  constructor; [| exact (IH (S i) Hl)].
  intros Hin. apply Hx. eapply missing_positional_incl. exact Hin.
Qed.

Lemma NoDup_app_intro {A : Type} (l1 l2 : list A) :
  NoDup l1 -> NoDup l2 -> (forall x, In x l1 -> In x l2 -> False) ->
  NoDup (l1 ++ l2).
Proof.
  induction l1 as [| y l1 IH]; simpl; intros H1 H2 Hd; [exact H2 |].
  inversion H1 as [| ? ? Hy Hl]; subst.
  constructor.
  - intros Hin. apply in_app_or in Hin. destruct Hin as [Hin | Hin];
      [exact (Hy Hin) | exact (Hd y (or_introl eq_refl) Hin)].
  - apply IH; [exact Hl | exact H2 |].
    intros x Hx1 Hx2. exact (Hd x (or_intror Hx1) Hx2).
Qed.

Lemma NoDup_app_l {A : Type} (l1 l2 : list A) :
  NoDup (l1 ++ l2) -> NoDup l1.
Proof. apply NoDup_app_remove_r. Qed.

Lemma NoDup_app_r {A : Type} (l1 l2 : list A) :
  NoDup (l1 ++ l2) -> NoDup l2.
Proof. apply NoDup_app_remove_l. Qed.

Lemma missing_NoDup (fd : fundef) (npos : nat) (kwargs : dict) :
  wf_fundef fd = true ->
  NoDup (missing_positional fd npos kwargs 0 (fn_args fd)
         ++ missing_kwonly fd kwargs).
Proof.
  intros Hwf. unfold wf_fundef in Hwf. apply andb_true_iff in Hwf.
  destruct Hwf as [Hd _]. apply distinct_NoDup in Hd. unfold fn_names in Hd.
  apply NoDup_app_intro.
  - apply missing_positional_NoDup. apply NoDup_app_l in Hd. exact Hd.
  - unfold missing_kwonly. apply NoDup_filter.
    apply NoDup_app_r, NoDup_app_r, NoDup_app_l in Hd. exact Hd.
  - intros x H1 H2. apply missing_positional_incl in H1.
    unfold missing_kwonly in H2. apply filter_In in H2. destruct H2 as [H2 _].
    apply (NoDup_app_apart _ _ x Hd H1).
    apply in_or_app. right. apply in_or_app. left. exact H2.
Qed.

Section Updater.

Variable defs : nat -> fundef.
Variable builtins : nat -> builtin.

Local Abbreviation getfullargspec := (getfullargspec defs builtins).



(** X10 (the count on a [def] function).  On the argument specification
    of a [def] function, [count_required_arguments] is the number of
    positional parameters without default plus the number of keyword-only
    parameters without default. *)
Theorem count_required_arguments_function (fid : nat) :
  wf_fundef (defs fid) = true ->
  exists spec,
    getfullargspec (VFunction fid) = Return spec
    /\ count_required_arguments spec
       = Z.of_nat (fn_nrequired (defs fid)
                   + List.length (missing_kwonly (defs fid) [])).
Proof.
  intros Hwf. eexists. split; [reflexivity |].
  rewrite count_required_of_signature.
  rewrite (signature_required_positional _ Hwf).
  rewrite (signature_required_keywords _ Hwf). lia.
Qed.


End Updater.

(** * The signature of a curried value *)

Section Remaining.

Variable defs : nat -> fundef.
Variable body : nat -> dict -> outcome value.
Variable builtins : nat -> builtin.
Variable builtin_call : nat -> list value -> dict -> outcome value.

Local Abbreviation call := (call defs body builtins builtin_call).
Local Abbreviation feed := (feed defs body builtins builtin_call).
Local Abbreviation inspect_signature := (inspect_signature defs builtins).

(** X17 (what a curried value shows to be left).  After positional
    arguments that leave a required parameter unfilled, the curried value
    made with [wrap=True] shows the signature of the function without the
    parameters already filled. *)
Theorem curry_signature_remaining (fid : nat) (c : value)
    (groups : list (list value)) :
  wf_fundef (defs fid) = true ->
  curry (VFunction fid) true = Return c ->
  groups <> [] ->
  List.length (List.concat groups) < fn_nrequired (defs fid) ->
  exists c',
    snd (feed c (positional groups)) = Return c'
    /\ inspect_signature c'
       = Return (skipn (List.length (List.concat groups))
                   (signature_from_function (defs fid))).
Proof.
  intros Hwf Hc Hne Hlen.
  assert (Hne' : positional groups <> [])
    by (destruct groups; [congruence | discriminate]).
  rewrite (feed_curry defs body builtins builtin_call _ _ _ _ Hc Hne').
  rewrite (feed_positional_prefix defs body builtins builtin_call fid true
             (VFunction fid) [] Hwf (target_function fid) groups []
             (VFunction fid));
    [| left; split; reflexivity | exact Hne | simpl; lia].
  cbn [app].
  eexists. split; [reflexivity |].
  unfold inspect_signature. simpl.
  rewrite signature_get_partial_positional;
    [| exact Hwf | left; unfold fn_nrequired in Hlen; lia].
  f_equal. rewrite signature_split, skipn_app.
  rewrite positional_parameters_length.
  replace (List.length (List.concat groups) - List.length (fn_args (defs fid)))
    with 0 by (unfold fn_nrequired in Hlen; lia).
  reflexivity.
Qed.

End Remaining.

(** * Properties of the decorators *)

Section DecoratorProperties.

Variable defs : nat -> fundef.
Variable body : nat -> dict -> outcome value.
Variable builtins : nat -> builtin.
Variable builtin_call : nat -> list value -> dict -> outcome value.
Variable type_of : value -> value.

Local Abbreviation call := (call defs body builtins builtin_call).
Local Abbreviation get_name := (get_name defs builtins).
Local Abbreviation object_name := (object_name defs builtins).
Local Abbreviation decorator := (decorator defs builtins).
Local Abbreviation call_object :=
  (call_object defs body builtins builtin_call).
Local Abbreviation descr_get :=
  (descr_get defs body builtins builtin_call type_of).
Local Abbreviation abstract_class_function :=
  (abstract_class_function defs builtins).
Local Abbreviation abstract_class_property :=
  (abstract_class_property defs builtins).

(** The equations of [__get__] on the decorators. *)
Lemma descr_get_class_property (f : object) (cls : value) :
  descr_get (class_property f) VNone cls
  = match descr_get f VNone cls with
    | (t, Raise e) => (t, Raise e)
    | (t, Return g) =>
        match call_object g [cls] [] with
        | (t', Raise e) => (t ++ t', Raise e)
        | (t', Return x) => (t ++ t', Return (Plain x))
        end
    end.
Proof. reflexivity. Qed.

Lemma descr_get_abstract_function (f : object) (obj cls : value) :
  descr_get (abstract_function f) obj cls
  = match descr_get f obj cls with
    | (t, Raise e) => (t, Raise e)
    | (t, Return g) => (t, decorator abstract_function g)
    end.
Proof. reflexivity. Qed.

Lemma descr_get_abstract_property (f : object) (obj cls : value) :
  descr_get (abstract_property f) obj cls
  = match descr_get f obj cls with
    | (t, Raise e) => (t, Raise e)
    | (t, Return _) =>
        (t, obind (object_name f)
              (fun name =>
                 obind (get_name cls)
                   (fun cname =>
                      Raise (A := object)
                        (abstract_attribute_error name obj cname))))
    end.
Proof. reflexivity. Qed.

(** X11 ([class_function] and [class_property]).  Read from the class, a
    class function is the function bound to the class (calling it calls
    the function with the class as first argument), and a class property
    is the value the function returns on the class.  Read from an
    instance, both raise an [AttributeError] that names the class and the
    function. *)
Theorem class_function_access (fid : nat) (f : object) (obj cls : value)
    (cname name : string) :
  get_name cls = Return cname ->
  object_name f = Return name ->
  (descr_get (class_function (Plain (VFunction fid))) VNone cls
   = ([], Return (Plain (VMethod cls (VFunction fid))))
   /\ forall args kwargs,
        call_object (Plain (VMethod cls (VFunction fid))) args kwargs
        = call (VFunction fid) (cls :: args) kwargs)
  /\ (descr_get (class_property (Plain (VFunction fid))) VNone cls
      = (fst (call (VFunction fid) [cls] []),
         x <- snd (call (VFunction fid) [cls] []) ;; Return (Plain x)))
  /\ (obj <> VNone ->
      descr_get (class_function f) obj cls
      = ([], Raise (attribute_error cname name))
      /\ descr_get (class_property f) obj cls
         = ([], Raise (attribute_error cname name))).
Proof.
  intros Hc Hn.
  assert (Hcls : cls <> VNone) by (intros ->; discriminate Hc).
  split; [| split].
  - split; [| reflexivity].
    simpl. destruct cls; try reflexivity. congruence.
  - assert (Hg : descr_get (Plain (VFunction fid)) VNone cls
                 = ([], Return (Plain (VFunction fid))))
      by (simpl; destruct cls; try reflexivity; congruence).
    rewrite descr_get_class_property, Hg. unfold call_object.
    destruct (call (VFunction fid) [cls] []) as [t [x | e]]; reflexivity.
  - intros Hobj.
    destruct obj; try congruence; simpl;
      unfold no_instance_attribute; rewrite Hc, Hn; split; reflexivity.
Qed.

(** Reading a [def] function as an attribute gives the function or a
    method of it: something of the same name. *)
Lemma descr_get_function (fid : nat) (obj cls : value) :
  cls <> VNone ->
  exists g,
    descr_get (Plain (VFunction fid)) obj cls = ([], Return g)
    /\ object_name g = Return (fn_name (defs fid)).
Proof.
  intros Hcls.
  destruct obj; simpl; try (eexists; split; reflexivity).
  destruct cls; try congruence; eexists; split; reflexivity.
Qed.


(** X13 (abstract properties).  Reading an abstract property never
    returns: it raises [NotImplementedError], whose message tells a class
    from an instance.  Reading an abstract class property from the class
    raises [NotImplementedError]; from an instance it raises the
    [AttributeError] of [class_function]. *)
Theorem abstract_property_never_returns (fid : nat) (obj cls : value)
    (cname : string) :
  let f := Plain (VFunction fid) in
  get_name cls = Return cname ->
  descr_get (abstract_property f) obj cls
  = ([], Raise (abstract_attribute_error (fn_name (defs fid)) obj cname))
  /\ abstract_class_property f
     = Return (abstract_property (class_function f))
  /\ descr_get (abstract_property (class_function f)) VNone cls
     = ([], Raise (abstract_attribute_error (fn_name (defs fid)) VNone cname))
  /\ (obj <> VNone ->
      descr_get (abstract_property (class_function f)) obj cls
      = ([], Raise (attribute_error cname (fn_name (defs fid))))).
Proof.
  intros f Hc.
  assert (Hcls : cls <> VNone) by (intros ->; discriminate Hc).
  split; [| split; [reflexivity | split]].
  - destruct (descr_get_function fid obj cls Hcls) as [g [Hg _]].
    rewrite descr_get_abstract_property. unfold f. rewrite Hg.
    simpl. rewrite Hc. reflexivity.
  - assert (Hg : descr_get (class_function f) VNone cls
                 = ([], Return (Plain (VMethod cls (VFunction fid)))))
      by (simpl; destruct cls; try reflexivity; congruence).
    rewrite descr_get_abstract_property, Hg. simpl. rewrite Hc.
    reflexivity.
  - intros Hobj. destruct obj; try congruence; simpl;
      unfold no_instance_attribute; rewrite Hc; reflexivity.
Qed.


End DecoratorProperties.

(** * Properties of [memoize] *)

Section MemoizeProperties.

Variable State : Type.
Variable f : value -> State -> State * outcome value.
Variable py_eq : value -> value -> bool.

Local Abbreviation memory_lookup := (memory_lookup py_eq).
Local Abbreviation memoize_call := (memoize_call State f py_eq).
Local Abbreviation memoize_calls := (memoize_calls State f py_eq).
Local Abbreviation memory_distinct := (memory_distinct py_eq).

Lemma memory_lookup_app (m m' : list (value * value)) (x y : value) :
  memory_lookup m x = Some y -> memory_lookup (m ++ m') x = Some y.
Proof.
  induction m as [| [k v] m IH]; simpl; [discriminate |].
  destruct (py_eq k x); auto.
Qed.

Lemma memory_lookup_miss (m : list (value * value)) (x y : value) :
  memory_lookup m x = None ->
  py_eq x x = true ->
  memory_lookup (m ++ [(x, y)]) x = Some y.
Proof.
  induction m as [| [k v] m IH]; simpl; intros H Hx.
  - rewrite Hx. reflexivity.
  - destruct (py_eq k x); [discriminate | auto].
Qed.

Lemma memoize_call_grows (m : list (value * value)) (s : State) (x : value) :
  exists m', fst (fst (memoize_call m s x)) = m ++ m'.
Proof.
  unfold memoize_call. destruct (memory_lookup m x).
  - exists []. simpl. symmetry. apply app_nil_r.
  - destruct (f x s) as [s' [y | e]]; simpl.
    + eexists. reflexivity.
    + exists []. symmetry. apply app_nil_r.
Qed.

Lemma memoize_calls_grows (xs : list value) :
  forall m s, exists m', fst (memoize_calls m s xs) = m ++ m'.
Proof.
  induction xs as [| x xs IH]; intros m s; simpl.
  - exists []. symmetry. apply app_nil_r.
  - destruct (memoize_call_grows m s x) as [m1 E1].
    destruct (memoize_call m s x) as [[m' s'] r]. simpl in E1. subst m'.
    destruct (IH (m ++ m1) s') as [m2 E2]. exists (m1 ++ m2).
    rewrite E2, app_assoc. reflexivity.
Qed.

Lemma memory_lookup_indistinguishable (m : list (value * value))
    (x x' : value) :
  (forall k, py_eq k x = py_eq k x') ->
  memory_lookup m x' = memory_lookup m x.
Proof.
  intros H. induction m as [| [k v] m IH]; simpl; [reflexivity |].
  rewrite (H k), IH. reflexivity.
Qed.

(** X15 ([memoize] answers equal arguments alike).  Once a call with [x]
    has returned [y], every later call with [x], or with an argument that
    [==] does not tell from [x], returns [y] without calling the function
    and without changing the memory: whatever calls were made in between,
    and even when the function would now return something else. *)
Theorem memoize_consistent (m m1 : list (value * value)) (s s1 : State)
    (x x' y : value) (xs : list value) :
  py_eq x x = true ->
  (forall k, py_eq k x = py_eq k x') ->
  memoize_call m s x = (m1, s1, Return y) ->
  memoize_call (fst (memoize_calls m1 s1 xs)) (snd (memoize_calls m1 s1 xs)) x'
  = (fst (memoize_calls m1 s1 xs), snd (memoize_calls m1 s1 xs), Return y).
Proof.
  intros Hx Hsame Hcall.
  assert (H1 : memory_lookup m1 x = Some y).
  { unfold memoize_call in Hcall.
    destruct (memory_lookup m x) as [v |] eqn:L.
    - inversion Hcall. subst. exact L.
    - destruct (f x s) as [s' [y' | e]]; inversion Hcall. subst.
      apply memory_lookup_miss; assumption. }
  destruct (memoize_calls_grows xs m1 s1) as [m' E].
  unfold memoize_call.
  rewrite (memory_lookup_indistinguishable _ x x' Hsame), E.
  rewrite (memory_lookup_app m1 m' x y H1). reflexivity.
Qed.

Lemma memory_distinct_app (m : list (value * value)) (x y : value) :
  memory_distinct m = true ->
  memory_lookup m x = None ->
  memory_distinct (m ++ [(x, y)]) = true.
Proof.
  induction m as [| [k v] m IH]; simpl; intros Hd Hl; [reflexivity |].
  apply andb_true_iff in Hd. destruct Hd as [Hk Hd].
  destruct (py_eq k x) eqn:E; [discriminate |].
  rewrite forallb_app, Hk, (IH Hd Hl). simpl. rewrite E. reflexivity.
Qed.

Lemma memoize_call_distinct (m : list (value * value)) (s : State)
    (x : value) :
  memory_distinct m = true ->
  memory_distinct (fst (fst (memoize_call m s x))) = true.
Proof.
  intros Hd. unfold memoize_call.
  destruct (memory_lookup m x) eqn:L; [exact Hd |].
  destruct (f x s) as [s' [y | e]]; simpl; [| exact Hd].
  apply memory_distinct_app; assumption.
Qed.

(** X16 (the memory of [memoize] holds no dead entry).  No key in the
    memory is equal to a key stored after it: calls keep this, so every
    entry is the one found for its own key. *)
Theorem memoize_memory_distinct (xs : list value) :
  forall (m : list (value * value)) (s : State),
    memory_distinct m = true ->
    memory_distinct (fst (memoize_calls m s xs)) = true.
Proof.
  induction xs as [| x xs IH]; intros m s Hd; simpl; [exact Hd |].
  pose proof (memoize_call_distinct m s x Hd) as H.
  destruct (memoize_call m s x) as [[m' s'] r]. simpl in H.
  apply IH. exact H.
Qed.

End MemoizeProperties.

(** * The further properties on the example programs *)

Section Instances.

Import Example.






Lemma curry_empty_call_neutral_witness :
  snd (feed (curried addThree)
         [([], []); ([VInt 1; VInt 2; VInt 3], [])])
  = snd (feed (curried addThree) [([VInt 1; VInt 2; VInt 3], [])]).
Proof.
  apply (curry_empty_call_neutral defs body builtins builtin_call
           addThree true (curried addThree) [VInt 1; VInt 2; VInt 3] [] []
           (type_error (MissingPositional "addThree" ["x"; "y"; "z"]))
           addThree_spec); reflexivity.
Defined.




Lemma count_required_arguments_function_witness :
  exists spec,
    getfullargspec checked = Return spec
    /\ count_required_arguments spec = 1%Z.
Proof.
  apply (count_required_arguments_function defs builtins 2). reflexivity.
Defined.

Lemma curry_signature_remaining_witness :
  exists c',
    snd (feed (curried addThree) (positional [[VInt 1]])) = Return c'
    /\ signature c'
       = Return [mkParam "y" POSITIONAL_OR_KEYWORD None;
                 mkParam "z" POSITIONAL_OR_KEYWORD None].
Proof.
  apply (curry_signature_remaining defs body builtins builtin_call
           0 (curried addThree) [[VInt 1]]);
    [reflexivity | reflexivity | discriminate | cbv; lia].
Defined.


End Instances.

Section ClassInstances.

Import Classes.

Lemma class_function_access_witness :
  (descr_get (class_function describe) VNone Semigroup
   = ([], Return (Plain (VMethod Semigroup (VFunction 1))))
   /\ forall args kwargs,
        call_object (Plain (VMethod Semigroup (VFunction 1))) args kwargs
        = call (VFunction 1) (Semigroup :: args) kwargs)
  /\ (descr_get (class_property describe) VNone Semigroup
      = (fst (call (VFunction 1) [Semigroup] []),
         x <- snd (call (VFunction 1) [Semigroup] []) ;; Return (Plain x)))
  /\ (instance <> VNone ->
      descr_get (class_function describe) instance Semigroup
      = ([], Raise (attribute_error "Semigroup" "describe"))
      /\ descr_get (class_property describe) instance Semigroup
         = ([], Raise (attribute_error "Semigroup" "describe"))).
Proof.
  apply (class_function_access defs body builtins builtin_call type_of
           1 describe instance Semigroup "Semigroup" "describe");
    reflexivity.
Defined.


Lemma abstract_property_never_returns_witness :
  descr_get (abstract_property append) instance Semigroup
  = ([], Raise (abstract_attribute_error "append" instance "Semigroup"))
  /\ abstract_class_property defs builtins append
     = Return (abstract_property (class_function append))
  /\ descr_get (abstract_property (class_function append)) VNone Semigroup
     = ([], Raise (abstract_attribute_error "append" VNone "Semigroup"))
  /\ (instance <> VNone ->
      descr_get (abstract_property (class_function append)) instance
        Semigroup
      = ([], Raise (attribute_error "Semigroup" "append"))).
Proof.
  apply (abstract_property_never_returns defs body builtins builtin_call
           type_of 0 instance Semigroup "Semigroup").
  reflexivity.
Defined.


Lemma memoize_consistent_witness :
  memoize_call
    (fst (memoize_calls [(VInt 5, VInt 0)] 1 [VInt 7; VInt 5]))
    (snd (memoize_calls [(VInt 5, VInt 0)] 1 [VInt 7; VInt 5])) (VInt 5)
  = (fst (memoize_calls [(VInt 5, VInt 0)] 1 [VInt 7; VInt 5]),
     snd (memoize_calls [(VInt 5, VInt 0)] 1 [VInt 7; VInt 5]),
     Return (VInt 0)).
Proof.
  apply (memoize_consistent nat counter int_eq [] [(VInt 5, VInt 0)] 0 1
           (VInt 5) (VInt 5) (VInt 0) [VInt 7; VInt 5]); reflexivity.
Defined.

Lemma memoize_memory_distinct_witness :
  memory_distinct (fst (memoize_calls [] 0 [VInt 1; VInt 1; VInt 2])) = true.
Proof.
  apply (memoize_memory_distinct nat counter int_eq
           [VInt 1; VInt 1; VInt 2] [] 0).
  reflexivity.
Defined.

End ClassInstances.
